(** * svff / vvjs: the slideshow runtime engine

    A shallow embedding of the JavaScript slideshow engine of the vvjs
    module: [SlideshowCore] (js/slideshow-core.js), [SlideshowTransitions]
    (the transitions class of js/vvjs-opacity.js) and the swipe recogniser of
    [SlideshowEvents] (js/slideshow-progress.js).

    The three classes share one container element.  They talk to each other
    through synchronous [dispatchEvent] calls on that container, through
    timers and through [transitionend] listeners, so the embedding threads
    one [World] value through every method: the objects' fields, the live
    timers and listeners of the page, and the list of custom events
    dispatched so far.

    Conventions.
    - JS numbers that hold slide positions, counts and millisecond settings
      are integers ([Z]); pointer coordinates and delays that are multiplied
      by 1.3 or 1.5 are rationals ([Q]).
    - [null] and [undefined] are [None].
    - The styling side of the DOM (opacity, z-index, classes, aria
      attributes, measured heights) is write-only for the engine and is left
      out; slide elements are identified by their 1-based position. *)

From Stdlib Require Import ZArith QArith Qabs List String Ascii Bool Lia.
From Stdlib Require Import Qminmax Qround DecimalString DecimalPos Lqa.
Import ListNotations.
Open Scope Z_scope.

(* ------------------------------------------------------------------ *)
(** ** JavaScript primitives used by the constructors *)

Module JS.

(** White space skipped by [parseInt] (the ASCII part of it). *)
Definition isWhite (c : ascii) : bool :=
  let n := nat_of_ascii c in
  (Nat.eqb n 32 || (Nat.leb 9 n && Nat.leb n 13))%bool.

Fixpoint skipWhite (s : string) : string :=
  match s with
  | String c r => if isWhite c then skipWhite r else s
  | EmptyString => s
  end.

Definition digitOf (c : ascii) : option Z :=
  let n := Z.of_nat (nat_of_ascii c) in
  if (48 <=? n) && (n <=? 57) then Some (n - 48) else None.

(** Longest prefix of decimal digits; [None] when there is none. *)
Fixpoint digits (s : string) (acc : option Z) : option Z :=
  match s with
  | EmptyString => acc
  | String c r =>
      match digitOf c with
      | Some d =>
          digits r (Some (10 * match acc with Some a => a | None => 0 end + d))
      | None => acc
      end
  end.

(** [parseInt(v, 10)] of a data attribute; [None] is [NaN].  A missing
    attribute is [undefined], which parses to [NaN]. *)
Definition parseInt (v : option string) : option Z :=
  match v with
  | None => None
  | Some s =>
      match skipWhite s with
      | String "-"%char r => option_map Z.opp (digits r None)
      | String "+"%char r => digits r None
      | r => digits r None
      end
  end.

(** [n || d] on a number: [NaN] and [0] are falsy. *)
Definition orNum (n : option Z) (d : Z) : Z :=
  match n with
  | Some 0 | None => d
  | Some v => v
  end.

(** [s || d] on a string attribute: [undefined] and the empty string are
    falsy. *)
Definition orStr (s : option string) (d : string) : string :=
  match s with
  | None | Some EmptyString => d
  | Some v => v
  end.

(** [attr !== 'false'] and [attr === 'true']. *)
Definition attrIsNot (v : option string) (lit : string) : bool :=
  match v with
  | Some s => negb (String.eqb s lit)
  | None => true
  end.

Definition attrIs (v : option string) (lit : string) : bool :=
  match v with
  | Some s => String.eqb s lit
  | None => false
  end.

(** The remainder operator [%]: truncated, sign of the dividend. *)
Definition rem (a b : Z) : Z := Z.rem a b.

End JS.

(* ------------------------------------------------------------------ *)
(** ** Data model *)

(** The [data-*] attributes of the container that the engine reads at
    attach time. *)
Record Dataset := mkDataset {
  data_time : option string;
  data_enableLooping : option string;
  data_startIndex : option string;
  data_static : option string;
  data_transition : option string;
  data_transitionDuration : option string;
  data_enableSwipe : option string;
  data_pauseOnHover : option string
}.

(** Fields of a [SlideshowCore] instance. *)
Record SlideshowCore := mkCore {
  slideTime : Z;
  totalSlides : Z;
  loopingEnabled : bool;
  slideIndex : Z;
  currentSlideIndex : Z;
  isPaused : bool;
  isVisible : bool;
  autoSlideIntervalId : option positive
}.

(** The closure created by one call of [setupTransitionCompletion]: it owns
    one [transitionEnded] flag and remembers the element it watches.  Both
    the [transitionend] listener and the fallback timeout of a transition
    run the [cleanup] function of the same closure. *)
Record Closure := mkClosure {
  cl_job : nat;
  cl_element : Z
}.

(** [this.activeTransition] of the transitions object. *)
Record ActiveTransition := mkActive {
  at_element : Z;
  at_listener : Closure;
  at_timeout : positive
}.

(** Fields of a [SlideshowTransitions] instance. *)
Record SlideshowTransitions := mkTransitions {
  slidesLength : Z;
  transitionType : string;
  transitionDuration : Z;
  originalTransitionType : option string;
  activeTransition : option ActiveTransition
}.

(** A live [setTimeout]: handle, callback closure, delay in milliseconds. *)
Record Timeout := mkTimeout {
  to_handle : positive;
  to_callback : Closure;
  to_delay : Q
}.

(** Custom events dispatched on the container, with their [detail]. *)
Inductive Event : Type :=
| SlideChanging (fromIndex toIndex : Z)
| SlideChanged (index total : Z)
| TransitionComplete (index : Z) (kind : string)
| AutoSlideStarted
| AutoSlideStopped
| PauseToggled (paused : bool)
| Swipe (right : bool) (distance : Q).

(** Everything one widget instance can read or write. *)
Record World := mkWorld {
  dataTransition : option string;       (* container.dataset.transition *)
  core : SlideshowCore;
  transitions : option SlideshowTransitions;  (* None until constructed *)
  intervals : list positive;            (* live setInterval handles *)
  timeouts : list Timeout;              (* live setTimeout handles *)
  listeners : list (Z * Closure);       (* transitionend listeners by element *)
  ended : list nat;                     (* closures whose transitionEnded is true *)
  nextHandle : positive;                (* next timer handle of the page *)
  nextJob : nat;                        (* next closure identity *)
  dispatched : list Event               (* events dispatched, oldest first *)
}.

(** *** Field updates *)

Definition setCore (c : SlideshowCore) (w : World) : World :=
  mkWorld (dataTransition w) c (transitions w) (intervals w) (timeouts w)
          (listeners w) (ended w) (nextHandle w) (nextJob w) (dispatched w).

Definition setTransitions (t : option SlideshowTransitions) (w : World) : World :=
  mkWorld (dataTransition w) (core w) t (intervals w) (timeouts w)
          (listeners w) (ended w) (nextHandle w) (nextJob w) (dispatched w).

Definition setDataTransition (d : option string) (w : World) : World :=
  mkWorld d (core w) (transitions w) (intervals w) (timeouts w)
          (listeners w) (ended w) (nextHandle w) (nextJob w) (dispatched w).

Definition setIntervals (l : list positive) (w : World) : World :=
  mkWorld (dataTransition w) (core w) (transitions w) l (timeouts w)
          (listeners w) (ended w) (nextHandle w) (nextJob w) (dispatched w).

Definition setTimeouts (l : list Timeout) (w : World) : World :=
  mkWorld (dataTransition w) (core w) (transitions w) (intervals w) l
          (listeners w) (ended w) (nextHandle w) (nextJob w) (dispatched w).

Definition setListeners (l : list (Z * Closure)) (w : World) : World :=
  mkWorld (dataTransition w) (core w) (transitions w) (intervals w) (timeouts w)
          l (ended w) (nextHandle w) (nextJob w) (dispatched w).

Definition setEnded (l : list nat) (w : World) : World :=
  mkWorld (dataTransition w) (core w) (transitions w) (intervals w) (timeouts w)
          (listeners w) l (nextHandle w) (nextJob w) (dispatched w).

Definition setNextHandle (h : positive) (w : World) : World :=
  mkWorld (dataTransition w) (core w) (transitions w) (intervals w) (timeouts w)
          (listeners w) (ended w) h (nextJob w) (dispatched w).

Definition setNextJob (j : nat) (w : World) : World :=
  mkWorld (dataTransition w) (core w) (transitions w) (intervals w) (timeouts w)
          (listeners w) (ended w) (nextHandle w) j (dispatched w).

(** [container.dispatchEvent]: record the event.  The listeners that the
    engine itself registered are called by the dispatching method, in
    registration order. *)
Definition dispatchEvent (e : Event) (w : World) : World :=
  mkWorld (dataTransition w) (core w) (transitions w) (intervals w) (timeouts w)
          (listeners w) (ended w) (nextHandle w) (nextJob w) (dispatched w ++ [e]).

Definition setSlideIndex (i : Z) (c : SlideshowCore) : SlideshowCore :=
  mkCore (slideTime c) (totalSlides c) (loopingEnabled c) i
         (currentSlideIndex c) (isPaused c) (isVisible c) (autoSlideIntervalId c).

Definition setCurrentSlideIndex (i : Z) (c : SlideshowCore) : SlideshowCore :=
  mkCore (slideTime c) (totalSlides c) (loopingEnabled c) (slideIndex c)
         i (isPaused c) (isVisible c) (autoSlideIntervalId c).

Definition setIsPaused (b : bool) (c : SlideshowCore) : SlideshowCore :=
  mkCore (slideTime c) (totalSlides c) (loopingEnabled c) (slideIndex c)
         (currentSlideIndex c) b (isVisible c) (autoSlideIntervalId c).

Definition setIsVisible (b : bool) (c : SlideshowCore) : SlideshowCore :=
  mkCore (slideTime c) (totalSlides c) (loopingEnabled c) (slideIndex c)
         (currentSlideIndex c) (isPaused c) b (autoSlideIntervalId c).

Definition setAutoSlideIntervalId (h : option positive) (c : SlideshowCore)
  : SlideshowCore :=
  mkCore (slideTime c) (totalSlides c) (loopingEnabled c) (slideIndex c)
         (currentSlideIndex c) (isPaused c) (isVisible c) h.

Definition setActiveTransition (a : option ActiveTransition)
  (t : SlideshowTransitions) : SlideshowTransitions :=
  mkTransitions (slidesLength t) (transitionType t) (transitionDuration t)
                (originalTransitionType t) a.

(* ------------------------------------------------------------------ *)
(** ** Timers and listeners of the page *)

(** [setInterval] and [setTimeout] draw their handles from one counter;
    handles are positive, so a stored handle is always truthy. *)
Definition clearInterval (h : positive) (w : World) : World :=
  setIntervals (filter (fun k => negb (Pos.eqb k h)) (intervals w)) w.

Definition clearTimeout (h : positive) (w : World) : World :=
  setTimeouts (filter (fun t => negb (Pos.eqb (to_handle t) h)) (timeouts w)) w.

Definition closure_eqb (a b : Closure) : bool :=
  Nat.eqb (cl_job a) (cl_job b) && Z.eqb (cl_element a) (cl_element b).

Definition sameListener (el : Z) (cl : Closure) (p : Z * Closure) : bool :=
  Z.eqb (fst p) el && closure_eqb (snd p) cl.

(** [el.addEventListener('transitionend', cl)]: registering the same
    function twice on one element keeps one registration. *)
Definition addEventListener (el : Z) (cl : Closure) (w : World) : World :=
  if existsb (sameListener el cl) (listeners w) then w
  else setListeners (listeners w ++ [(el, cl)]) w.

Definition removeEventListener (el : Z) (cl : Closure) (w : World) : World :=
  setListeners (filter (fun p => negb (sameListener el cl p)) (listeners w)) w.

(* ------------------------------------------------------------------ *)
(** ** SlideshowCore, part 1: what the transition engine calls back *)

(** [adjustHeight] measures the current slide and writes a style. *)
Definition adjustHeight (w : World) : World := w.

(** [updateAccessibilityAttributes]: per-slide attributes, then the
    [vvjs:slideChanged] event.  Its listeners (navigation dots, the
    announcer, the URL hash) only write to the DOM. *)
Definition updateAccessibilityAttributes (w : World) : World :=
  dispatchEvent (SlideChanged (slideIndex (core w)) (totalSlides (core w))) w.

(** The listener that [SlideshowCore.init] registers for
    [vvjs:transitionComplete]. *)
Definition coreOnTransitionComplete (w : World) : World :=
  adjustHeight (updateAccessibilityAttributes w).

(* ------------------------------------------------------------------ *)
(** ** SlideshowTransitions *)

Definition cleanupActiveTransition (w : World) : World :=
  match transitions w with
  | Some t =>
      match activeTransition t with
      | Some a =>
          let w1 := clearTimeout (at_timeout a) w in
          let w2 := removeEventListener (at_element a) (at_listener a) w1 in
          setTransitions (Some (setActiveTransition None t)) w2
      | None => w
      end
  | None => w
  end.

(** [onTransitionComplete]: drop the bookkeeping, dispatch
    [vvjs:transitionComplete]; the core's listener runs inside the
    dispatch. *)
Definition onTransitionComplete (w : World) : World :=
  let w1 := cleanupActiveTransition w in
  match transitions w1 with
  | Some t =>
      coreOnTransitionComplete
        (dispatchEvent
           (TransitionComplete (slideIndex (core w1)) (transitionType t)) w1)
  | None => w1
  end.

(** The [cleanup] function of the closure [cl]. *)
Definition cleanup (cl : Closure) (w : World) : World :=
  if existsb (Nat.eqb (cl_job cl)) (ended w) then w
  else
    let w1 := setEnded (ended w ++ [cl_job cl]) w in
    let w2 :=
      match transitions w1 with
      | Some t =>
          match activeTransition t with
          | Some a => removeEventListener (cl_element cl) (at_listener a) w1
          | None => w1
          end
      | None => w1
      end in
    onTransitionComplete w2.

(** The [listener] function of the closure [cl], called with an event whose
    [propertyName] is [prop] and whose [target] is [target]. *)
Definition listener (cl : Closure) (prop : string) (target : Z) (w : World)
  : World :=
  if String.eqb prop "opacity" && Z.eqb target (cl_element cl)
  then cleanup cl w else w.

(** Total duration of a variant, before the 100 ms buffer. *)
Definition totalDuration (variant : string) (duration : Z) : Q :=
  if String.eqb variant "staged"
  then (inject_Z duration * (13 # 10))%Q
  else inject_Z duration.

Definition setupTransitionCompletion (element : Z) (variant : string)
  (w : World) : World :=
  match transitions w with
  | Some t =>
      let cl := mkClosure (nextJob w) element in
      let h := nextHandle w in
      let delay := (totalDuration variant (transitionDuration t) + 100)%Q in
      let w1 := setNextJob (S (nextJob w)) (setNextHandle (Pos.succ h) w) in
      let w2 := setTimeouts (timeouts w1 ++ [mkTimeout h cl delay]) w1 in
      let w3 :=
        setTransitions
          (Some (setActiveTransition (Some (mkActive element cl h)) t)) w2 in
      addEventListener element cl w3
  | None => w
  end.

(** [applyCrossfadeTransition]: the style writes on [outgoing] and
    [incoming] are omitted. *)
Definition applyCrossfadeTransition (outgoing : option Z) (incoming : Z)
  (variant : string) (w : World) : World :=
  setupTransitionCompletion incoming variant w.

Definition transitionInstant (outgoing : option Z) (incoming : Z) (w : World)
  : World :=
  onTransitionComplete w.

Definition transitionCrossfadeClassic (outgoing : option Z) (incoming : Z)
  (w : World) : World :=
  applyCrossfadeTransition outgoing incoming "classic" w.

Definition transitionCrossfadeStaged (outgoing : option Z) (incoming : Z)
  (w : World) : World :=
  applyCrossfadeTransition outgoing incoming "staged" w.

Definition transitionCrossfadeDynamic (outgoing : option Z) (incoming : Z)
  (w : World) : World :=
  applyCrossfadeTransition outgoing incoming "dynamic" w.

(** [this.slides[i - 1]] for an integer [i]: the slide at position [i], or
    [undefined]. *)
Definition slideAt (len i : Z) : option Z :=
  if (1 <=? i) && (i <=? len) then Some i else None.

Definition performTransition (fromIndex toIndex : Z) (w : World) : World :=
  let w1 := cleanupActiveTransition w in
  match transitions w1 with
  | Some t =>
      let outgoing :=
        if Z.eqb fromIndex 0 then None else slideAt (slidesLength t) fromIndex in
      match slideAt (slidesLength t) toIndex with
      | None => w1
      | Some incoming =>
          if String.eqb (transitionType t) "instant" then
            transitionInstant outgoing incoming w1
          else if String.eqb (transitionType t) "crossfade-classic" then
            transitionCrossfadeClassic outgoing incoming w1
          else if String.eqb (transitionType t) "crossfade-staged" then
            transitionCrossfadeStaged outgoing incoming w1
          else if String.eqb (transitionType t) "crossfade-dynamic" then
            transitionCrossfadeDynamic outgoing incoming w1
          else
            transitionInstant outgoing incoming w1
      end
  | None => w1
  end.

(** [handleReducedMotion]: switch the instance to instant transitions. *)
Definition handleReducedMotion (w : World) : World :=
  match transitions w with
  | Some t =>
      let orig :=
        match originalTransitionType t with
        | None | Some EmptyString => Some (transitionType t)
        | Some o => Some o
        end in
      setDataTransition (Some "instant"%string)
        (setTransitions
           (Some (mkTransitions (slidesLength t) "instant" (transitionDuration t)
                                orig (activeTransition t))) w)
  | None => w
  end.

(** [SlideshowTransitions.destroy]. *)
Definition transitionsDestroy (w : World) : World :=
  cleanupActiveTransition w.

(* ------------------------------------------------------------------ *)
(** ** SlideshowCore, part 2: navigation and autoplay *)

(** [updateSlideVisibility].  The [vvjs:slideChanging] listener of the
    transitions object (bound by [bindEvents] unless it has no slides) runs
    inside the dispatch, before [currentSlideIndex] is updated. *)
Definition updateSlideVisibility (w : World) : World :=
  let previousIndex := currentSlideIndex (core w) in
  let newIndex := slideIndex (core w) in
  let w1 := dispatchEvent (SlideChanging previousIndex newIndex) w in
  let w2 :=
    match transitions w1 with
    | Some t =>
        if Z.eqb (slidesLength t) 0 then w1
        else performTransition previousIndex newIndex w1
    | None => w1
    end in
  let w3 := setCore (setCurrentSlideIndex newIndex (core w2)) w2 in
  if String.eqb (JS.orStr (dataTransition w3) "instant") "instant"
  then adjustHeight (updateAccessibilityAttributes w3)
  else w3.

Definition stopAutoSlide (w : World) : World :=
  match autoSlideIntervalId (core w) with
  | Some h =>
      let w1 := clearInterval h w in
      let w2 := setCore (setAutoSlideIntervalId None (core w1)) w1 in
      dispatchEvent AutoSlideStopped w2
  | None => w
  end.

Definition startAutoSlide (w : World) : World :=
  let w1 := stopAutoSlide w in
  if (0 <? slideTime (core w1)) && negb (isPaused (core w1))
     && isVisible (core w1)
  then
    let h := nextHandle w1 in
    let w2 := setIntervals (intervals w1 ++ [h]) (setNextHandle (Pos.succ h) w1) in
    let w3 := setCore (setAutoSlideIntervalId (Some h) (core w2)) w2 in
    dispatchEvent AutoSlideStarted w3
  else w1.

Definition nextSlide (w : World) : World :=
  let c := core w in
  if loopingEnabled c then
    let w1 :=
      setCore (setSlideIndex (JS.rem (slideIndex c) (totalSlides c) + 1) c) w in
    adjustHeight (updateSlideVisibility w1)
  else if slideIndex c <? totalSlides c then
    let w1 := setCore (setSlideIndex (slideIndex c + 1) c) w in
    adjustHeight (updateSlideVisibility w1)
  else
    stopAutoSlide w.

Definition prevSlide (w : World) : World :=
  let c := core w in
  if loopingEnabled c then
    let i := if slideIndex c =? 1 then totalSlides c else slideIndex c - 1 in
    adjustHeight (updateSlideVisibility (setCore (setSlideIndex i c) w))
  else if 1 <? slideIndex c then
    adjustHeight
      (updateSlideVisibility (setCore (setSlideIndex (slideIndex c - 1) c) w))
  else
    w.

Definition goToSlide (index : Z) (w : World) : World :=
  if (1 <=? index) && (index <=? totalSlides (core w)) then
    adjustHeight
      (updateSlideVisibility (setCore (setSlideIndex index (core w)) w))
  else w.

Definition togglePause (w : World) : World :=
  let w1 := setCore (setIsPaused (negb (isPaused (core w))) (core w)) w in
  let w2 := dispatchEvent (PauseToggled (isPaused (core w1))) w1 in
  if isPaused (core w2) then stopAutoSlide w2 else startAutoSlide w2.

Definition setVisibility (visible : bool) (w : World) : World :=
  let w1 := setCore (setIsVisible visible (core w)) w in
  if visible && negb (isPaused (core w1)) then startAutoSlide w1
  else stopAutoSlide w1.


(* ------------------------------------------------------------------ *)
(** ** Construction *)

(** [new SlideshowCore(container)] for a container with the data attributes
    [d] and [n] slide elements, on a page whose next timer handle is [h].
    The constructor ends with [init], which shows the starting slide. *)
Definition newSlideshowCore (d : Dataset) (n : Z) (h : positive) : World :=
  let slideTime := JS.orNum (JS.parseInt (data_time d)) 5000 in
  let loopingEnabled := JS.attrIsNot (data_enableLooping d) "false" in
  let startIndex := JS.orNum (JS.parseInt (data_startIndex d)) 1 in
  let slideIndex := Z.max 1 (Z.min startIndex n) in
  let isPaused := JS.attrIs (data_static d) "true" in
  let c := mkCore slideTime n loopingEnabled slideIndex slideIndex isPaused
                  true None in
  let w := mkWorld (data_transition d) c None [] [] [] [] h 0%nat [] in
  adjustHeight (updateSlideVisibility w).

(** [new SlideshowTransitions(container, core)]; [reducedMotion] is the
    answer of the [prefers-reduced-motion] media query at that moment. *)
Definition newSlideshowTransitions (d : Dataset) (reducedMotion : bool)
  (w : World) : World :=
  let t := mkTransitions (totalSlides (core w))
             (JS.orStr (dataTransition w) "instant")
             (JS.orNum (JS.parseInt (data_transitionDuration d)) 600)
             None None in
  let w1 := setTransitions (Some t) w in
  if Z.eqb (slidesLength t) 0 then w1
  else if reducedMotion then handleReducedMotion w1 else w1.

(** [SlideshowAccessibility.applyReducedMotion], the part that touches the
    core: with the preference set, autoplay starts paused. *)
Definition applyReducedMotion (reducedMotion : bool) (w : World) : World :=
  if reducedMotion
  then stopAutoSlide (setCore (setIsPaused true (core w)) w)
  else w.

(** [VVJSSlideshow.init], the calls that reach the engine, in order: the
    core, the transitions, the accessibility module's reduced-motion check,
    the visibility module's first [setVisibility(elementVisible)], the
    deep-link target [deepLink] when the URL hash names one, and
    [startAutoSlide]. *)
Definition initSlideshow (d : Dataset) (n : Z) (h : positive)
  (reducedMotion elementVisible : bool) (deepLink : option Z) : World :=
  let w1 := newSlideshowCore d n h in
  let w2 := newSlideshowTransitions d reducedMotion w1 in
  let w3 := applyReducedMotion reducedMotion w2 in
  let w4 := setVisibility elementVisible w3 in
  let w5 :=
    match deepLink with
    | Some k =>
        if (1 <=? k) && (k <=? totalSlides (core w4)) then goToSlide k w4 else w4
    | None => w4
    end in
  startAutoSlide w5.

(* ------------------------------------------------------------------ *)
(** ** SlideshowEvents: the swipe recogniser *)

Definition Qltb (x y : Q) : bool := negb (Qle_bool y x).

Record SlideshowEvents := mkEvents {
  touchStartX : option Q;
  touchStartY : option Q;
  touchEndX : option Q;
  touchEndY : option Q;
  isDragging : bool;
  dragThreshold : Q;
  isMouseOver : bool;
  swipeEnabled : bool;
  pauseOnHover : bool
}.

(** [new SlideshowEvents(container, core)], without the listener set-up. *)
Definition newSlideshowEvents (d : Dataset) : SlideshowEvents :=
  mkEvents None None None None false 40 false
           (JS.attrIsNot (data_enableSwipe d) "false")
           (JS.attrIsNot (data_pauseOnHover d) "false").

(** A coordinate in arithmetic: [null] counts as 0. *)
Definition num (x : option Q) : Q :=
  match x with Some q => q | None => 0%Q end.

Definition resetTouchState (ev : SlideshowEvents) : SlideshowEvents :=
  mkEvents None None None None false (dragThreshold ev) (isMouseOver ev)
           (swipeEnabled ev) (pauseOnHover ev).

Definition setTouchStart (x y : Q) (ev : SlideshowEvents) : SlideshowEvents :=
  mkEvents (Some x) (Some y) (touchEndX ev) (touchEndY ev) false
           (dragThreshold ev) (isMouseOver ev) (swipeEnabled ev)
           (pauseOnHover ev).

Definition setTouchEnd (x y : Q) (ev : SlideshowEvents) : SlideshowEvents :=
  mkEvents (touchStartX ev) (touchStartY ev) (Some x) (Some y) (isDragging ev)
           (dragThreshold ev) (isMouseOver ev) (swipeEnabled ev)
           (pauseOnHover ev).

(** The horizontal and vertical measurements of [processSwipeGesture]. *)
Definition swipeDeltaX (ev : SlideshowEvents) : Q :=
  (num (touchEndX ev) - num (touchStartX ev))%Q.

Definition swipeDeltaY (ev : SlideshowEvents) : Q :=
  Qabs (num (touchEndY ev) - num (touchStartY ev))%Q.

(** The test of [processSwipeGesture]. *)
Definition isSwipe (ev : SlideshowEvents) : bool :=
  Qltb (dragThreshold ev) (Qabs (swipeDeltaX ev))
  && Qltb (swipeDeltaY ev) (dragThreshold ev * (3 # 2))%Q.

Definition processSwipeGesture (ev : SlideshowEvents) (w : World) : World :=
  let deltaX := swipeDeltaX ev in
  if isSwipe ev then
    let w1 := if Qltb 0 deltaX then prevSlide w else nextSlide w in
    let w2 := startAutoSlide w1 in
    dispatchEvent (Swipe (Qltb 0 deltaX) (Qabs deltaX)) w2
  else w.

(** [handlePointerDown] and [handlePointerUp]; [mouse] says whether the
    event's [pointerType] is ['mouse']. *)
Definition handlePointerDown (mouse : bool) (x y : Q) (ev : SlideshowEvents)
  : SlideshowEvents :=
  if negb (swipeEnabled ev) || mouse then ev else setTouchStart x y ev.

Definition handlePointerUp (mouse : bool) (x y : Q)
  (s : SlideshowEvents * World) : SlideshowEvents * World :=
  let (ev, w) := s in
  if negb (swipeEnabled ev) || mouse then s
  else
    let ev1 := setTouchEnd x y ev in
    (resetTouchState ev1, processSwipeGesture ev1 w).

(** [handleTouchStart] and [handleTouchEnd], the legacy path. *)
Definition handleTouchStart (x y : Q) (ev : SlideshowEvents)
  : SlideshowEvents :=
  if negb (swipeEnabled ev) then ev else setTouchStart x y ev.

Definition handleTouchEnd (x y : Q) (s : SlideshowEvents * World)
  : SlideshowEvents * World :=
  let (ev, w) := s in
  if negb (swipeEnabled ev) then s
  else
    let ev1 := setTouchEnd x y ev in
    (resetTouchState ev1, processSwipeGesture ev1 w).

(* ------------------------------------------------------------------ *)
(** ** The event loop

    One [Action] is one task of the page's event loop that reaches the
    engine: a call of a public method of the core (from a button, a key, a
    swipe, the visibility observer or external code), or a browser callback
    (the autoplay interval, a fallback timeout, a [transitionend] event). *)

Inductive Action : Type :=
| CallNextSlide
| CallPrevSlide
| CallGoToSlide (n : Z)
| CallTogglePause
| CallSetVisibility (v : bool)
| CallStartAutoSlide
| CallStopAutoSlide
| ReducedMotionOn
| IntervalFires (h : positive)
| TimeoutFires (h : positive)
| TransitionEnd (element : Z) (prop : string) (target : Z).

(** A timeout that is still live runs its callback once and is gone; a
    cleared one never runs. *)
Definition fireTimeout (h : positive) (w : World) : World :=
  match find (fun t => Pos.eqb (to_handle t) h) (timeouts w) with
  | Some t => cleanup (to_callback t) (clearTimeout h w)
  | None => w
  end.

(** A [transitionend] event reaching [element] calls the listeners that
    were registered on it when the dispatch began and are still registered
    when their turn comes. *)
Definition fireTransitionEnd (element : Z) (prop : string) (target : Z)
  (w : World) : World :=
  fold_left
    (fun acc p =>
       if existsb (sameListener (fst p) (snd p)) (listeners acc)
       then listener (snd p) prop target acc else acc)
    (filter (fun p => Z.eqb (fst p) element) (listeners w)) w.

Definition step (w : World) (a : Action) : World :=
  match a with
  | CallNextSlide => nextSlide w
  | CallPrevSlide => prevSlide w
  | CallGoToSlide n => goToSlide n w
  | CallTogglePause => togglePause w
  | CallSetVisibility v => setVisibility v w
  | CallStartAutoSlide => startAutoSlide w
  | CallStopAutoSlide => stopAutoSlide w
  | ReducedMotionOn => handleReducedMotion w
  | IntervalFires h =>
      if existsb (Pos.eqb h) (intervals w) then nextSlide w else w
  | TimeoutFires h => fireTimeout h w
  | TransitionEnd el prop target => fireTransitionEnd el prop target w
  end.

Definition run (w : World) (l : list Action) : World := fold_left step l w.

(** *** Observations on the event log *)

Definition isSlideChanged (e : Event) : bool :=
  match e with SlideChanged _ _ => true | _ => false end.

Definition isSlideChanging (e : Event) : bool :=
  match e with SlideChanging _ _ => true | _ => false end.

Definition isTransitionComplete (e : Event) : bool :=
  match e with TransitionComplete _ _ => true | _ => false end.

Definition countEvents (p : Event -> bool) (w : World) : nat :=
  List.length (filter p (dispatched w)).

(** Events dispatched between the world [w] and a later world [w']. *)
Definition newEvents (w w' : World) : list Event :=
  skipn (List.length (dispatched w)) (dispatched w').

(* ------------------------------------------------------------------ *)
(** ** Vocabulary of the statements *)

(** The condition under which [startAutoSlide] arms the interval. *)
Definition mayAutoplay (c : SlideshowCore) : bool :=
  (0 <? slideTime c) && negb (isPaused c) && isVisible c.

(** The later world [w'] has dispatched everything [w] had, and maybe
    more. *)
Definition extends (w w' : World) : Prop :=
  exists l, dispatched w' = dispatched w ++ l.

(** The worlds a page can be in: built by [VVJSSlideshow.init] around at
    least one slide, then driven by the event loop. *)
Inductive reachable : World -> Prop :=
| reach_init (d : Dataset) (n : Z) (h : positive) (rm vis : bool)
    (dl : option Z) :
    1 <= n -> reachable (initSlideshow d n h rm vis dl)
| reach_step (w : World) (a : Action) :
    reachable w -> reachable (step w a).

(** The stored index is in range and the index tracked for transition
    events has caught up with it. *)
Definition coreInv (c : SlideshowCore) : Prop :=
  1 <= slideIndex c <= totalSlides c /\ currentSlideIndex c = slideIndex c.

(** Everything outside the core, the interval table and the event log. *)
Definition sameTransitionState (w w' : World) : Prop :=
  dataTransition w' = dataTransition w
  /\ transitions w' = transitions w
  /\ timeouts w' = timeouts w
  /\ listeners w' = listeners w
  /\ ended w' = ended w
  /\ nextJob w' = nextJob w.

(** A container without data attributes, and the world that
    [VVJSSlideshow.init] builds around three slides of it (visible, no
    reduced motion, no deep link): instant transitions, looping, 5000 ms. *)
Definition plain : Dataset :=
  mkDataset None None None None None None None None.

Definition plainWorld : World :=
  initSlideshow plain 3 1%positive false true None.

(** Three slides, looping off, starting on the last slide. *)
Definition noLoopLast : Dataset :=
  mkDataset None (Some "false"%string) (Some "3"%string) None None None None
            None.

Definition noLoopLastWorld : World :=
  initSlideshow noLoopLast 3 1%positive false true None.

(** A container whose only data attribute is [data-time], set to 0, and
    its world around three slides. *)
Definition timeZero : Dataset :=
  mkDataset (Some "0"%string) None None None None None None None.

Definition timeZeroWorld : World :=
  initSlideshow timeZero 3 1%positive false true None.

(** A touch that goes down at (200, 100) and up at (140, 105), on the
    recogniser of a container without data attributes. *)
Definition swipeLeft : SlideshowEvents :=
  setTouchEnd 140 105 (handlePointerDown false 200 100 (newSlideshowEvents plain)).

(** [this.activeTransition] of the transitions object, if there is one. *)
Definition activeOf (w : World) : option ActiveTransition :=
  match transitions w with
  | Some t => activeTransition t
  | None => None
  end.

(** At most one transition job is in flight.  When there is one, its
    fallback timeout is the only live timeout, its listener the only
    registered [transitionend] listener, and its [transitionEnded] flag is
    still false; when there is none, no timeout and no listener is left.
    The transitions object watches the core's slides and agrees with the
    container about the transition kind. *)
Record transInv (w : World) : Prop := mkTransInv {
  ti_trans :
    exists t, transitions w = Some t
              /\ slidesLength t = totalSlides (core w)
              /\ transitionType t = JS.orStr (dataTransition w) "instant";
  ti_active :
    match activeOf w with
    | Some a =>
        (exists d, timeouts w = [mkTimeout (at_timeout a) (at_listener a) d])
        /\ listeners w = [(at_element a, at_listener a)]
        /\ cl_element (at_listener a) = at_element a
        /\ existsb (Nat.eqb (cl_job (at_listener a))) (ended w) = false
        /\ (cl_job (at_listener a) < nextJob w)%nat
    | None => timeouts w = [] /\ listeners w = []
    end;
  ti_ended :
    forall j, In j (ended w) -> (j < nextJob w)%nat
}.

(** The world after [cleanupActiveTransition]: no job, no timeout, no
    listener. *)
Definition quiesce (t : SlideshowTransitions) (w : World) : World :=
  mkWorld (dataTransition w) (core w) (Some (setActiveTransition None t))
          (intervals w) [] [] (ended w) (nextHandle w) (nextJob w)
          (dispatched w).

(** The two events of a completion: [vvjs:transitionComplete], and the
    [vvjs:slideChanged] of the core's listener. *)
Definition announce (t : SlideshowTransitions) (w : World) : World :=
  dispatchEvent (SlideChanged (slideIndex (core w)) (totalSlides (core w)))
    (dispatchEvent
       (TransitionComplete (slideIndex (core w)) (transitionType t)) w).

(** The world after the job [a] has completed. *)
Definition completeJob (t : SlideshowTransitions) (a : ActiveTransition)
  (w : World) : World :=
  announce t (quiesce t (setEnded (ended w ++ [cl_job (at_listener a)]) w)).

(** The world after [setupTransitionCompletion] on a quiet world. *)
Definition arm (t : SlideshowTransitions) (element : Z) (variant : string)
  (w : World) : World :=
  let cl := mkClosure (nextJob w) element in
  mkWorld (dataTransition w) (core w)
          (Some (setActiveTransition
                   (Some (mkActive element cl (nextHandle w))) t))
          (intervals w)
          [mkTimeout (nextHandle w) cl
             (totalDuration variant (transitionDuration t) + 100)%Q]
          [(element, cl)] (ended w) (Pos.succ (nextHandle w))
          (S (nextJob w)) (dispatched w).

(** The crossfade variant that [performTransition] routes a transition
    type to; [None] for the instant path (the type ['instant'] and any
    unknown type). *)
Definition variantOf (ty : string) : option string :=
  if String.eqb ty "instant" then None
  else if String.eqb ty "crossfade-classic" then Some "classic"%string
  else if String.eqb ty "crossfade-staged" then Some "staged"%string
  else if String.eqb ty "crossfade-dynamic" then Some "dynamic"%string
  else None.

(** Browser callbacks of the transition engine. *)
Definition isCallback (a : Action) : bool :=
  match a with
  | TimeoutFires _ | TransitionEnd _ _ _ => true
  | _ => false
  end.

(** The callbacks that are a completion trigger of the job [a]: its
    fallback timeout, or an opacity [transitionend] of its element. *)
Definition triggers (a : ActiveTransition) (act : Action) : bool :=
  match act with
  | TimeoutFires h => Pos.eqb (at_timeout a) h
  | TransitionEnd el prop target =>
      Z.eqb (at_element a) el && String.eqb prop "opacity"
      && Z.eqb target (at_element a)
  | _ => false
  end.

(** A container with a 3000 ms interval and [data-transition] set to
    [crossfade-classic], and the world that [VVJSSlideshow.init] builds
    around three slides of it (visible, no reduced motion, no deep link). *)
Definition crossfadeClassic : Dataset :=
  mkDataset (Some "3000"%string) None None None
            (Some "crossfade-classic"%string) None None None.

Definition crossfadeWorld : World :=
  initSlideshow crossfadeClassic 3 1%positive false true None.

(** Two [nextSlide] calls in a row on it, the second while the first
    crossfade is still running; then every timeout and every opacity
    [transitionend] of both transitions gets its chance. *)
Definition crossfadeOnce : World := step crossfadeWorld CallNextSlide.

Definition crossfadeTwice : World := step crossfadeOnce CallNextSlide.

Definition crossfadeSettled : World :=
  run crossfadeTwice
      [TimeoutFires 3%positive; TransitionEnd 2 "opacity" 2;
       TimeoutFires 4%positive; TransitionEnd 3 "opacity" 3].

(** The navigation calls that change the slide: [nextSlide] and
    [prevSlide] unless stopped at the boundary with looping off,
    [goToSlide] with a target in range. *)
Definition navigates (w : World) (a : Action) : bool :=
  let c := core w in
  match a with
  | CallNextSlide => loopingEnabled c || (slideIndex c <? totalSlides c)
  | CallPrevSlide => loopingEnabled c || (1 <? slideIndex c)
  | CallGoToSlide n => (1 <=? n) && (n <=? totalSlides c)
  | _ => false
  end.

(* ------------------------------------------------------------------ *)
(** ** Further vocabulary: timers, teardown *)

(** The live autoplay intervals are exactly the one whose handle the core
    remembers. *)
Definition intervalInv (w : World) : Prop :=
  intervals w
  = match autoSlideIntervalId (core w) with
    | Some h => [h]
    | None => []
    end.

Definition isAutoplayEvent (e : Event) : bool :=
  match e with
  | AutoSlideStarted | AutoSlideStopped => true
  | _ => false
  end.



(** The transition type the transitions object currently routes by. *)
Definition kindOf (w : World) : option string :=
  option_map transitionType (transitions w).

(** Instant transitions and no crossfade in flight. *)
Definition instantIdle (w : World) : Prop :=
  exists t, transitions w = Some t
            /\ transitionType t = "instant"%string
            /\ activeTransition t = None.

(* ------------------------------------------------------------------ *)
(** ** The public API of the page (vvjs-main.js)

    [getCoreModule(identifier)] is a DOM lookup; its answer is the
    [option World] argument of the functions below ([None]: no such
    slideshow).  A numeric argument that may also be [NaN] or [undefined]
    is an [option Z]. *)

(** [a < b] and [a > b] on a number that may be [NaN]: comparisons with
    [NaN] are false. *)
Definition numLt (a : option Z) (b : Z) : bool :=
  match a with Some x => x <? b | None => false end.

Definition numGt (a : option Z) (b : Z) : bool :=
  match a with Some x => b <? x | None => false end.

(** [core.goToSlide(index)] for such an argument: [NaN >= 1] is false, so
    the call is ignored. *)
Definition goToSlideArg (index : option Z) (w : World) : World :=
  match index with
  | Some n => goToSlide n w
  | None => w
  end.

(** [Drupal.vvjs.goToSlide(identifier, slideIndex)]: the returned flag and
    the instance afterwards. *)
Definition apiGoToSlide (inst : option World) (index : option Z)
  : bool * option World :=
  match inst with
  | None => (false, None)
  | Some w =>
      if numLt index 1 || numGt index (totalSlides (core w))
      then (false, Some w)
      else (true, Some (startAutoSlide (goToSlideArg index w)))
  end.

(** [Drupal.vvjs.getCurrentSlide(identifier)]. *)
Definition apiGetCurrentSlide (inst : option World) : option Z :=
  option_map (fun w => slideIndex (core w)) inst.

(** [Drupal.vvjs.nextSlide] and [Drupal.vvjs.prevSlide]. *)
Definition apiNextSlide (inst : option World) : bool * option World :=
  match inst with
  | Some w => (true, Some (startAutoSlide (nextSlide w)))
  | None => (false, None)
  end.

Definition apiPrevSlide (inst : option World) : bool * option World :=
  match inst with
  | Some w => (true, Some (startAutoSlide (prevSlide w)))
  | None => (false, None)
  end.

(** [Drupal.vvjs.pause] and [Drupal.vvjs.resume]. *)
Definition apiPause (inst : option World) : bool * option World :=
  match inst with
  | Some w =>
      if negb (isPaused (core w)) then (true, Some (togglePause w))
      else (false, Some w)
  | None => (false, None)
  end.

Definition apiResume (inst : option World) : bool * option World :=
  match inst with
  | Some w =>
      if isPaused (core w) then (true, Some (togglePause w))
      else (false, Some w)
  | None => (false, None)
  end.

(** [Drupal.vvjs.pauseAll] and [Drupal.vvjs.resumeAll] over the initialised
    slideshows of the page. *)
Definition pauseAll (instances : list World) : list World :=
  map (fun w => if negb (isPaused (core w)) then togglePause w else w)
      instances.

Definition resumeAll (instances : list World) : list World :=
  map (fun w => if isPaused (core w) then togglePause w else w) instances.

(* ------------------------------------------------------------------ *)
(** ** Keyboard and button input *)

(** The [keydown] listener of [SlideshowAccessibility], registered only
    when keyboard navigation is enabled.  [inField]: the event target is
    inside an input, textarea or editable element; [focused]: the answer
    of [isSlideshowFocused]. *)
Definition handleKeydown (keyboardEnabled inField focused : bool)
  (key : string) (w : World) : World :=
  if negb keyboardEnabled then w
  else if inField then w
  else if negb focused then w
  else if String.eqb key "ArrowRight" then startAutoSlide (nextSlide w)
  else if String.eqb key "ArrowLeft" then startAutoSlide (prevSlide w)
  else if String.eqb key " " || String.eqb key "Spacebar" then togglePause w
  else if String.eqb key "Home" then startAutoSlide (goToSlide 1 w)
  else if String.eqb key "End"
       then startAutoSlide (goToSlide (totalSlides (core w)) w)
  else w.

(** The click listeners of [SlideshowNavigation]: the arrows, the dot at
    0-based position [index], the play/pause button. *)
Definition clickNext (w : World) : World := startAutoSlide (nextSlide w).

Definition clickPrev (w : World) : World := startAutoSlide (prevSlide w).

Definition clickDot (index : nat) (w : World) : World :=
  startAutoSlide (goToSlide (Z.of_nat index + 1) w).

Definition clickPlayPause (w : World) : World := togglePause w.

(** The flag [index + 1 === current] that [updateDots] computes for each
    dot and [updateAccessibilityAttributes] for each slide (it decides the
    [active] class, [aria-selected], [aria-hidden], [inert], [display]). *)
Definition activeFlags (count : nat) (current : Z) : list bool :=
  map (fun index => Z.of_nat index + 1 =? current) (seq 0 count).

(* ------------------------------------------------------------------ *)
(** ** SlideshowVisibility *)

(** Events dispatched on the container that no part of the engine listens
    to; the handlers below return them beside the new state. *)
Inductive UiEvent : Type :=
| VisibilityChanged (visible : bool)
| MouseEnter
| MouseLeave.

(** The element's bounding rectangle in viewport coordinates. *)
Record Rect := mkRect {
  rect_top : Q;
  rect_left : Q;
  rect_height : Q;
  rect_width : Q
}.

Definition rect_bottom (r : Rect) : Q := (rect_top r + rect_height r)%Q.

Definition rect_right (r : Rect) : Q := (rect_left r + rect_width r)%Q.

Record SlideshowVisibility := mkVisibility {
  vis_isVisible : bool;
  previousVisibility : bool;
  visibilityThreshold : Q
}.

Definition visibleHeight (r : Rect) (windowHeight : Q) : Q :=
  (Qmin (rect_bottom r) windowHeight - Qmax (rect_top r) 0)%Q.

Definition visibleWidth (r : Rect) (windowWidth : Q) : Q :=
  (Qmin (rect_right r) windowWidth - Qmax (rect_left r) 0)%Q.

(** [checkElementVisibility].  The ratio is a floating-point quotient: for
    an element of area zero it is [+Infinity] (at least any threshold),
    [-Infinity] or [NaN] (comparison false). *)
Definition checkElementVisibility (r : Rect) (windowHeight windowWidth : Q)
  (v : SlideshowVisibility) : bool :=
  let visibleArea :=
    (visibleHeight r windowHeight * visibleWidth r windowWidth)%Q in
  let area := (rect_height r * rect_width r)%Q in
  if Qeq_bool area 0 then Qltb 0 visibleArea
  else Qle_bool (visibilityThreshold v) (visibleArea / area).


(** [handleVisibilityChange], also the intersection observer's callback. *)
Definition handleVisibilityChange (visible : bool)
  (s : SlideshowVisibility * World)
  : SlideshowVisibility * World * list UiEvent :=
  let (v, w) := s in
  (mkVisibility visible (previousVisibility v) (visibilityThreshold v),
   setVisibility visible w, [VisibilityChanged visible]).

(** [handleScroll], the fallback without an intersection observer. *)
Definition handleScroll (r : Rect) (windowHeight windowWidth : Q)
  (s : SlideshowVisibility * World)
  : SlideshowVisibility * World * list UiEvent :=
  let (v, w) := s in
  let now := checkElementVisibility r windowHeight windowWidth v in
  if Bool.eqb now (previousVisibility v) then (v, w, [])
  else handleVisibilityChange now
         (mkVisibility (vis_isVisible v) now (visibilityThreshold v), w).

(** [handlePageVisibilityChange]; [hidden] is [document.hidden]. *)
Definition handlePageVisibilityChange (hidden : bool) (r : Rect)
  (windowHeight windowWidth : Q) (s : SlideshowVisibility * World) : World :=
  let (v, w) := s in
  if hidden then stopAutoSlide w
  else if checkElementVisibility r windowHeight windowWidth v
          && negb (isPaused (core w))
       then startAutoSlide w
       else w.

(* ------------------------------------------------------------------ *)
(** ** SlideshowEvents: hover, moves, threshold *)

Definition setIsMouseOver (b : bool) (ev : SlideshowEvents) : SlideshowEvents :=
  mkEvents (touchStartX ev) (touchStartY ev) (touchEndX ev) (touchEndY ev)
           (isDragging ev) (dragThreshold ev) b (swipeEnabled ev)
           (pauseOnHover ev).

Definition setIsDragging (b : bool) (ev : SlideshowEvents) : SlideshowEvents :=
  mkEvents (touchStartX ev) (touchStartY ev) (touchEndX ev) (touchEndY ev)
           b (dragThreshold ev) (isMouseOver ev) (swipeEnabled ev)
           (pauseOnHover ev).

(** [handleMouseEnter] and [handleMouseLeave] (the progress bar's
    [immediateStop] is outside the engine state). *)
Definition handleMouseEnter (s : SlideshowEvents * World)
  : SlideshowEvents * World * list UiEvent :=
  let (ev, w) := s in
  if pauseOnHover ev
  then (setIsMouseOver true ev, stopAutoSlide w, [MouseEnter])
  else (ev, w, []).

Definition handleMouseLeave (s : SlideshowEvents * World)
  : SlideshowEvents * World * list UiEvent :=
  let (ev, w) := s in
  if pauseOnHover ev
  then (setIsMouseOver false ev, startAutoSlide w, [MouseLeave])
  else (ev, w, []).

(** [handlePointerMove]: the new recogniser state and whether
    [preventDefault] was called. *)
Definition handlePointerMove (mouse : bool) (x y : Q) (ev : SlideshowEvents)
  : SlideshowEvents * bool :=
  if negb (swipeEnabled ev) then (ev, false)
  else if mouse then (ev, false)
  else
    match touchStartX ev, touchStartY ev with
    | Some sx, Some sy =>
        let deltaX := Qabs (x - sx) in
        let deltaY := Qabs (y - sy) in
        if Qltb deltaY deltaX && Qltb 10 deltaX
        then (setIsDragging true ev, true)
        else (ev, false)
    | _, _ => (ev, false)
    end.

(** [handleTouchMove], the legacy path: no check for a missing start. *)
Definition handleTouchMove (x y : Q) (ev : SlideshowEvents)
  : SlideshowEvents * bool :=
  if negb (swipeEnabled ev) then (ev, false)
  else
    let deltaX := Qabs (x - num (touchStartX ev)) in
    let deltaY := Qabs (y - num (touchStartY ev)) in
    if Qltb deltaY deltaX && Qltb 10 deltaX
    then (setIsDragging true ev, true)
    else (ev, false).

(** [setSwipeThreshold]. *)
Definition setSwipeThreshold (threshold : Q) (ev : SlideshowEvents)
  : SlideshowEvents :=
  mkEvents (touchStartX ev) (touchStartY ev) (touchEndX ev) (touchEndY ev)
           (isDragging ev) (Qmax 10 (Qmin 200 threshold)) (isMouseOver ev)
           (swipeEnabled ev) (pauseOnHover ev).

(** One pointer event of a touch or pen gesture. *)
Inductive PointerEvent : Type :=
| PointerDown (x y : Q)
| PointerMove (x y : Q)
| PointerUp (x y : Q)
| PointerCancel.

Definition pointerStep (mouse : bool) (s : SlideshowEvents * World)
  (e : PointerEvent) : SlideshowEvents * World :=
  match e with
  | PointerDown x y => (handlePointerDown mouse x y (fst s), snd s)
  | PointerMove x y => (fst (handlePointerMove mouse x y (fst s)), snd s)
  | PointerUp x y => handlePointerUp mouse x y s
  | PointerCancel => (resetTouchState (fst s), snd s)
  end.

Definition isPointerMove (e : PointerEvent) : bool :=
  match e with PointerMove _ _ => true | _ => false end.

(** [new SlideshowVisibility(container, core)], before [init]. *)
Definition newSlideshowVisibility : SlideshowVisibility :=
  mkVisibility true false (1 # 2).

(* ------------------------------------------------------------------ *)
(** ** Deep links (vvjs-main.js, [initializeDeepLinking]) *)

(** A template literal's rendering of an integer. *)
Definition numberToString (n : Z) : string :=
  match n with
  | Z0 => "0"
  | Zpos p => NilEmpty.string_of_uint (Pos.to_uint p)
  | Zneg p => String "-" (NilEmpty.string_of_uint (Pos.to_uint p))
  end.

Fixpoint hasDash (s : string) : bool :=
  match s with
  | EmptyString => false
  | String c r => Ascii.eqb c "-" || hasDash r
  end.

(** [s.split('-').pop()]: what follows the last ['-'], or all of [s]. *)
Fixpoint lastSegment (s : string) : string :=
  match s with
  | EmptyString => EmptyString
  | String c r =>
      if hasDash r then lastSegment r
      else if Ascii.eqb c "-" then r else s
  end.

(** The fragment written when a slide has changed:
    [#<deeplinkId>-<slideIndex>]. *)
Definition formatHash (deeplinkId : string) (index : Z) : string :=
  ("#" ++ deeplinkId ++ "-" ++ numberToString index)%string.

(** [hash && hash.startsWith(`#${deeplinkId}-`)]. *)
Definition hashMatches (deeplinkId hash : string) : bool :=
  match hash with
  | EmptyString => false
  | _ => String.prefix ("#" ++ deeplinkId ++ "-")%string hash
  end.

(** The slide a fragment names for the slideshow [deeplinkId] with
    [total] slides, if it names one. *)
Definition resolveHash (deeplinkId hash : string) (total : Z) : option Z :=
  if hashMatches deeplinkId hash then
    match JS.parseInt (Some (lastSegment hash)) with
    | Some k => if (1 <=? k) && (k <=? total) then Some k else None
    | None => None
    end
  else None.

(** The [hashchange] listener. *)
Definition hashChangeHandler (deeplinkId hash : string) (w : World) : World :=
  match resolveHash deeplinkId hash (totalSlides (core w)) with
  | Some k => startAutoSlide (goToSlide k w)
  | None => w
  end.

(* ------------------------------------------------------------------ *)
(** ** SlideshowProgress (js/slideshow-progress.js)

    Times are milliseconds ([Date.now()] is the [now] argument); the
    interval handle a [setInterval] call returns is the [handle] argument.
    [aria-valuenow] holds the rounded percentage; the [--progress] style
    the exact one.  The quotient by [slideTime] is a rational quotient,
    which is the float one as long as [slideTime] is not zero. *)

Record SlideshowProgress := mkProgress {
  showProgress : bool;
  hasProgressBar : bool;
  progressIntervalId : option positive;
  slideStartTime : Q;
  progressActive : bool;
  ariaValueNow : Z;
  cssProgress : Q
}.

(** [Math.round]. *)
Definition mathRound (x : Q) : Z := Qfloor (x + (1 # 2)).

Definition immediateStop (p : SlideshowProgress) : SlideshowProgress :=
  match progressIntervalId p with
  | Some _ =>
      mkProgress (showProgress p) (hasProgressBar p) None (slideStartTime p)
                 false (ariaValueNow p) (cssProgress p)
  | None => p
  end.

Definition startProgress (now : Q) (slideTime : Z) (handle : positive)
  (p : SlideshowProgress) : SlideshowProgress :=
  if negb (showProgress p) || negb (hasProgressBar p) || (slideTime <=? 0)
  then p
  else
    let p1 := immediateStop p in
    mkProgress (showProgress p1) (hasProgressBar p1) (Some handle) now true
               (ariaValueNow p1) (cssProgress p1).

Definition updateProgress (now : Q) (slideTime : Z) (p : SlideshowProgress)
  : SlideshowProgress :=
  if negb (progressActive p) then p
  else
    let elapsed := (now - slideStartTime p)%Q in
    let progress := Qmin 100 (elapsed / inject_Z slideTime * 100)%Q in
    let p1 :=
      mkProgress (showProgress p) (hasProgressBar p) (progressIntervalId p)
                 (slideStartTime p) (progressActive p) (mathRound progress)
                 progress in
    if Qle_bool 100 progress then immediateStop p1 else p1.

(** The callback of the 50 ms interval. *)
Definition progressTick (now : Q) (paused : bool) (slideTime : Z)
  (p : SlideshowProgress) : SlideshowProgress :=
  if progressActive p && negb paused then updateProgress now slideTime p
  else immediateStop p.

(** [resumeProgress]; [None] when it throws: it reads the bar's attribute
    without checking that the bar exists. *)
Definition resumeProgress (now : Q) (paused : bool) (slideTime : Z)
  (handle : positive) (p : SlideshowProgress) : option SlideshowProgress :=
  if negb paused && showProgress p then
    if negb (hasProgressBar p) then None
    else
      let currentProgress := inject_Z (ariaValueNow p) in
      if Qltb currentProgress 100 then
        let remainingTime :=
          (inject_Z slideTime * (1 - currentProgress / 100))%Q in
        Some (mkProgress (showProgress p) (hasProgressBar p) (Some handle)
                (now - (inject_Z slideTime - remainingTime))%Q true
                (ariaValueNow p) (cssProgress p))
      else Some p
  else Some p.

Definition resetProgress (p : SlideshowProgress) : SlideshowProgress :=
  let p1 := immediateStop p in
  if hasProgressBar p1
  then mkProgress (showProgress p1) (hasProgressBar p1)
                  (progressIntervalId p1) (slideStartTime p1)
                  (progressActive p1) 0 0
  else p1.

(* ------------------------------------------------------------------ *)
(** ** Slide styles written by the transitions (vvjs-opacity.js) *)

(** The part of a slide's style that [setupSlides] and
    [applyCrossfadeTransition] write: opacity 1 or 0, the z-index, the
    classes [vvjs-active] and [vvjs-previous]. *)
Record SlideStyle := mkStyle {
  st_opaque : bool;
  st_zIndex : Z;
  st_active : bool;
  st_previous : bool
}.

Definition shown : SlideStyle := mkStyle true 2 true false.

Definition hidden : SlideStyle := mkStyle false 1 false true.

Fixpoint updateAt {A : Type} (i : nat) (f : A -> A) (l : list A) : list A :=
  match l, i with
  | [], _ => []
  | x :: r, O => f x :: r
  | x :: r, S j => x :: updateAt j f r
  end.

(** [setupSlides]: crossfade kinds show the first slide and hide the
    others; the instant kind (and any other) leaves the styles alone. *)
Definition setupSlides (ty : string) (styles : list SlideStyle)
  : list SlideStyle :=
  if String.eqb ty "instant" then styles
  else if String.prefix "crossfade" ty then
    map (fun index => if Nat.eqb index 0 then shown else hidden)
        (seq 0 (List.length styles))
  else styles.

(** [this.slides[i - 1]] as a list position. *)
Definition slidePosition (len : nat) (i : Z) : option nat :=
  if (1 <=? i) && (i <=? Z.of_nat len) then Some (Z.to_nat (i - 1)) else None.

(** The style writes of [applyCrossfadeTransition], in source order. *)
Definition applyCrossfadeStyles (outgoing : option nat) (incoming : nat)
  (styles : list SlideStyle) : list SlideStyle :=
  let s1 :=
    match outgoing with
    | Some o => updateAt o (fun s => mkStyle (st_opaque s) 1 false true) styles
    | None => styles
    end in
  let s2 := updateAt incoming (fun s => mkStyle (st_opaque s) 2 true false) s1 in
  let s3 :=
    match outgoing with
    | Some o =>
        updateAt o (fun s => mkStyle false (st_zIndex s) (st_active s)
                                     (st_previous s)) s2
    | None => s2
    end in
  updateAt incoming
    (fun s => mkStyle true (st_zIndex s) (st_active s) (st_previous s)) s3.

(** The style writes of [performTransition(fromIndex, toIndex)]. *)
Definition performTransitionStyles (ty : string) (fromIndex toIndex : Z)
  (styles : list SlideStyle) : list SlideStyle :=
  let outgoing :=
    if Z.eqb fromIndex 0 then None
    else slidePosition (List.length styles) fromIndex in
  match slidePosition (List.length styles) toIndex with
  | None => styles
  | Some incoming =>
      match variantOf ty with
      | Some _ => applyCrossfadeStyles outgoing incoming styles
      | None => styles
      end
  end.

(** The styles in which exactly the slide at 1-based position [current]
    is shown. *)
Definition onlyShown (n : nat) (current : Z) : list SlideStyle :=
  map (fun index => if Z.of_nat index + 1 =? current then shown else hidden)
      (seq 0 n).

(** The styles after a run of navigations [from -> t1 -> t2 -> ...]. *)
Fixpoint styleRun (ty : string) (from : Z) (targets : list Z)
  (styles : list SlideStyle) : list SlideStyle :=
  match targets with
  | [] => styles
  | t :: rest =>
      styleRun ty t rest (performTransitionStyles ty from t styles)
  end.

(* ------------------------------------------------------------------ *)
(** ** Frame lemmas: which fields each method leaves alone *)

Lemma core_cleanupActiveTransition (w : World) :
  core (cleanupActiveTransition w) = core w.
Proof.
  unfold cleanupActiveTransition.
  destruct (transitions w) as [t|]; [destruct (activeTransition t)|]; reflexivity.
Qed.

Lemma core_onTransitionComplete (w : World) :
  core (onTransitionComplete w) = core w.
Proof.
  unfold onTransitionComplete.
  destruct (transitions (cleanupActiveTransition w));
    cbn; apply core_cleanupActiveTransition.
Qed.

Lemma core_cleanup (cl : Closure) (w : World) : core (cleanup cl w) = core w.
Proof.
  unfold cleanup.
  destruct (existsb _ (ended w)); [reflexivity|].
  rewrite core_onTransitionComplete. cbn.
  destruct (transitions w) as [t|]; [destruct (activeTransition t)|]; reflexivity.
Qed.

Lemma core_listener (cl : Closure) (prop : string) (target : Z) (w : World) :
  core (listener cl prop target w) = core w.
Proof.
  unfold listener. destruct (_ && _); [apply core_cleanup | reflexivity].
Qed.

Lemma core_setupTransitionCompletion (el : Z) (v : string) (w : World) :
  core (setupTransitionCompletion el v w) = core w.
Proof.
  unfold setupTransitionCompletion, addEventListener.
  destruct (transitions w); [|reflexivity].
  cbn. destruct (existsb _ _); reflexivity.
Qed.

Lemma core_performTransition (i j : Z) (w : World) :
  core (performTransition i j w) = core w.
Proof.
  unfold performTransition.
  destruct (transitions (cleanupActiveTransition w)) as [t|];
    [|apply core_cleanupActiveTransition].
  destruct (slideAt (slidesLength t) j); [|apply core_cleanupActiveTransition].
  unfold transitionInstant, transitionCrossfadeClassic,
    transitionCrossfadeStaged, transitionCrossfadeDynamic,
    applyCrossfadeTransition.
  repeat match goal with |- context [if ?b then _ else _] => destruct b end;
    rewrite ?core_onTransitionComplete, ?core_setupTransitionCompletion;
    apply core_cleanupActiveTransition.
Qed.

Lemma core_fireTimeout (h : positive) (w : World) :
  core (fireTimeout h w) = core w.
Proof.
  unfold fireTimeout. destruct (find _ _); [|reflexivity].
  now rewrite core_cleanup.
Qed.

Lemma core_fireTransitionEnd (el : Z) (prop : string) (target : Z) (w : World) :
  core (fireTransitionEnd el prop target w) = core w.
Proof.
  unfold fireTransitionEnd.
  generalize (filter (fun p => Z.eqb (fst p) el) (listeners w)).
  intro l. revert w.
  induction l as [|p l IH]; intro w; cbn [fold_left]; [reflexivity|].
  rewrite IH. destruct (existsb _ _); [apply core_listener | reflexivity].
Qed.

Lemma core_handleReducedMotion (w : World) :
  core (handleReducedMotion w) = core w.
Proof.
  unfold handleReducedMotion. destruct (transitions w); reflexivity.
Qed.

Lemma core_updateSlideVisibility (w : World) :
  core (updateSlideVisibility w)
  = setCurrentSlideIndex (slideIndex (core w)) (core w).
Proof.
  unfold updateSlideVisibility.
  set (w2 := match transitions _ with Some _ => _ | None => _ end).
  assert (E : core w2 = core w).
  { subst w2. cbn [transitions dispatchEvent].
    destruct (transitions w) as [t|]; [|reflexivity].
    destruct (Z.eqb _ 0); [reflexivity|].
    now rewrite core_performTransition. }
  destruct (String.eqb _ _); cbn; now rewrite E.
Qed.

Lemma core_stopAutoSlide (w : World) :
  core (stopAutoSlide w) = setAutoSlideIntervalId None (core w).
Proof.
  unfold stopAutoSlide.
  destruct (autoSlideIntervalId (core w)) eqn:E; [reflexivity|].
  destruct (core w); cbn in *; now subst.
Qed.

Lemma core_startAutoSlide (w : World) :
  core (startAutoSlide w)
  = setAutoSlideIntervalId
      (if mayAutoplay (core w) then Some (nextHandle w) else None) (core w).
Proof.
  unfold startAutoSlide, mayAutoplay.
  rewrite core_stopAutoSlide. cbn.
  assert (N : nextHandle (stopAutoSlide w) = nextHandle w).
  { unfold stopAutoSlide. now destruct (autoSlideIntervalId (core w)). }
  destruct (_ && _); cbn; [now rewrite core_stopAutoSlide, N|].
  apply core_stopAutoSlide.
Qed.

Lemma core_nextSlide (w : World) :
  core (nextSlide w)
  = let c := core w in
    if loopingEnabled c then
      let i := JS.rem (slideIndex c) (totalSlides c) + 1 in
      setCurrentSlideIndex i (setSlideIndex i c)
    else if slideIndex c <? totalSlides c then
      setCurrentSlideIndex (slideIndex c + 1) (setSlideIndex (slideIndex c + 1) c)
    else setAutoSlideIntervalId None c.
Proof.
  unfold nextSlide, adjustHeight. cbn zeta.
  destruct (loopingEnabled (core w)); [now rewrite core_updateSlideVisibility|].
  destruct (_ <? _); [now rewrite core_updateSlideVisibility|].
  apply core_stopAutoSlide.
Qed.

Lemma core_prevSlide (w : World) :
  core (prevSlide w)
  = let c := core w in
    if loopingEnabled c then
      let i := if slideIndex c =? 1 then totalSlides c else slideIndex c - 1 in
      setCurrentSlideIndex i (setSlideIndex i c)
    else if 1 <? slideIndex c then
      setCurrentSlideIndex (slideIndex c - 1) (setSlideIndex (slideIndex c - 1) c)
    else c.
Proof.
  unfold prevSlide, adjustHeight. cbn zeta.
  destruct (loopingEnabled (core w)); [now rewrite core_updateSlideVisibility|].
  destruct (_ <? _); [now rewrite core_updateSlideVisibility|reflexivity].
Qed.

Lemma core_goToSlide (n : Z) (w : World) :
  core (goToSlide n w)
  = if (1 <=? n) && (n <=? totalSlides (core w))
    then setCurrentSlideIndex n (setSlideIndex n (core w))
    else core w.
Proof.
  unfold goToSlide, adjustHeight.
  destruct (_ && _); [now rewrite core_updateSlideVisibility|reflexivity].
Qed.

Lemma core_togglePause (w : World) :
  core (togglePause w)
  = let c := setIsPaused (negb (isPaused (core w))) (core w) in
    setAutoSlideIntervalId
      (if mayAutoplay c then Some (nextHandle w) else None) c.
Proof.
  unfold togglePause. cbn.
  destruct (isPaused (core w)) eqn:E; cbn.
  - now rewrite core_startAutoSlide.
  - rewrite core_stopAutoSlide. cbn. unfold mayAutoplay. cbn.
    now rewrite andb_false_r.
Qed.

Lemma core_setVisibility (v : bool) (w : World) :
  core (setVisibility v w)
  = let c := setIsVisible v (core w) in
    setAutoSlideIntervalId
      (if mayAutoplay c then Some (nextHandle w) else None) c.
Proof.
  unfold setVisibility. cbn.
  destruct (v && negb (isPaused (core w))) eqn:E.
  - now rewrite core_startAutoSlide.
  - rewrite core_stopAutoSlide. unfold mayAutoplay. cbn.
    rewrite <- andb_assoc, (andb_comm (negb _) v), E.
    now rewrite andb_false_r.
Qed.

(* ------------------------------------------------------------------ *)
(** ** The event log only grows *)

Lemma extends_refl (w : World) : extends w w.
Proof. exists []. now rewrite app_nil_r. Qed.

Lemma extends_trans (a b c : World) : extends a b -> extends b c -> extends a c.
Proof.
  intros [l1 H1] [l2 H2]. exists (l1 ++ l2). now rewrite H2, H1, app_assoc.
Qed.

Lemma extends_eq (w w' : World) : dispatched w' = dispatched w -> extends w w'.
Proof. intro E. exists []. now rewrite app_nil_r. Qed.

Lemma skipn_length_app {A : Type} (l r : list A) :
  skipn (List.length l) (l ++ r) = r.
Proof. induction l as [|x l IH]; cbn; [reflexivity | exact IH]. Qed.

Lemma newEvents_app (w w' : World) (l : list Event) :
  dispatched w' = dispatched w ++ l -> newEvents w w' = l.
Proof. intro E. unfold newEvents. rewrite E. apply skipn_length_app. Qed.

Lemma dispatched_cleanupActiveTransition (w : World) :
  dispatched (cleanupActiveTransition w) = dispatched w.
Proof.
  unfold cleanupActiveTransition.
  destruct (transitions w) as [t|]; [destruct (activeTransition t)|]; reflexivity.
Qed.

Lemma extends_onTransitionComplete (w : World) :
  extends w (onTransitionComplete w).
Proof.
  unfold onTransitionComplete.
  destruct (transitions (cleanupActiveTransition w)); cbn.
  - eexists. cbn. rewrite dispatched_cleanupActiveTransition, <- app_assoc.
    reflexivity.
  - apply extends_eq, dispatched_cleanupActiveTransition.
Qed.

Lemma dispatched_setupTransitionCompletion (el : Z) (v : string) (w : World) :
  dispatched (setupTransitionCompletion el v w) = dispatched w.
Proof.
  unfold setupTransitionCompletion, addEventListener.
  destruct (transitions w); [|reflexivity].
  cbn. destruct (existsb _ _); reflexivity.
Qed.

Lemma extends_performTransition (i j : Z) (w : World) :
  extends w (performTransition i j w).
Proof.
  apply extends_trans with (cleanupActiveTransition w);
    [apply extends_eq, dispatched_cleanupActiveTransition|].
  unfold performTransition.
  destruct (transitions (cleanupActiveTransition w)) as [t|];
    [|apply extends_refl].
  destruct (slideAt (slidesLength t) j); [|apply extends_refl].
  unfold transitionInstant, transitionCrossfadeClassic,
    transitionCrossfadeStaged, transitionCrossfadeDynamic,
    applyCrossfadeTransition.
  repeat match goal with |- context [if ?b then _ else _] => destruct b end;
    first [ apply extends_onTransitionComplete
          | apply extends_eq, dispatched_setupTransitionCompletion ].
Qed.

(** [updateSlideVisibility] dispatches [vvjs:slideChanging] first, with the
    tracked index as [fromIndex] and the stored index as [toIndex]. *)
Lemma dispatched_updateSlideVisibility (w : World) :
  exists rest,
    dispatched (updateSlideVisibility w)
    = dispatched w
        ++ SlideChanging (currentSlideIndex (core w)) (slideIndex (core w))
        :: rest.
Proof.
  unfold updateSlideVisibility.
  set (w1 := dispatchEvent _ w).
  set (w2 := match transitions w1 with Some _ => _ | None => _ end).
  assert (X : extends w1 w2).
  { subst w2. destruct (transitions w1) as [t|]; [|apply extends_refl].
    destruct (Z.eqb _ 0); [apply extends_refl|apply extends_performTransition]. }
  destruct X as [l E].
  destruct (String.eqb _ _); cbn; rewrite E; subst w1; cbn;
    rewrite <- !app_assoc; cbn; eexists; reflexivity.
Qed.

Lemma dispatched_stopAutoSlide (w : World) :
  dispatched (stopAutoSlide w)
  = dispatched w
      ++ match autoSlideIntervalId (core w) with
         | Some _ => [AutoSlideStopped]
         | None => []
         end.
Proof.
  unfold stopAutoSlide.
  destruct (autoSlideIntervalId (core w)); cbn; [reflexivity|].
  now rewrite app_nil_r.
Qed.

Lemma dispatched_startAutoSlide (w : World) :
  dispatched (startAutoSlide w)
  = dispatched w
      ++ match autoSlideIntervalId (core w) with
         | Some _ => [AutoSlideStopped]
         | None => []
         end
      ++ if mayAutoplay (core w) then [AutoSlideStarted] else [].
Proof.
  unfold startAutoSlide, mayAutoplay.
  rewrite core_stopAutoSlide. cbn.
  destruct (_ && _); cbn; rewrite dispatched_stopAutoSlide.
  - now rewrite app_assoc.
  - now rewrite app_nil_r.
Qed.

(* ------------------------------------------------------------------ *)
(** ** Reachable worlds and the core invariant *)

Lemma reachable_run (w : World) (l : list Action) :
  reachable w -> reachable (run w l).
Proof.
  revert w. induction l as [|a l IH]; intros w R; cbn; [exact R|].
  apply IH. now constructor.
Qed.

Lemma rem_succ_range (i t : Z) : 1 <= i <= t -> 1 <= JS.rem i t + 1 <= t.
Proof.
  intro H. unfold JS.rem.
  pose proof (Z.rem_bound_pos i t ltac:(lia) ltac:(lia)). lia.
Qed.

Lemma coreInv_step (w : World) (a : Action) :
  coreInv (core w) ->
  coreInv (core (step w a))
  /\ totalSlides (core (step w a)) = totalSlides (core w).
Proof.
  unfold coreInv. intros [R C].
  assert (N : coreInv (core (nextSlide w))
              /\ totalSlides (core (nextSlide w)) = totalSlides (core w)).
  { unfold coreInv. rewrite core_nextSlide. cbn zeta.
    destruct (loopingEnabled (core w)); cbn.
    - pose proof (rem_succ_range _ _ R). lia.
    - destruct (Z.ltb_spec (slideIndex (core w)) (totalSlides (core w)));
        cbn; lia. }
  destruct a; cbn [step].
  - exact N.
  - rewrite core_prevSlide. cbn zeta.
    destruct (loopingEnabled (core w)); cbn.
    + destruct (Z.eqb_spec (slideIndex (core w)) 1); lia.
    + destruct (Z.ltb_spec 1 (slideIndex (core w))); cbn; lia.
  - rewrite core_goToSlide.
    destruct (Z.leb_spec 1 n); destruct (Z.leb_spec n (totalSlides (core w)));
      cbn; lia.
  - rewrite core_togglePause. cbn. lia.
  - rewrite core_setVisibility. cbn. lia.
  - rewrite core_startAutoSlide. cbn. lia.
  - rewrite core_stopAutoSlide. cbn. lia.
  - rewrite core_handleReducedMotion. lia.
  - destruct (existsb _ _); [exact N | lia].
  - rewrite core_fireTimeout. lia.
  - rewrite core_fireTransitionEnd. lia.
Qed.

Lemma core_newSlideshowCore (d : Dataset) (n : Z) (h : positive) :
  core (newSlideshowCore d n h)
  = let i := Z.max 1 (Z.min (JS.orNum (JS.parseInt (data_startIndex d)) 1) n) in
    mkCore (JS.orNum (JS.parseInt (data_time d)) 5000) n
           (JS.attrIsNot (data_enableLooping d) "false") i i
           (JS.attrIs (data_static d) "true") true None.
Proof.
  unfold newSlideshowCore, adjustHeight.
  now rewrite core_updateSlideVisibility.
Qed.

Lemma core_newSlideshowTransitions (d : Dataset) (rm : bool) (w : World) :
  core (newSlideshowTransitions d rm w) = core w.
Proof.
  unfold newSlideshowTransitions. cbn zeta.
  destruct (Z.eqb _ 0); [reflexivity|].
  destruct rm; [rewrite core_handleReducedMotion|]; reflexivity.
Qed.

Lemma coreInv_init (d : Dataset) (n : Z) (h : positive) (rm vis : bool)
  (dl : option Z) :
  1 <= n ->
  coreInv (core (initSlideshow d n h rm vis dl))
  /\ totalSlides (core (initSlideshow d n h rm vis dl)) = n.
Proof.
  intro Hn. unfold initSlideshow. cbn zeta.
  set (w2 := newSlideshowTransitions d rm (newSlideshowCore d n h)).
  assert (I2 : coreInv (core w2) /\ totalSlides (core w2) = n).
  { subst w2. rewrite core_newSlideshowTransitions, core_newSlideshowCore.
    unfold coreInv. cbn. lia. }
  set (w3 := applyReducedMotion rm w2).
  assert (I3 : coreInv (core w3) /\ totalSlides (core w3) = n).
  { subst w3. unfold applyReducedMotion. destruct rm; [|exact I2].
    rewrite core_stopAutoSlide. unfold coreInv in *. cbn. exact I2. }
  set (w4 := setVisibility vis w3).
  assert (I4 : coreInv (core w4) /\ totalSlides (core w4) = n).
  { destruct (coreInv_step w3 (CallSetVisibility vis) (proj1 I3)) as [A B].
    split; [exact A|]. cbn [step] in B. subst w4. rewrite B. apply I3. }
  set (w5 := match dl with Some _ => _ | None => _ end).
  assert (I5 : coreInv (core w5) /\ totalSlides (core w5) = n).
  { subst w5. destruct dl as [k|]; [|exact I4].
    destruct (_ && _); [|exact I4].
    destruct (coreInv_step w4 (CallGoToSlide k) (proj1 I4)) as [A B].
    split; [exact A|]. cbn [step] in B. rewrite B. apply I4. }
  destruct (coreInv_step w5 CallStartAutoSlide (proj1 I5)) as [A B].
  split; [exact A|]. cbn [step] in B. rewrite B. apply I5.
Qed.

Lemma reachable_coreInv (w : World) :
  reachable w -> coreInv (core w) /\ 1 <= totalSlides (core w).
Proof.
  induction 1 as [d n h rm vis dl Hn | w a R [IH T]].
  - destruct (coreInv_init d n h rm vis dl Hn) as [A B]. split; [exact A|lia].
  - destruct (coreInv_step w a IH) as [A B]. split; [exact A|lia].
Qed.

(* ------------------------------------------------------------------ *)
(** ** Index state machine *)

(** C3: with at least one slide, the constructor clamps the configured
    starting index into [1, total], and after any sequence of navigation
    calls, pause and visibility changes, autoplay ticks and transition
    callbacks the stored index is still within [1, total], with looping on
    or off. *)
Theorem C3_index_stays_in_range (d : Dataset) (n : Z) (h : positive)
  (rm vis : bool) (dl : option Z) (acts : list Action) :
  1 <= n ->
  let start := JS.orNum (JS.parseInt (data_startIndex d)) 1 in
  let w0 := newSlideshowCore d n h in
  let w := run (initSlideshow d n h rm vis dl) acts in
  slideIndex (core w0) = Z.max 1 (Z.min start n)
  /\ 1 <= slideIndex (core w0) <= n
  /\ (1 <= start <= n -> slideIndex (core w0) = start)
  /\ totalSlides (core w) = n
  /\ 1 <= slideIndex (core w) <= totalSlides (core w).
Proof.
  intros Hn start w0 w.
  assert (E0 : slideIndex (core w0) = Z.max 1 (Z.min start n)).
  { subst w0. now rewrite core_newSlideshowCore. }
  split; [exact E0|]. split; [lia|]. split; [lia|].
  subst w. clear E0 w0 start.
  destruct (coreInv_init d n h rm vis dl Hn) as [I T].
  revert I T. generalize (initSlideshow d n h rm vis dl).
  induction acts as [|a acts IH]; intros w I T; cbn [run fold_left].
  - split; [exact T | apply I].
  - destruct (coreInv_step w a I) as [I' T'].
    apply IH; [exact I' | lia].
Qed.

Lemma C3_index_stays_in_range_witness :
  1 <= 3
  /\ 1 <= slideIndex
            (core (run noLoopLastWorld
                       [CallNextSlide; CallPrevSlide; CallGoToSlide 7;
                        IntervalFires 2%positive]))
       <= 3.
Proof.
  split; [lia|].
  pose proof (C3_index_stays_in_range noLoopLast 3 1%positive false true None
                [CallNextSlide; CallPrevSlide; CallGoToSlide 7;
                 IntervalFires 2%positive]
                ltac:(lia)) as H.
  cbv zeta in H. destruct H as (_ & _ & _ & T & R).
  rewrite T in R. exact R.
Defined.

(** C4: [goToSlide(n)] with n in [1, total] stores exactly n; with n out of
    range it returns the world it was given, unchanged in every field. *)
Theorem C4_goToSlide_sets_or_ignores (w : World) (n : Z) :
  (1 <= n <= totalSlides (core w) -> slideIndex (core (goToSlide n w)) = n)
  /\ (~ (1 <= n <= totalSlides (core w)) -> goToSlide n w = w).
Proof.
  split; intro H.
  - rewrite core_goToSlide.
    destruct (Z.leb_spec 1 n); destruct (Z.leb_spec n (totalSlides (core w)));
      cbn; lia.
  - unfold goToSlide.
    destruct (Z.leb_spec 1 n); destruct (Z.leb_spec n (totalSlides (core w)));
      cbn; try reflexivity; lia.
Qed.

Lemma C4_goToSlide_sets_or_ignores_witness :
  slideIndex (core (goToSlide 2 plainWorld)) = 2
  /\ goToSlide 7 plainWorld = plainWorld.
Proof.
  split.
  - apply (proj1 (C4_goToSlide_sets_or_ignores plainWorld 2)). cbn. lia.
  - apply (proj2 (C4_goToSlide_sets_or_ignores plainWorld 7)). cbn. lia.
Defined.

(** Iterating [nextSlide] from index 1 with looping on walks through
    2, 3, ..., total. *)
Lemma nextSlide_iter_looping (w : World) (k : nat) :
  loopingEnabled (core w) = true ->
  slideIndex (core w) = 1 ->
  Z.of_nat k < totalSlides (core w) ->
  let w' := Nat.iter k nextSlide w in
  slideIndex (core w') = 1 + Z.of_nat k
  /\ loopingEnabled (core w') = true
  /\ totalSlides (core w') = totalSlides (core w).
Proof.
  intros L S1. induction k as [|k IH]; intro Hk; cbn zeta.
  - cbn. repeat split; [lia | exact L].
  - destruct (IH ltac:(lia)) as (A & B & C).
    cbn [Nat.iter nat_rect]. rewrite core_nextSlide. cbn zeta.
    unfold Nat.iter in B, A, C. rewrite B.
    cbn [slideIndex loopingEnabled totalSlides setCurrentSlideIndex
         setSlideIndex].
    rewrite A, C.
    unfold JS.rem. rewrite Z.rem_small by lia.
    split; [lia|]. split; [exact B | reflexivity].
Qed.

(** C5: with looping on, [nextSlide] stores (index % total) + 1; from the
    last slide that is 1; and total calls starting at index 1 come back
    to 1. *)
Theorem C5_nextSlide_wraps (w : World) :
  loopingEnabled (core w) = true ->
  1 <= totalSlides (core w) ->
  slideIndex (core (nextSlide w))
  = JS.rem (slideIndex (core w)) (totalSlides (core w)) + 1
  /\ (slideIndex (core w) = totalSlides (core w) ->
      slideIndex (core (nextSlide w)) = 1)
  /\ (slideIndex (core w) = 1 ->
      slideIndex
        (core (Nat.iter (Z.to_nat (totalSlides (core w))) nextSlide w)) = 1).
Proof.
  intros L T.
  assert (E : forall v, loopingEnabled (core v) = true ->
              slideIndex (core (nextSlide v))
              = JS.rem (slideIndex (core v)) (totalSlides (core v)) + 1).
  { intros v Lv. rewrite core_nextSlide. cbn zeta. now rewrite Lv. }
  split; [now apply E|]. split.
  - intro Last. rewrite E by exact L. rewrite Last. unfold JS.rem.
    rewrite Z.rem_same by lia. reflexivity.
  - intro First.
    destruct (Z.to_nat (totalSlides (core w))) as [|k] eqn:K; [lia|].
    destruct (nextSlide_iter_looping w k L First ltac:(lia)) as (A & B & C).
    cbn [Nat.iter nat_rect]. unfold Nat.iter in A, B, C.
    rewrite E by exact B. rewrite A, C. unfold JS.rem.
    replace (1 + Z.of_nat k) with (totalSlides (core w)) by lia.
    rewrite Z.rem_same by lia. reflexivity.
Qed.

Lemma C5_nextSlide_wraps_witness :
  slideIndex (core (Nat.iter 3 nextSlide plainWorld)) = 1.
Proof.
  exact (proj2 (proj2
    (C5_nextSlide_wraps plainWorld eq_refl ltac:(cbn; lia))) eq_refl).
Defined.

Lemma intervals_stopAutoSlide (w : World) :
  intervals (stopAutoSlide w)
  = match autoSlideIntervalId (core w) with
    | Some h => filter (fun k => negb (Pos.eqb k h)) (intervals w)
    | None => intervals w
    end.
Proof. unfold stopAutoSlide. now destruct (autoSlideIntervalId (core w)). Qed.

Lemma not_in_filter_neq (h : positive) (l : list positive) :
  ~ In h (filter (fun k => negb (Pos.eqb k h)) l).
Proof.
  intro H. apply filter_In in H. destruct H as [_ H].
  now rewrite Pos.eqb_refl in H.
Qed.

(** C6: with looping off, [nextSlide] on the last slide keeps the index,
    dispatches neither [vvjs:slideChanging] nor [vvjs:slideChanged], and
    stops autoplay (the handle is forgotten and its interval cleared);
    [prevSlide] on the first slide changes nothing at all. *)
Theorem C6_no_looping_boundaries (w : World) :
  loopingEnabled (core w) = false ->
  (slideIndex (core w) = totalSlides (core w) ->
   let w' := nextSlide w in
   slideIndex (core w') = slideIndex (core w)
   /\ w' = stopAutoSlide w
   /\ (forall e, In e (newEvents w w') -> e = AutoSlideStopped)
   /\ autoSlideIntervalId (core w') = None
   /\ (forall h, autoSlideIntervalId (core w) = Some h -> ~ In h (intervals w')))
  /\ (slideIndex (core w) = 1 ->
      prevSlide w = w /\ slideIndex (core (prevSlide w)) = 1).
Proof.
  intro L. split.
  - intros Last w'.
    assert (E : w' = stopAutoSlide w).
    { subst w'. unfold nextSlide. cbn zeta. rewrite L, Last, Z.ltb_irrefl.
      reflexivity. }
    rewrite E, core_stopAutoSlide. cbn.
    split; [reflexivity|]. split; [reflexivity|]. split; [|split].
    + intros e He.
      rewrite (newEvents_app _ _ _ (dispatched_stopAutoSlide w)) in He.
      destruct (autoSlideIntervalId (core w)); cbn in He; [|tauto].
      destruct He as [He|[]]. now symmetry.
    + reflexivity.
    + intros h Hh. rewrite intervals_stopAutoSlide, Hh.
      apply not_in_filter_neq.
  - intro First.
    assert (E : prevSlide w = w).
    { unfold prevSlide. cbn zeta. rewrite L, First. reflexivity. }
    rewrite E. split; [reflexivity | exact First].
Qed.

Lemma C6_no_looping_boundaries_witness :
  slideIndex (core (nextSlide noLoopLastWorld)) = 3
  /\ autoSlideIntervalId (core (nextSlide noLoopLastWorld)) = None.
Proof.
  destruct (proj1 (C6_no_looping_boundaries noLoopLastWorld eq_refl) eq_refl)
    as (A & _ & _ & B & _).
  split; [exact A | exact B].
Defined.

(* ------------------------------------------------------------------ *)
(** ** Visibility and autoplay *)

Lemma sameTransitionState_stopAutoSlide (w : World) :
  sameTransitionState w (stopAutoSlide w).
Proof.
  unfold stopAutoSlide, sameTransitionState.
  destruct (autoSlideIntervalId (core w)); cbn; tauto.
Qed.

Lemma sameTransitionState_startAutoSlide (w : World) :
  sameTransitionState w (startAutoSlide w).
Proof.
  pose proof (sameTransitionState_stopAutoSlide w) as H.
  unfold startAutoSlide, sameTransitionState in *.
  destruct (_ && _); cbn; exact H.
Qed.

Lemma sameTransitionState_setVisibility (v : bool) (w : World) :
  sameTransitionState w (setVisibility v w).
Proof.
  unfold setVisibility.
  destruct (_ && _);
    [ apply (sameTransitionState_startAutoSlide (setCore _ w))
    | apply (sameTransitionState_stopAutoSlide (setCore _ w)) ].
Qed.

Lemma dispatched_setVisibility (v : bool) (w : World) :
  forall e, In e (newEvents w (setVisibility v w)) ->
            e = AutoSlideStopped \/ e = AutoSlideStarted.
Proof.
  intros e He. unfold setVisibility in He.
  destruct (_ && _).
  - rewrite (newEvents_app w _ _ (dispatched_startAutoSlide (setCore _ w))) in He.
    apply in_app_or in He. destruct He as [He|He].
    + destruct (autoSlideIntervalId _); cbn in He; [|tauto].
      destruct He as [He|[]]. now left.
    + destruct (mayAutoplay _); cbn in He; [|tauto].
      destruct He as [He|[]]. now right.
  - rewrite (newEvents_app w _ _ (dispatched_stopAutoSlide (setCore _ w))) in He.
    destruct (autoSlideIntervalId _); cbn in He; [|tauto].
    destruct He as [He|[]]. now left.
Qed.

(** C9: [setVisibility(v)] stores v in the visible flag and restarts or
    stops the autoplay interval; the interval is armed afterwards only if v
    is true and the slideshow is not paused, and is stopped otherwise.  The
    stored and tracked slide index, the paused flag, the configuration and
    the whole transition state are left as they were; the only events it
    dispatches are autoplay-started and autoplay-stopped. *)
Theorem C9_setVisibility_frame (v : bool) (w : World) :
  let w' := setVisibility v w in
  isVisible (core w') = v
  /\ slideIndex (core w') = slideIndex (core w)
  /\ currentSlideIndex (core w') = currentSlideIndex (core w)
  /\ isPaused (core w') = isPaused (core w)
  /\ totalSlides (core w') = totalSlides (core w)
  /\ loopingEnabled (core w') = loopingEnabled (core w)
  /\ slideTime (core w') = slideTime (core w)
  /\ sameTransitionState w w'
  /\ (forall e, In e (newEvents w w') ->
                e = AutoSlideStopped \/ e = AutoSlideStarted)
  /\ (forall h, autoSlideIntervalId (core w') = Some h ->
                v = true /\ isPaused (core w) = false)
  /\ (v = false \/ isPaused (core w) = true ->
      autoSlideIntervalId (core w') = None
      /\ forall h, autoSlideIntervalId (core w) = Some h ->
                   ~ In h (intervals w')).
Proof.
  intro w'. subst w'. rewrite core_setVisibility. cbn.
  repeat (split; [reflexivity|]).
  split; [apply sameTransitionState_setVisibility|].
  split; [apply dispatched_setVisibility|].
  unfold mayAutoplay. cbn. split.
  - intros h Hh. destruct v; destruct (isPaused (core w));
      rewrite ?andb_false_r in Hh; cbn in Hh; try discriminate; now split.
  - intro H.
    assert (E : v && negb (isPaused (core w)) = false)
      by (destruct H as [-> | ->]; [reflexivity | apply andb_false_r]).
    split.
    + rewrite <- andb_assoc, (andb_comm (negb _) v), E, andb_false_r.
      reflexivity.
    + intros h Hh. unfold setVisibility. cbn. rewrite E.
      rewrite intervals_stopAutoSlide. cbn. rewrite Hh.
      apply not_in_filter_neq.
Qed.

Lemma C9_setVisibility_frame_witness :
  autoSlideIntervalId (core (setVisibility false plainWorld)) = None.
Proof.
  destruct (C9_setVisibility_frame false plainWorld)
    as (_ & _ & _ & _ & _ & _ & _ & _ & _ & _ & H).
  exact (proj1 (H (or_introl eq_refl))).
Defined.

(* ------------------------------------------------------------------ *)
(** ** Navigating to the current slide *)

Lemma setCore_same (w : World) (c : SlideshowCore) : c = core w -> setCore c w = w.
Proof. intros ->. now destruct w. Qed.

Lemma setSlideIndex_same (c : SlideshowCore) (i : Z) :
  i = slideIndex c -> setSlideIndex i c = c.
Proof. intros ->. now destruct c. Qed.

(** C10: in any reachable world, [goToSlide] to the slide already shown
    takes the ordinary navigation path: it runs [updateSlideVisibility],
    whose first dispatch is a [vvjs:slideChanging] with fromIndex = toIndex
    = n, and the stored index stays n. *)
Theorem C10_goToSlide_current_is_navigation (w : World) (n : Z) :
  reachable w ->
  n = slideIndex (core w) ->
  let w' := goToSlide n w in
  w' = updateSlideVisibility w
  /\ (exists rest, dispatched w' = dispatched w ++ SlideChanging n n :: rest)
  /\ newEvents w w' <> []
  /\ slideIndex (core w') = n.
Proof.
  intros R En w'.
  destruct (reachable_coreInv w R) as [[Rg Cur] _].
  assert (E : w' = updateSlideVisibility w).
  { subst w'. unfold goToSlide, adjustHeight.
    destruct (Z.leb_spec 1 n); destruct (Z.leb_spec n (totalSlides (core w)));
      try lia.
    cbn [andb]. now rewrite setSlideIndex_same, setCore_same. }
  destruct (dispatched_updateSlideVisibility w) as [rest D].
  rewrite Cur, <- En in D. rewrite E.
  split; [reflexivity|]. split; [now exists rest|]. split.
  - rewrite (newEvents_app _ _ _ D). discriminate.
  - rewrite core_updateSlideVisibility. cbn. now symmetry.
Qed.

Lemma C10_goToSlide_current_is_navigation_witness :
  goToSlide 1 plainWorld = updateSlideVisibility plainWorld.
Proof.
  exact (proj1 (C10_goToSlide_current_is_navigation plainWorld 1
                  (reach_init plain 3 1%positive false true None ltac:(lia))
                  eq_refl)).
Defined.

(* ------------------------------------------------------------------ *)
(** ** Swipe classification *)

Lemma Qltb_lt (x y : Q) : Qltb x y = true <-> (x < y)%Q.
Proof.
  unfold Qltb. rewrite negb_true_iff. split.
  - intro H. apply Qnot_le_lt. intro L.
    apply Qle_bool_iff in L. congruence.
  - intro H. destruct (Qle_bool y x) eqn:E; [|reflexivity].
    apply Qle_bool_iff in E. exfalso. exact (Qlt_not_le _ _ H E).
Qed.

Lemma Qltb_false_neg (x : Q) : (x < 0)%Q -> Qltb 0 x = false.
Proof.
  intro H. destruct (Qltb 0 x) eqn:E; [|reflexivity].
  apply Qltb_lt in E. exfalso.
  exact (Qlt_irrefl _ (Qlt_trans _ _ _ E H)).
Qed.

Lemma isSwipe_iff (ev : SlideshowEvents) :
  isSwipe ev = true
  <-> (dragThreshold ev < Qabs (swipeDeltaX ev))%Q
      /\ (swipeDeltaY ev < dragThreshold ev * (3 # 2))%Q.
Proof.
  unfold isSwipe. rewrite andb_true_iff, !Qltb_lt. reflexivity.
Qed.

(** C8: the gesture is a swipe exactly when |deltaX| is above the drag
    threshold and |deltaY| is below 1.5 times the threshold.  A swipe with
    negative deltaX calls [nextSlide], one with positive deltaX calls
    [prevSlide], and both then call [startAutoSlide] (and dispatch
    [vvjs:swipe]); anything else leaves the world alone.  With swipe
    enabled, a non-mouse pointer-up (or a touch-end) runs this test on the
    recorded coordinates; with deltaX = -60, |deltaY| = 5 and threshold 40
    the gesture is a swipe and [nextSlide] is called.  The default
    threshold is 40. *)
Theorem C8_swipe_classification (ev : SlideshowEvents) (w : World) :
  (isSwipe ev = true
   <-> (dragThreshold ev < Qabs (swipeDeltaX ev))%Q
       /\ (swipeDeltaY ev < dragThreshold ev * (3 # 2))%Q)
  /\ (isSwipe ev = true -> (swipeDeltaX ev < 0)%Q ->
      processSwipeGesture ev w
      = dispatchEvent (Swipe false (Qabs (swipeDeltaX ev)))
          (startAutoSlide (nextSlide w)))
  /\ (isSwipe ev = true -> (0 < swipeDeltaX ev)%Q ->
      processSwipeGesture ev w
      = dispatchEvent (Swipe true (Qabs (swipeDeltaX ev)))
          (startAutoSlide (prevSlide w)))
  /\ (isSwipe ev = false -> processSwipeGesture ev w = w)
  /\ (swipeEnabled ev = true ->
      forall x y,
        snd (handlePointerUp false x y (ev, w))
        = processSwipeGesture (setTouchEnd x y ev) w
        /\ snd (handleTouchEnd x y (ev, w))
           = processSwipeGesture (setTouchEnd x y ev) w)
  /\ ((dragThreshold ev == 40)%Q -> (swipeDeltaX ev == -60)%Q ->
      (swipeDeltaY ev == 5)%Q ->
      isSwipe ev = true
      /\ processSwipeGesture ev w
         = dispatchEvent (Swipe false (Qabs (swipeDeltaX ev)))
             (startAutoSlide (nextSlide w)))
  /\ forall d, (dragThreshold (newSlideshowEvents d) == 40)%Q.
Proof.
  assert (Neg : isSwipe ev = true -> (swipeDeltaX ev < 0)%Q ->
                processSwipeGesture ev w
                = dispatchEvent (Swipe false (Qabs (swipeDeltaX ev)))
                    (startAutoSlide (nextSlide w))).
  { intros S N. unfold processSwipeGesture. cbn zeta.
    now rewrite S, (Qltb_false_neg _ N). }
  split; [apply isSwipe_iff|]. split; [exact Neg|]. split; [|split; [|split]].
  - intros S P. unfold processSwipeGesture. cbn zeta.
    apply Qltb_lt in P. now rewrite S, P.
  - intro S. unfold processSwipeGesture. cbn zeta. now rewrite S.
  - intros En x y. unfold handlePointerUp, handleTouchEnd.
    rewrite En. cbn. split; reflexivity.
  - split.
    + intros T X Y.
      assert (S : isSwipe ev = true).
      { apply isSwipe_iff. rewrite T, X, Y. split; reflexivity. }
      split; [exact S|]. apply Neg; [exact S|]. rewrite X. reflexivity.
    + intro d. reflexivity.
Qed.

Lemma C8_swipe_classification_witness :
  isSwipe swipeLeft = true
  /\ processSwipeGesture swipeLeft plainWorld
     = dispatchEvent (Swipe false (Qabs (swipeDeltaX swipeLeft)))
         (startAutoSlide (nextSlide plainWorld)).
Proof.
  destruct (C8_swipe_classification swipeLeft plainWorld)
    as (_ & _ & _ & _ & _ & H & _).
  apply H; reflexivity.
Defined.

(* ------------------------------------------------------------------ *)
(** ** Autoplay interval of zero *)

(** [startAutoSlide] itself does refuse a stored interval of zero. *)
Lemma startAutoSlide_zero_slideTime (w : World) :
  slideTime (core w) <= 0 ->
  autoSlideIntervalId (core (startAutoSlide w)) = None.
Proof.
  intro H. rewrite core_startAutoSlide. unfold mayAutoplay.
  destruct (Z.ltb_spec 0 (slideTime (core w))); [lia | reflexivity].
Qed.

(** But the constructor never stores zero: a configured 0 is falsy and is
    replaced by the 5000 ms default. *)
Lemma newSlideshowCore_slideTime_positive_default (d : Dataset) (n : Z)
  (h : positive) :
  JS.parseInt (data_time d) = Some 0 ->
  slideTime (core (newSlideshowCore d n h)) = 5000.
Proof. intro E. rewrite core_newSlideshowCore. cbn. now rewrite E. Qed.

(** C2, evaluated on the code: with [data-time="0"], not paused and
    visible, the engine stores a 5000 ms interval, [startAutoSlide] arms
    the repeating timer, and its tick advances from slide 1 to slide 2. *)
Theorem C2_zero_interval_autoplays :
  JS.parseInt (data_time timeZero) = Some 0
  /\ slideTime (core timeZeroWorld) = 5000
  /\ isPaused (core timeZeroWorld) = false
  /\ isVisible (core timeZeroWorld) = true
  /\ autoSlideIntervalId (core timeZeroWorld) = Some 2%positive
  /\ intervals timeZeroWorld = [2%positive]
  /\ slideIndex (core timeZeroWorld) = 1
  /\ slideIndex (core (step timeZeroWorld (IntervalFires 2%positive))) = 2.
Proof. repeat split. Qed.

(* ------------------------------------------------------------------ *)
(** ** The transition job invariant *)

Lemma setActiveTransition_same (t : SlideshowTransitions) :
  activeTransition t = None -> setActiveTransition None t = t.
Proof. intro E. destruct t; cbn in *; now subst. Qed.

Lemma sameListener_refl (el : Z) (cl : Closure) : sameListener el cl (el, cl) = true.
Proof.
  unfold sameListener, closure_eqb. cbn.
  now rewrite !Z.eqb_refl, Nat.eqb_refl.
Qed.

Lemma cleanupActiveTransition_inv (w : World) (t : SlideshowTransitions) :
  transInv w -> transitions w = Some t ->
  cleanupActiveTransition w = quiesce t w.
Proof.
  intros [_ A _] T. unfold activeOf in A. rewrite T in A.
  unfold cleanupActiveTransition, quiesce. rewrite T.
  destruct (activeTransition t) as [a|] eqn:Ea.
  - destruct A as ([d Ht] & Hl & _ & _).
    unfold removeEventListener, clearTimeout. cbn. rewrite Ht, Hl. cbn.
    now rewrite Pos.eqb_refl, sameListener_refl.
  - destruct A as [Ht Hl]. rewrite (setActiveTransition_same _ Ea).
    destruct w; cbn in *; now subst.
Qed.

Lemma cleanupActiveTransition_quiesce (t : SlideshowTransitions) (w : World) :
  cleanupActiveTransition (quiesce t w) = quiesce t w.
Proof. reflexivity. Qed.

Lemma onTransitionComplete_quiesce (t : SlideshowTransitions) (w : World) :
  onTransitionComplete (quiesce t w)
  = announce (setActiveTransition None t) (quiesce t w).
Proof. reflexivity. Qed.

Lemma announce_transitionType (t t' : SlideshowTransitions) (w : World) :
  transitionType t = transitionType t' -> announce t w = announce t' w.
Proof. intro E. unfold announce. now rewrite E. Qed.

Lemma onTransitionComplete_inv (w : World) (t : SlideshowTransitions) :
  transInv w -> transitions w = Some t ->
  onTransitionComplete w = announce t (quiesce t w).
Proof.
  intros I T. unfold onTransitionComplete.
  rewrite (cleanupActiveTransition_inv w t I T). reflexivity.
Qed.

Lemma setupTransitionCompletion_quiesce (t : SlideshowTransitions) (el : Z)
  (v : string) (w : World) :
  setupTransitionCompletion el v (quiesce t w) = arm t el v (quiesce t w).
Proof. reflexivity. Qed.

Lemma performTransition_route (i j : Z) (w : World) :
  performTransition i j w
  = let w1 := cleanupActiveTransition w in
    match transitions w1 with
    | Some t =>
        match slideAt (slidesLength t) j with
        | Some incoming =>
            match variantOf (transitionType t) with
            | Some v => setupTransitionCompletion incoming v w1
            | None => onTransitionComplete w1
            end
        | None => w1
        end
    | None => w1
    end.
Proof.
  unfold performTransition. cbn zeta.
  destruct (transitions (cleanupActiveTransition w)) as [t|]; [|reflexivity].
  destruct (slideAt (slidesLength t) j); [|reflexivity].
  unfold variantOf, transitionInstant, transitionCrossfadeClassic,
    transitionCrossfadeStaged, transitionCrossfadeDynamic,
    applyCrossfadeTransition.
  repeat match goal with |- context [if ?b then _ else _] => destruct b end;
    reflexivity.
Qed.

(** [performTransition] on a world that satisfies the invariant. *)
Lemma performTransition_inv (i j : Z) (w : World) (t : SlideshowTransitions) :
  transInv w -> transitions w = Some t ->
  performTransition i j w
  = match slideAt (slidesLength t) j with
    | Some incoming =>
        match variantOf (transitionType t) with
        | Some v => arm t incoming v (quiesce t w)
        | None => announce t (quiesce t w)
        end
    | None => quiesce t w
    end.
Proof.
  intros I T. rewrite performTransition_route. cbn zeta.
  rewrite (cleanupActiveTransition_inv w t I T).
  cbn [transitions quiesce slidesLength setActiveTransition transitionType].
  destruct (slideAt (slidesLength t) j); [|reflexivity].
  destruct (variantOf (transitionType t)); reflexivity.
Qed.

(** The closure of the job in flight, run by either of its two triggers. *)
Lemma cleanup_inv (w : World) (t : SlideshowTransitions) (a : ActiveTransition) :
  transInv w -> transitions w = Some t -> activeTransition t = Some a ->
  cleanup (at_listener a) w = completeJob t a w
  /\ cleanup (at_listener a) (clearTimeout (at_timeout a) w) = completeJob t a w.
Proof.
  intros [_ A _] T Ea. unfold activeOf in A. rewrite T, Ea in A.
  destruct A as ([d Ht] & Hl & He & Hn & _).
  destruct w as [dt c tr iv tos ls en nh nj dp]. cbn in T, Ht, Hl, Hn.
  subst tr tos ls.
  unfold cleanup, completeJob, onTransitionComplete, cleanupActiveTransition,
    removeEventListener, clearTimeout, coreOnTransitionComplete,
    updateAccessibilityAttributes, adjustHeight, announce, quiesce.
  cbn -[sameListener]. rewrite Hn, Ea.
  cbn -[sameListener]. rewrite Ea.
  cbn -[sameListener]. rewrite He, Pos.eqb_refl, sameListener_refl.
  cbn. split; reflexivity.
Qed.

(** *** The invariant is kept by every task of the event loop *)

Lemma transInv_ext (w w' : World) :
  sameTransitionState w w' ->
  totalSlides (core w') = totalSlides (core w) ->
  transInv w -> transInv w'.
Proof.
  intros (D & T & TO & L & E & N) S [A B C].
  constructor.
  - rewrite T, S, D. exact A.
  - unfold activeOf in *. rewrite T, TO, L, E, N. exact B.
  - rewrite E, N. exact C.
Qed.

Lemma existsb_fresh (n : nat) (l : list nat) :
  (forall j, In j l -> (j < n)%nat) -> existsb (Nat.eqb n) l = false.
Proof.
  intro H. destruct (existsb (Nat.eqb n) l) eqn:E; [|reflexivity].
  apply existsb_exists in E. destruct E as (j & Hj & Ej).
  apply Nat.eqb_eq in Ej. subst j. specialize (H n Hj). lia.
Qed.

Lemma transInv_quiesce (w : World) (t : SlideshowTransitions) :
  transInv w -> transitions w = Some t -> transInv (quiesce t w).
Proof.
  intros [(t' & T' & S & K) _ C] T. rewrite T in T'. injection T' as <-.
  constructor; cbn.
  - exists (setActiveTransition None t). now destruct t.
  - now split.
  - exact C.
Qed.

Lemma transInv_arm (w : World) (t : SlideshowTransitions) (el : Z) (v : string) :
  transInv w -> transitions w = Some t -> transInv (arm t el v (quiesce t w)).
Proof.
  intros [(t' & T' & S & K) _ C] T. rewrite T in T'. injection T' as <-.
  constructor; cbn.
  - eexists. split; [reflexivity|]. now destruct t.
  - split; [eexists; reflexivity|]. split; [reflexivity|].
    split; [reflexivity|]. split; [now apply existsb_fresh | lia].
  - intros j Hj. specialize (C j Hj). lia.
Qed.

Lemma transInv_announce (w : World) (t : SlideshowTransitions) :
  transInv w -> transInv (announce t w).
Proof.
  apply transInv_ext; [|reflexivity]. unfold sameTransitionState. cbn. tauto.
Qed.

Lemma transInv_completeJob (w : World) (t : SlideshowTransitions)
  (a : ActiveTransition) :
  transInv w -> transitions w = Some t -> activeTransition t = Some a ->
  transInv (completeJob t a w).
Proof.
  intros [(t' & T' & S & K) A C] T Ea. rewrite T in T'. injection T' as <-.
  unfold activeOf in A. rewrite T, Ea in A.
  destruct A as (_ & _ & _ & _ & Lt).
  apply transInv_announce. constructor; cbn.
  - exists (setActiveTransition None t). now destruct t.
  - now split.
  - intros j Hj. apply in_app_or in Hj. destruct Hj as [Hj|[<-|[]]].
    + now apply C.
    + exact Lt.
Qed.

Lemma transInv_performTransition (i j : Z) (w : World) :
  transInv w -> transInv (performTransition i j w).
Proof.
  intro I. destruct (ti_trans w I) as (t & T & _).
  rewrite (performTransition_inv i j w t I T).
  destruct (slideAt (slidesLength t) j); [|now apply transInv_quiesce].
  destruct (variantOf (transitionType t)).
  - now apply transInv_arm.
  - apply transInv_announce. now apply transInv_quiesce.
Qed.

Lemma fireTimeout_inv (h : positive) (w : World) (t : SlideshowTransitions) :
  transInv w -> transitions w = Some t ->
  fireTimeout h w
  = match activeTransition t with
    | Some a => if Pos.eqb (at_timeout a) h then completeJob t a w else w
    | None => w
    end.
Proof.
  intros I T. pose proof (ti_active w I) as A.
  unfold activeOf in A. rewrite T in A. unfold fireTimeout.
  destruct (activeTransition t) as [a|] eqn:Ea.
  - destruct A as ([d Ht] & _). rewrite Ht. cbn.
    destruct (Pos.eqb_spec (at_timeout a) h) as [<-|].
    + apply (cleanup_inv w t a I T Ea).
    + reflexivity.
  - destruct A as [Ht _]. now rewrite Ht.
Qed.

Lemma fireTransitionEnd_inv (el : Z) (prop : string) (target : Z) (w : World)
  (t : SlideshowTransitions) :
  transInv w -> transitions w = Some t ->
  fireTransitionEnd el prop target w
  = match activeTransition t with
    | Some a => if triggers a (TransitionEnd el prop target)
                then completeJob t a w else w
    | None => w
    end.
Proof.
  intros I T. pose proof (ti_active w I) as A.
  unfold activeOf in A. rewrite T in A. unfold fireTransitionEnd.
  destruct (activeTransition t) as [a|] eqn:Ea.
  - destruct A as (_ & Hl & He & _). rewrite Hl.
    cbn [filter fst triggers].
    destruct (Z.eqb (at_element a) el); [|reflexivity].
    cbn [fold_left fst snd andb]. rewrite Hl.
    cbn [existsb]. rewrite sameListener_refl. cbn [orb].
    unfold listener. rewrite He.
    destruct (_ && _); [|reflexivity].
    apply (cleanup_inv w t a I T Ea).
  - destruct A as [_ Hl]. now rewrite Hl.
Qed.

Lemma transInv_updateSlideVisibility (w : World) :
  transInv w -> transInv (updateSlideVisibility w).
Proof.
  intro I. unfold updateSlideVisibility.
  set (w1 := dispatchEvent _ w).
  assert (I1 : transInv w1).
  { revert I. apply transInv_ext; [|reflexivity].
    unfold sameTransitionState. cbn. tauto. }
  set (w2 := match transitions w1 with Some _ => _ | None => _ end).
  assert (I2 : transInv w2).
  { subst w2. destruct (transitions w1); [|exact I1].
    destruct (Z.eqb _ 0); [exact I1 | now apply transInv_performTransition]. }
  set (w3 := setCore _ w2).
  assert (I3 : transInv w3).
  { revert I2. apply transInv_ext; [|reflexivity].
    unfold sameTransitionState. cbn. tauto. }
  destruct (String.eqb _ _); [|exact I3].
  revert I3. apply transInv_ext; [|reflexivity].
  unfold sameTransitionState. cbn. tauto.
Qed.

Lemma transInv_setSlideIndex (i : Z) (w : World) :
  transInv w -> transInv (setCore (setSlideIndex i (core w)) w).
Proof.
  apply transInv_ext; [|reflexivity]. unfold sameTransitionState. cbn. tauto.
Qed.

Lemma transInv_stopAutoSlide (w : World) : transInv w -> transInv (stopAutoSlide w).
Proof.
  apply transInv_ext; [apply sameTransitionState_stopAutoSlide|].
  now rewrite core_stopAutoSlide.
Qed.

Lemma transInv_startAutoSlide (w : World) : transInv w -> transInv (startAutoSlide w).
Proof.
  apply transInv_ext; [apply sameTransitionState_startAutoSlide|].
  now rewrite core_startAutoSlide.
Qed.

Lemma transInv_nextSlide (w : World) : transInv w -> transInv (nextSlide w).
Proof.
  intro I. unfold nextSlide, adjustHeight. cbn zeta.
  destruct (loopingEnabled (core w)).
  - now apply transInv_updateSlideVisibility, transInv_setSlideIndex.
  - destruct (_ <? _).
    + now apply transInv_updateSlideVisibility, transInv_setSlideIndex.
    + now apply transInv_stopAutoSlide.
Qed.

Lemma transInv_prevSlide (w : World) : transInv w -> transInv (prevSlide w).
Proof.
  intro I. unfold prevSlide, adjustHeight. cbn zeta.
  destruct (loopingEnabled (core w)).
  - now apply transInv_updateSlideVisibility, transInv_setSlideIndex.
  - destruct (_ <? _); [|exact I].
    now apply transInv_updateSlideVisibility, transInv_setSlideIndex.
Qed.

Lemma transInv_goToSlide (n : Z) (w : World) : transInv w -> transInv (goToSlide n w).
Proof.
  intro I. unfold goToSlide, adjustHeight.
  destruct (_ && _); [|exact I].
  now apply transInv_updateSlideVisibility, transInv_setSlideIndex.
Qed.

Lemma transInv_handleReducedMotion (w : World) :
  transInv w -> transInv (handleReducedMotion w).
Proof.
  intros [(t & T & S & K) A C]. unfold handleReducedMotion. rewrite T.
  constructor; cbn.
  - eexists. split; [reflexivity|]. cbn. now split.
  - unfold activeOf in A. rewrite T in A. exact A.
  - exact C.
Qed.

Lemma transInv_step (w : World) (a : Action) : transInv w -> transInv (step w a).
Proof.
  intro I. destruct (ti_trans w I) as (t & T & _).
  destruct a; cbn [step].
  - now apply transInv_nextSlide.
  - now apply transInv_prevSlide.
  - now apply transInv_goToSlide.
  - unfold togglePause. cbn zeta.
    assert (I1 : transInv
                   (dispatchEvent
                      (PauseToggled (negb (isPaused (core w))))
                      (setCore (setIsPaused (negb (isPaused (core w))) (core w)) w))).
    { revert I. apply transInv_ext; [|reflexivity].
      unfold sameTransitionState. cbn. tauto. }
    cbn. destruct (negb _);
      [now apply transInv_stopAutoSlide | now apply transInv_startAutoSlide].
  - revert I. apply transInv_ext; [apply sameTransitionState_setVisibility|].
    now rewrite core_setVisibility.
  - now apply transInv_startAutoSlide.
  - now apply transInv_stopAutoSlide.
  - now apply transInv_handleReducedMotion.
  - destruct (existsb _ _); [now apply transInv_nextSlide | exact I].
  - rewrite (fireTimeout_inv h w t I T).
    destruct (activeTransition t) as [a|] eqn:Ea; [|exact I].
    destruct (Pos.eqb _ _); [now apply transInv_completeJob | exact I].
  - rewrite (fireTransitionEnd_inv element prop target w t I T).
    destruct (activeTransition t) as [a|] eqn:Ea; [|exact I].
    destruct (triggers _ _); [now apply transInv_completeJob | exact I].
Qed.

Lemma newSlideshowCore_fields (d : Dataset) (n : Z) (h : positive) :
  let w := newSlideshowCore d n h in
  dataTransition w = data_transition d /\ transitions w = None
  /\ timeouts w = [] /\ listeners w = [] /\ ended w = [].
Proof.
  unfold newSlideshowCore, updateSlideVisibility, adjustHeight. cbn.
  destruct (String.eqb _ _); cbn; tauto.
Qed.

Lemma transInv_init (d : Dataset) (n : Z) (h : positive) (rm vis : bool)
  (dl : option Z) :
  1 <= n -> transInv (initSlideshow d n h rm vis dl).
Proof.
  intro Hn. unfold initSlideshow. cbn zeta.
  set (w1 := newSlideshowCore d n h).
  destruct (newSlideshowCore_fields d n h) as (D & T & TO & L & E).
  fold w1 in D, T, TO, L, E.
  assert (C1 : totalSlides (core w1) = n)
    by (subst w1; now rewrite core_newSlideshowCore).
  set (w2 := newSlideshowTransitions d rm w1).
  assert (I2 : transInv w2).
  { subst w2. unfold newSlideshowTransitions. cbn zeta.
    cbn [slidesLength]. rewrite C1.
    destruct (Z.eqb_spec n 0) as [|_]; [lia|].
    assert (I : transInv
                  (setTransitions
                     (Some (mkTransitions n (JS.orStr (dataTransition w1) "instant")
                              (JS.orNum (JS.parseInt (data_transitionDuration d)) 600)
                              None None)) w1)).
    { constructor; cbn.
      - eexists. split; [reflexivity|]. cbn. now split.
      - now split.
      - rewrite E. intros j []. }
    destruct rm; [now apply transInv_handleReducedMotion | exact I]. }
  set (w3 := applyReducedMotion rm w2).
  assert (I3 : transInv w3).
  { subst w3. unfold applyReducedMotion. destruct rm; [|exact I2].
    apply transInv_stopAutoSlide. revert I2.
    apply transInv_ext; [|reflexivity]. unfold sameTransitionState. cbn. tauto. }
  set (w4 := setVisibility vis w3).
  assert (I4 : transInv w4) by apply (transInv_step w3 (CallSetVisibility vis) I3).
  set (w5 := match dl with Some _ => _ | None => _ end).
  assert (I5 : transInv w5).
  { subst w5. destruct dl as [k|]; [|exact I4].
    destruct (_ && _); [now apply transInv_goToSlide | exact I4]. }
  now apply transInv_startAutoSlide.
Qed.

Lemma reachable_transInv (w : World) : reachable w -> transInv w.
Proof.
  induction 1 as [d n h rm vis dl Hn | w a R IH].
  - now apply transInv_init.
  - now apply transInv_step.
Qed.

(** *** Callbacks racing for one job *)

Lemma step_callback_inv (w : World) (t : SlideshowTransitions) (cb : Action) :
  transInv w -> transitions w = Some t -> isCallback cb = true ->
  step w cb
  = match activeTransition t with
    | Some a => if triggers a cb then completeJob t a w else w
    | None => w
    end.
Proof.
  intros I T C. destruct cb; try discriminate C; cbn [step triggers].
  - now apply fireTimeout_inv.
  - now apply fireTransitionEnd_inv.
Qed.

(** Whatever callbacks arrive, in whatever order and however often: the
    job in flight completes on the first one that is a trigger of it, and
    every other callback does nothing. *)
Lemma run_callbacks_inv (cbs : list Action) (w : World)
  (t : SlideshowTransitions) :
  transInv w -> transitions w = Some t -> forallb isCallback cbs = true ->
  run w cbs
  = match activeTransition t with
    | Some a => if existsb (triggers a) cbs then completeJob t a w else w
    | None => w
    end.
Proof.
  revert w t. induction cbs as [|cb cbs IH]; intros w t I T F.
  - cbn. now destruct (activeTransition t).
  - cbn in F. apply andb_true_iff in F. destruct F as [C F].
    cbn [run fold_left existsb].
    change (fold_left step cbs (step w cb)) with (run (step w cb) cbs).
    rewrite (step_callback_inv w t cb I T C).
    destruct (activeTransition t) as [a|] eqn:Ea.
    + destruct (triggers a cb); cbn [orb].
      * rewrite (IH (completeJob t a w) (setActiveTransition None t)
                   (transInv_completeJob w t a I T Ea) eq_refl F).
        reflexivity.
      * rewrite (IH w t I T F), Ea. reflexivity.
    + rewrite (IH w t I T F), Ea. reflexivity.
Qed.

Lemma countEvents_dispatchEvent (p : Event -> bool) (e : Event) (w : World) :
  countEvents p (dispatchEvent e w)
  = (countEvents p w + if p e then 1 else 0)%nat.
Proof.
  unfold countEvents. cbn. rewrite filter_app, length_app. cbn.
  now destruct (p e).
Qed.

Lemma countEvents_completeJob (t : SlideshowTransitions) (a : ActiveTransition)
  (w : World) :
  countEvents isTransitionComplete (completeJob t a w)
  = S (countEvents isTransitionComplete w)
  /\ countEvents isSlideChanged (completeJob t a w)
     = S (countEvents isSlideChanged w).
Proof.
  unfold completeJob, announce. rewrite !countEvents_dispatchEvent. cbn.
  unfold countEvents. cbn. lia.
Qed.

(* ------------------------------------------------------------------ *)
(** ** Transition completion *)

Lemma slideAt_in_range (len j : Z) : 1 <= j <= len -> slideAt len j = Some j.
Proof.
  intro H. unfold slideAt.
  destruct (Z.leb_spec 1 j); destruct (Z.leb_spec j len); cbn; try lia.
  reflexivity.
Qed.

Lemma fresh_job_not_ended (w : World) : transInv w -> ~ In (nextJob w) (ended w).
Proof. intros I H. pose proof (ti_ended w I _ H). lia. Qed.

(** A crossfade [performTransition] on a reachable world. *)
Lemma performTransition_crossfade (i j : Z) (w : World)
  (t : SlideshowTransitions) (v : string) :
  transInv w -> transitions w = Some t ->
  variantOf (transitionType t) = Some v -> 1 <= j <= slidesLength t ->
  performTransition i j w = arm t j v (quiesce t w).
Proof.
  intros I T V R. rewrite (performTransition_inv i j w t I T).
  now rewrite (slideAt_in_range _ _ R), V.
Qed.

(** C7 (amended): a crossfade transition started by [performTransition]
    arms one [transitionend] listener and one fallback timeout at the
    variant's total duration plus 100 ms.  However the listener and the
    timeout then fire - either one alone, both in either order, repeatedly,
    mixed with unrelated [transitionend] events - exactly one
    [vvjs:transitionComplete] is dispatched: the first trigger wins, clears
    the timeout and removes the listener, and the closure's flag makes a
    second run of it a no-op.  A transition that is cancelled first, by
    [destroy] or by the next [performTransition], never completes. *)
Theorem C7_completion_once_unless_cancelled (i j : Z) (w : World)
  (t : SlideshowTransitions) (v : string) :
  reachable w -> transitions w = Some t ->
  variantOf (transitionType t) = Some v -> 1 <= j <= slidesLength t ->
  let w1 := performTransition i j w in
  let cl := mkClosure (nextJob w) j in
  let job := mkActive j cl (nextHandle w) in
  let done := countEvents isTransitionComplete in
  activeOf w1 = Some job
  /\ timeouts w1
     = [mkTimeout (nextHandle w) cl
          (totalDuration v (transitionDuration t) + 100)%Q]
  /\ listeners w1 = [(j, cl)]
  /\ done w1 = done w
  /\ (forall cbs, forallb isCallback cbs = true ->
      done (run w1 cbs)
      = (done w + if existsb (triggers job) cbs then 1 else 0)%nat
      /\ (existsb (triggers job) cbs = true ->
          timeouts (run w1 cbs) = [] /\ listeners (run w1 cbs) = []
          /\ activeOf (run w1 cbs) = None))
  /\ cleanup cl (cleanup cl w1) = cleanup cl w1
  /\ (forall cbs, forallb isCallback cbs = true ->
      done (run (transitionsDestroy w1) cbs) = done w
      /\ ~ In (nextJob w) (ended (run (transitionsDestroy w1) cbs)))
  /\ (forall i' j' cbs, forallb isCallback cbs = true ->
      ~ In (nextJob w) (ended (run (performTransition i' j' w1) cbs))).
Proof.
  intros R T V Rg w1 cl job done.
  pose proof (reachable_transInv w R) as I.
  assert (E1 : w1 = arm t j v (quiesce t w))
    by (apply performTransition_crossfade; assumption).
  assert (I1 : transInv w1) by (apply transInv_performTransition; exact I).
  set (t1 := setActiveTransition (Some job) t).
  assert (T1 : transitions w1 = Some t1) by (rewrite E1; reflexivity).
  assert (A1 : activeTransition t1 = Some job) by reflexivity.
  assert (D1 : dispatched w1 = dispatched w) by (rewrite E1; reflexivity).
  assert (N1 : ended w1 = ended w) by (rewrite E1; reflexivity).
  assert (J1 : nextJob w1 = S (nextJob w)) by (rewrite E1; reflexivity).
  pose proof (fresh_job_not_ended w I) as Fr.
  split; [rewrite E1; reflexivity|].
  split; [rewrite E1; reflexivity|].
  split; [rewrite E1; reflexivity|].
  split; [unfold done, countEvents; now rewrite D1|].
  split; [|split; [|split]].
  - intros cbs F. rewrite (run_callbacks_inv cbs w1 t1 I1 T1 F), A1.
    destruct (existsb (triggers job) cbs).
    + split; [|intros _; now cbn].
      unfold done. rewrite (proj1 (countEvents_completeJob t1 job w1)).
      unfold countEvents. rewrite D1. lia.
    + split; [|discriminate]. unfold done, countEvents. rewrite D1. lia.
  - destruct (cleanup_inv w1 t1 job I1 T1 A1) as [C _].
    change (at_listener job) with cl in C. rewrite C.
    unfold cleanup. cbn [ended completeJob announce dispatchEvent quiesce setEnded].
    rewrite existsb_app. cbn. rewrite Nat.eqb_refl, orb_true_r. reflexivity.
  - intros cbs F. unfold transitionsDestroy.
    rewrite (cleanupActiveTransition_inv w1 t1 I1 T1).
    rewrite (run_callbacks_inv cbs (quiesce t1 w1) (setActiveTransition None t1)
               (transInv_quiesce w1 t1 I1 T1) eq_refl F).
    cbn. split; [unfold done, countEvents; cbn; now rewrite D1|].
    now rewrite N1.
  - intros i' j' cbs F.
    set (w2 := performTransition i' j' w1).
    assert (I2 : transInv w2) by (apply transInv_performTransition; exact I1).
    assert (E2 : w2 = match slideAt (slidesLength t1) j' with
                      | Some inc => arm t1 inc v (quiesce t1 w1)
                      | None => quiesce t1 w1
                      end).
    { subst w2. rewrite (performTransition_inv i' j' w1 t1 I1 T1).
      change (transitionType t1) with (transitionType t). now rewrite V. }
    destruct (slideAt (slidesLength t1) j') as [inc|].
    + rewrite (run_callbacks_inv cbs w2 _ I2 (f_equal transitions E2) F).
      cbn [activeTransition setActiveTransition].
      destruct (existsb _ cbs); rewrite E2; cbn; rewrite ?N1, ?J1.
      * intro H. apply in_app_or in H. destruct H as [H|[H|[]]]; [tauto | lia].
      * exact Fr.
    + rewrite (run_callbacks_inv cbs w2 _ I2 (f_equal transitions E2) F).
      cbn [activeTransition setActiveTransition].
      rewrite E2. cbn. now rewrite N1.
Qed.

Lemma C7_completion_once_unless_cancelled_witness :
  countEvents isTransitionComplete
    (run (performTransition 1 2 crossfadeWorld)
         [TransitionEnd 2 "opacity" 2; TimeoutFires 3%positive;
          TransitionEnd 2 "opacity" 2]) = 1%nat.
Proof.
  destruct (C7_completion_once_unless_cancelled 1 2 crossfadeWorld
              (mkTransitions 3 "crossfade-classic" 600 None None) "classic"
              (reach_init crossfadeClassic 3 1%positive false true None
                 ltac:(lia))
              eq_refl eq_refl ltac:(cbn; lia))
    as (_ & _ & _ & _ & H & _).
  exact (proj1 (H [TransitionEnd 2 "opacity" 2; TimeoutFires 3%positive;
                   TransitionEnd 2 "opacity" 2] eq_refl)).
Defined.

(** C7 as stated fails: the first [nextSlide] starts the crossfade 1 -> 2
    (closure 0, timeout handle 3); the second starts 2 -> 3 (closure 1,
    timeout handle 4) and cancels the first.  After every timeout and
    every [transitionend] has had its chance, two crossfade transitions
    have been started and one [vvjs:transitionComplete] has been
    dispatched: the first transition produced none. *)
Lemma C7_cancelled_transition_never_completes :
  activeOf crossfadeOnce = Some (mkActive 2 (mkClosure 0 2) 3%positive)
  /\ activeOf crossfadeTwice = Some (mkActive 3 (mkClosure 1 3) 4%positive)
  /\ nextJob crossfadeSettled = 2%nat
  /\ timeouts crossfadeSettled = [] /\ listeners crossfadeSettled = []
  /\ ended crossfadeSettled = [1%nat]
  /\ filter isTransitionComplete (newEvents crossfadeWorld crossfadeSettled)
     = [TransitionComplete 3 "crossfade-classic"].
Proof. repeat split. Qed.

(* ------------------------------------------------------------------ *)
(** ** Slide-changed notifications per navigation call *)

Lemma navigates_shape (w : World) (a : Action) :
  coreInv (core w) -> navigates w a = true ->
  exists i, 1 <= i <= totalSlides (core w)
            /\ step w a
               = updateSlideVisibility (setCore (setSlideIndex i (core w)) w).
Proof.
  intros [R _] N. destruct a; try discriminate N; cbn in N; cbn [step].
  - unfold nextSlide, adjustHeight. cbn zeta.
    destruct (loopingEnabled (core w)).
    + eexists. split; [|reflexivity]. now apply rem_succ_range.
    + cbn in N. rewrite N. eexists. split; [|reflexivity].
      apply Z.ltb_lt in N. lia.
  - unfold prevSlide, adjustHeight. cbn zeta.
    destruct (loopingEnabled (core w)).
    + eexists. split; [|reflexivity].
      destruct (Z.eqb_spec (slideIndex (core w)) 1); lia.
    + cbn in N. rewrite N. eexists. split; [|reflexivity].
      apply Z.ltb_lt in N. lia.
  - unfold goToSlide, adjustHeight. rewrite N.
    exists n. split; [|reflexivity].
    apply andb_true_iff in N. destruct N as [A B].
    apply Z.leb_le in A. apply Z.leb_le in B. lia.
Qed.

Lemma variantOf_not_instant (ty v : string) :
  variantOf ty = Some v -> String.eqb ty "instant" = false.
Proof.
  unfold variantOf. destruct (String.eqb ty "instant"); [discriminate|reflexivity].
Qed.

(** [updateSlideVisibility] with a crossfade kind: the event, the armed
    job, the tracked index; no [vvjs:slideChanged] yet. *)
Lemma updateSlideVisibility_crossfade (w : World) (t : SlideshowTransitions)
  (v : string) :
  transInv w -> transitions w = Some t ->
  variantOf (transitionType t) = Some v ->
  1 <= slideIndex (core w) <= totalSlides (core w) ->
  updateSlideVisibility w
  = setCore (setCurrentSlideIndex (slideIndex (core w)) (core w))
      (arm t (slideIndex (core w)) v
         (quiesce t
            (dispatchEvent
               (SlideChanging (currentSlideIndex (core w)) (slideIndex (core w)))
               w))).
Proof.
  intros I T V R.
  destruct (ti_trans w I) as (t' & T' & S & K).
  rewrite T in T'. injection T' as <-.
  unfold updateSlideVisibility.
  set (w1 := dispatchEvent _ w).
  assert (I1 : transInv w1).
  { revert I. apply transInv_ext; [|reflexivity].
    unfold sameTransitionState. cbn. tauto. }
  assert (T1 : transitions w1 = Some t) by exact T.
  rewrite T1.
  destruct (Z.eqb_spec (slidesLength t) 0) as [Z0|_]; [lia|].
  rewrite (performTransition_crossfade _ _ w1 t v I1 T1 V) by lia.
  cbn [dataTransition setCore arm quiesce]. subst w1.
  cbn [dataTransition dispatchEvent].
  rewrite <- K, (variantOf_not_instant _ _ V). reflexivity.
Qed.

(** One successful navigation call with a crossfade kind. *)
Lemma navigation_crossfade (w : World) (t : SlideshowTransitions) (v : string)
  (a : Action) :
  reachable w -> transitions w = Some t ->
  variantOf (transitionType t) = Some v -> navigates w a = true ->
  let w1 := step w a in
  countEvents isSlideChanged w1 = countEvents isSlideChanged w
  /\ countEvents isSlideChanging w1 = S (countEvents isSlideChanging w)
  /\ exists job,
       transitions w1 = Some (setActiveTransition (Some job) t)
       /\ forall cbs, forallb isCallback cbs = true ->
            countEvents isSlideChanged (run w1 cbs)
            = (countEvents isSlideChanged w
               + if existsb (triggers job) cbs then 1 else 0)%nat.
Proof.
  intros R T V N w1.
  pose proof (reachable_transInv w R) as I.
  destruct (reachable_coreInv w R) as [CI _].
  destruct (navigates_shape w a CI N) as (i & Ri & E).
  assert (I1 : transInv w1) by apply (transInv_step w a I).
  subst w1. rewrite E in *.
  rewrite (updateSlideVisibility_crossfade _ t v
             (transInv_setSlideIndex i w I) T V Ri) in *.
  cbn [core setCore slideIndex setSlideIndex currentSlideIndex] in *.
  set (w1 := setCore _ _) in *.
  assert (D : dispatched w1
              = dispatched w ++ [SlideChanging (currentSlideIndex (core w)) i])
    by reflexivity.
  assert (C1 : countEvents isSlideChanged w1 = countEvents isSlideChanged w).
  { unfold countEvents. rewrite D, filter_app, length_app. cbn. lia. }
  split; [exact C1|]. split.
  - unfold countEvents. rewrite D, filter_app, length_app. cbn. lia.
  - eexists. split; [reflexivity|].
    intros cbs F.
    rewrite (run_callbacks_inv cbs w1 _ I1 eq_refl F).
    cbn [activeTransition setActiveTransition].
    destruct (existsb _ cbs).
    + rewrite (proj2 (countEvents_completeJob _ _ w1)). lia.
    + lia.
Qed.

(** C1 (amended), crossfade kinds: a successful navigation call dispatches
    no [vvjs:slideChanged] itself; it starts one transition job, and
    whatever callbacks follow, exactly one [vvjs:slideChanged] is
    dispatched as soon as a trigger of that job is among them, and none
    before.  If instead another successful navigation call comes first, it
    cancels the job: the two calls together lead to at most one
    [vvjs:slideChanged]. *)
Theorem C1_crossfade_slideChanged_on_completion (w : World)
  (t : SlideshowTransitions) (v : string) (a : Action) :
  reachable w -> transitions w = Some t ->
  variantOf (transitionType t) = Some v -> navigates w a = true ->
  let w1 := step w a in
  let changed := countEvents isSlideChanged in
  changed w1 = changed w
  /\ exists job,
       activeOf w1 = Some job
       /\ (forall cbs, forallb isCallback cbs = true ->
           changed (run w1 cbs)
           = (changed w + if existsb (triggers job) cbs then 1 else 0)%nat)
       /\ (forall a' cbs,
           navigates w1 a' = true -> forallb isCallback cbs = true ->
           changed (step w1 a') = changed w
           /\ (changed (run (step w1 a') cbs) <= changed w + 1)%nat).
Proof.
  intros R T V N w1 changed.
  destruct (navigation_crossfade w t v a R T V N) as (C & _ & job & T1 & H).
  fold w1 in C, T1, H. split; [exact C|].
  exists job. split; [unfold activeOf; now rewrite T1|]. split; [exact H|].
  intros a' cbs N' F.
  destruct (navigation_crossfade w1 _ v a' (reach_step w a R) T1 V N')
    as (C' & _ & job' & _ & H').
  unfold changed. split; [congruence|].
  rewrite (H' cbs F), C. destruct (existsb _ cbs); lia.
Qed.

Lemma C1_crossfade_slideChanged_on_completion_witness :
  countEvents isSlideChanged (step crossfadeWorld CallNextSlide)
  = countEvents isSlideChanged crossfadeWorld.
Proof.
  exact (proj1
    (C1_crossfade_slideChanged_on_completion crossfadeWorld
       (mkTransitions 3 "crossfade-classic" 600 None None) "classic"
       CallNextSlide
       (reach_init crossfadeClassic 3 1%positive false true None ltac:(lia))
       eq_refl eq_refl eq_refl)).
Defined.

(** C1 as stated fails with a crossfade kind: two successful [nextSlide]
    calls in a row (1 -> 2, then 2 -> 3 before the first crossfade has
    ended) are followed, once every timeout and [transitionend] has had
    its chance, by a single [vvjs:slideChanged]. *)
Lemma C1_two_navigations_one_slideChanged :
  navigates crossfadeWorld CallNextSlide = true
  /\ navigates crossfadeOnce CallNextSlide = true
  /\ slideIndex (core crossfadeWorld) = 1
  /\ slideIndex (core crossfadeOnce) = 2
  /\ slideIndex (core crossfadeTwice) = 3
  /\ timeouts crossfadeSettled = [] /\ listeners crossfadeSettled = []
  /\ newEvents crossfadeWorld crossfadeSettled
     = [SlideChanging 1 2; SlideChanging 2 3;
        TransitionComplete 3 "crossfade-classic"; SlideChanged 3 3].
Proof. repeat split. Qed.

(** With the instant kind the event is dispatched twice per call: once by
    the core's [vvjs:transitionComplete] listener, which
    [transitionInstant] triggers inside the [vvjs:slideChanging] dispatch,
    and once by [updateSlideVisibility] itself. *)
Lemma updateSlideVisibility_instant (w : World) (t : SlideshowTransitions) :
  transInv w -> transitions w = Some t ->
  transitionType t = "instant"%string ->
  1 <= slideIndex (core w) <= totalSlides (core w) ->
  updateSlideVisibility w
  = updateAccessibilityAttributes
      (setCore (setCurrentSlideIndex (slideIndex (core w)) (core w))
         (announce t
            (quiesce t
               (dispatchEvent
                  (SlideChanging (currentSlideIndex (core w))
                                 (slideIndex (core w))) w)))).
Proof.
  intros I T Ty R.
  destruct (ti_trans w I) as (t' & T' & S & K).
  rewrite T in T'. injection T' as <-.
  unfold updateSlideVisibility.
  set (w1 := dispatchEvent _ w).
  assert (I1 : transInv w1).
  { revert I. apply transInv_ext; [|reflexivity].
    unfold sameTransitionState. cbn. tauto. }
  assert (T1 : transitions w1 = Some t) by exact T.
  rewrite T1.
  destruct (Z.eqb_spec (slidesLength t) 0) as [Z0|_]; [lia|].
  rewrite (performTransition_inv _ _ w1 t I1 T1).
  rewrite slideAt_in_range by (subst w1; cbn; lia).
  rewrite Ty. cbn [variantOf String.eqb Ascii.eqb Bool.eqb].
  cbn [dataTransition setCore announce quiesce dispatchEvent]. subst w1.
  cbn [dataTransition dispatchEvent].
  rewrite <- K, Ty. reflexivity.
Qed.

Lemma instant_navigation_dispatches_slideChanged_twice (w : World)
  (t : SlideshowTransitions) (a : Action) :
  reachable w -> transitions w = Some t ->
  transitionType t = "instant"%string -> navigates w a = true ->
  countEvents isSlideChanged (step w a)
  = (countEvents isSlideChanged w + 2)%nat.
Proof.
  intros R T Ty N.
  pose proof (reachable_transInv w R) as I.
  destruct (reachable_coreInv w R) as [CI _].
  destruct (navigates_shape w a CI N) as (i & Ri & E).
  rewrite E.
  rewrite (updateSlideVisibility_instant _ t
             (transInv_setSlideIndex i w I) T Ty Ri).
  unfold updateAccessibilityAttributes, announce.
  rewrite !countEvents_dispatchEvent. cbn.
  unfold countEvents. cbn. rewrite !filter_app, !length_app. cbn. lia.
Qed.

(** The same, traced on a fresh three-slide slideshow with default
    settings: one [nextSlide], two [vvjs:slideChanged]. *)
Lemma instant_nextSlide_trace :
  newEvents plainWorld (nextSlide plainWorld)
  = [SlideChanging 1 2; TransitionComplete 2 "instant"; SlideChanged 2 3;
     SlideChanged 2 3].
Proof. reflexivity. Qed.

(* ------------------------------------------------------------------ *)
(** ** Pause toggling *)

Lemma mayAutoplay_setAutoSlideIntervalId (h : option positive)
  (c : SlideshowCore) :
  mayAutoplay (setAutoSlideIntervalId h c) = mayAutoplay c.
Proof. reflexivity. Qed.

(** X1: two [togglePause] calls in a row bring the paused flag back and
    leave the slide index, the tracked index and the visible flag alone;
    afterwards the autoplay interval is armed exactly when the slideshow
    may autoplay (positive interval, not paused, visible) - whether or not
    it was running before. *)
Theorem X1_togglePause_twice (w : World) :
  let w2 := togglePause (togglePause w) in
  isPaused (core w2) = isPaused (core w)
  /\ slideIndex (core w2) = slideIndex (core w)
  /\ currentSlideIndex (core w2) = currentSlideIndex (core w)
  /\ isVisible (core w2) = isVisible (core w)
  /\ (autoSlideIntervalId (core w2) <> None <-> mayAutoplay (core w) = true).
Proof.
  cbv zeta. rewrite !core_togglePause. cbn.
  rewrite !negb_involutive.
  repeat (split; [reflexivity|]).
  unfold mayAutoplay.
  cbn [slideTime isPaused isVisible setIsPaused setAutoSlideIntervalId].
  destruct (_ && _); split; intro H; try congruence; discriminate.
Qed.

Lemma forallb_autoplay_stop (o : option positive) :
  forallb isAutoplayEvent
    match o with Some _ => [AutoSlideStopped] | None => [] end = true.
Proof. now destruct o. Qed.

(** X2: [togglePause] dispatches [vvjs:pauseToggled] first, carrying the
    new value of the flag, and after it only autoplay-started or
    autoplay-stopped events: listeners of the pause event see the flag
    already flipped, and the timer is touched afterwards. *)
Theorem X2_togglePause_event_order (w : World) :
  exists rest,
    dispatched (togglePause w)
    = dispatched w ++ PauseToggled (negb (isPaused (core w))) :: rest
    /\ forallb isAutoplayEvent rest = true
    /\ isPaused (core (togglePause w)) = negb (isPaused (core w)).
Proof.
  unfold togglePause. cbn zeta.
  set (w2 := dispatchEvent _ _).
  assert (D2 : dispatched w2
               = dispatched w ++ [PauseToggled (negb (isPaused (core w)))])
    by reflexivity.
  assert (P2 : isPaused (core w2) = negb (isPaused (core w))) by reflexivity.
  assert (C : forall w', w' = stopAutoSlide w2 \/ w' = startAutoSlide w2 ->
              exists rest, dispatched w' = dispatched w2 ++ rest
                           /\ forallb isAutoplayEvent rest = true
                           /\ isPaused (core w') = isPaused (core w2)).
  { intros w' [-> | ->]; eexists.
    - rewrite dispatched_stopAutoSlide, core_stopAutoSlide.
      split; [reflexivity|]. split; [apply forallb_autoplay_stop|reflexivity].
    - rewrite dispatched_startAutoSlide, core_startAutoSlide.
      split; [reflexivity|]. split; [|reflexivity].
      rewrite forallb_app, forallb_autoplay_stop.
      now destruct (mayAutoplay (core w2)). }
  destruct (C (if isPaused (core w2) then stopAutoSlide w2
               else startAutoSlide w2)) as (rest & D & F & P).
  { destruct (isPaused (core w2)); auto. }
  exists rest. rewrite D, D2, <- app_assoc.
  split; [reflexivity|]. split; [exact F|]. now rewrite P.
Qed.

(* ------------------------------------------------------------------ *)
(** ** No leaked timers *)

Lemma intervals_cleanupActiveTransition (w : World) :
  intervals (cleanupActiveTransition w) = intervals w.
Proof.
  unfold cleanupActiveTransition.
  destruct (transitions w) as [t|]; [destruct (activeTransition t)|]; reflexivity.
Qed.

Lemma intervals_onTransitionComplete (w : World) :
  intervals (onTransitionComplete w) = intervals w.
Proof.
  unfold onTransitionComplete.
  destruct (transitions (cleanupActiveTransition w)); cbn;
    apply intervals_cleanupActiveTransition.
Qed.

Lemma intervals_cleanup (cl : Closure) (w : World) :
  intervals (cleanup cl w) = intervals w.
Proof.
  unfold cleanup. destruct (existsb _ (ended w)); [reflexivity|].
  rewrite intervals_onTransitionComplete. cbn.
  destruct (transitions w) as [t|]; [destruct (activeTransition t)|]; reflexivity.
Qed.

Lemma intervals_performTransition (i j : Z) (w : World) :
  intervals (performTransition i j w) = intervals w.
Proof.
  rewrite performTransition_route. cbn zeta.
  destruct (transitions (cleanupActiveTransition w)) as [t|];
    [|apply intervals_cleanupActiveTransition].
  destruct (slideAt (slidesLength t) j); [|apply intervals_cleanupActiveTransition].
  destruct (variantOf (transitionType t)).
  - unfold setupTransitionCompletion, addEventListener.
    destruct (transitions (cleanupActiveTransition w));
      [|apply intervals_cleanupActiveTransition].
    cbn. destruct (existsb _ _); cbn; apply intervals_cleanupActiveTransition.
  - rewrite intervals_onTransitionComplete.
    apply intervals_cleanupActiveTransition.
Qed.

Lemma intervals_updateSlideVisibility (w : World) :
  intervals (updateSlideVisibility w) = intervals w.
Proof.
  unfold updateSlideVisibility.
  set (w2 := match transitions _ with Some _ => _ | None => _ end).
  assert (E : intervals w2 = intervals w).
  { subst w2. cbn [transitions dispatchEvent].
    destruct (transitions w) as [t|]; [|reflexivity].
    destruct (Z.eqb _ 0); [reflexivity|].
    now rewrite intervals_performTransition. }
  destruct (String.eqb _ _); cbn; exact E.
Qed.

Lemma intervals_fireTimeout (h : positive) (w : World) :
  intervals (fireTimeout h w) = intervals w.
Proof.
  unfold fireTimeout. destruct (find _ _); [|reflexivity].
  now rewrite intervals_cleanup.
Qed.

Lemma intervals_fireTransitionEnd (el : Z) (prop : string) (target : Z)
  (w : World) :
  intervals (fireTransitionEnd el prop target w) = intervals w.
Proof.
  unfold fireTransitionEnd.
  generalize (filter (fun p => Z.eqb (fst p) el) (listeners w)).
  intro l. revert w.
  induction l as [|p l IH]; intro w; cbn [fold_left]; [reflexivity|].
  rewrite IH. destruct (existsb _ _); [|reflexivity].
  unfold listener. destruct (_ && _); [apply intervals_cleanup | reflexivity].
Qed.

Lemma intervalInv_frame (w w' : World) :
  intervals w' = intervals w ->
  autoSlideIntervalId (core w') = autoSlideIntervalId (core w) ->
  intervalInv w -> intervalInv w'.
Proof. unfold intervalInv. intros -> ->. trivial. Qed.

Lemma intervalInv_stopAutoSlide (w : World) :
  intervalInv w -> intervalInv (stopAutoSlide w).
Proof.
  unfold intervalInv. intro I.
  rewrite core_stopAutoSlide, intervals_stopAutoSlide. cbn.
  destruct (autoSlideIntervalId (core w)) as [h|]; [|exact I].
  rewrite I. cbn. now rewrite Pos.eqb_refl.
Qed.

Lemma intervals_startAutoSlide (w : World) :
  intervals (startAutoSlide w)
  = intervals (stopAutoSlide w)
    ++ if mayAutoplay (core w) then [nextHandle w] else [].
Proof.
  unfold startAutoSlide, mayAutoplay. rewrite core_stopAutoSlide. cbn.
  assert (N : nextHandle (stopAutoSlide w) = nextHandle w).
  { unfold stopAutoSlide. now destruct (autoSlideIntervalId (core w)). }
  destruct (_ && _); cbn; [now rewrite N | now rewrite app_nil_r].
Qed.

Lemma intervalInv_startAutoSlide (w : World) :
  intervalInv w -> intervalInv (startAutoSlide w).
Proof.
  intro I. pose proof (intervalInv_stopAutoSlide w I) as S.
  unfold intervalInv in *.
  rewrite core_stopAutoSlide in S. cbn in S.
  rewrite intervals_startAutoSlide, core_startAutoSlide, S. cbn.
  now destruct (mayAutoplay (core w)).
Qed.

Lemma intervalInv_updateSlideVisibility (w : World) :
  intervalInv w -> intervalInv (updateSlideVisibility w).
Proof.
  apply intervalInv_frame; [apply intervals_updateSlideVisibility|].
  now rewrite core_updateSlideVisibility.
Qed.

Lemma intervalInv_nextSlide (w : World) :
  intervalInv w -> intervalInv (nextSlide w).
Proof.
  intro I. unfold nextSlide, adjustHeight. cbn zeta.
  destruct (loopingEnabled (core w));
    [|destruct (_ <? _); [|now apply intervalInv_stopAutoSlide]];
    apply intervalInv_updateSlideVisibility; exact I.
Qed.

Lemma intervalInv_step (w : World) (a : Action) :
  intervalInv w -> intervalInv (step w a).
Proof.
  intro I. destruct a; cbn [step].
  - now apply intervalInv_nextSlide.
  - unfold prevSlide, adjustHeight. cbn zeta.
    destruct (loopingEnabled (core w));
      [|destruct (_ <? _); [|exact I]];
      apply intervalInv_updateSlideVisibility; exact I.
  - unfold goToSlide, adjustHeight. destruct (_ && _); [|exact I].
    apply intervalInv_updateSlideVisibility; exact I.
  - unfold togglePause. cbn zeta. cbn [isPaused core dispatchEvent setCore setIsPaused].
    destruct (negb _);
      [apply intervalInv_stopAutoSlide | apply intervalInv_startAutoSlide];
      exact I.
  - unfold setVisibility. cbn zeta.
    destruct (_ && _);
      [apply intervalInv_startAutoSlide | apply intervalInv_stopAutoSlide];
      exact I.
  - now apply intervalInv_startAutoSlide.
  - now apply intervalInv_stopAutoSlide.
  - revert I. apply intervalInv_frame;
      [unfold handleReducedMotion; now destruct (transitions w)
      | now rewrite core_handleReducedMotion].
  - destruct (existsb _ _); [now apply intervalInv_nextSlide | exact I].
  - revert I. apply intervalInv_frame;
      [apply intervals_fireTimeout | now rewrite core_fireTimeout].
  - revert I. apply intervalInv_frame;
      [apply intervals_fireTransitionEnd | now rewrite core_fireTransitionEnd].
Qed.

Lemma intervalInv_init (d : Dataset) (n : Z) (h : positive) (rm vis : bool)
  (dl : option Z) :
  intervalInv (initSlideshow d n h rm vis dl).
Proof.
  unfold initSlideshow. cbn zeta.
  assert (I1 : intervalInv (newSlideshowCore d n h)).
  { unfold newSlideshowCore, adjustHeight.
    apply intervalInv_updateSlideVisibility. reflexivity. }
  assert (I2 : intervalInv (newSlideshowTransitions d rm (newSlideshowCore d n h))).
  { revert I1. apply intervalInv_frame;
      [|now rewrite core_newSlideshowTransitions].
    unfold newSlideshowTransitions. cbn zeta.
    destruct (Z.eqb _ 0); [reflexivity|].
    destruct rm; [|reflexivity].
    unfold handleReducedMotion. reflexivity. }
  set (w2 := newSlideshowTransitions d rm (newSlideshowCore d n h)) in *.
  assert (I3 : intervalInv (applyReducedMotion rm w2)).
  { unfold applyReducedMotion. destruct rm; [|exact I2].
    apply intervalInv_stopAutoSlide. exact I2. }
  set (w3 := applyReducedMotion rm w2) in *.
  pose proof (intervalInv_step w3 (CallSetVisibility vis) I3) as I4.
  cbn [step] in I4.
  apply intervalInv_startAutoSlide.
  destruct dl as [k|]; [|exact I4].
  destruct (_ && _); [|exact I4].
  apply (intervalInv_step _ (CallGoToSlide k) I4).
Qed.

Lemma reachable_intervalInv (w : World) : reachable w -> intervalInv w.
Proof.
  induction 1 as [d n h rm vis dl Hn | w a R IH].
  - apply intervalInv_init.
  - now apply intervalInv_step.
Qed.

(** X3: in every reachable world the live autoplay intervals are exactly
    the one interval whose handle the core holds, and there is none when
    it holds none: [startAutoSlide] never leaves an older interval
    running. *)
Theorem X3_one_autoplay_interval (w : World) :
  reachable w ->
  intervals w
  = match autoSlideIntervalId (core w) with
    | Some h => [h]
    | None => []
    end.
Proof.
  intro R. exact (reachable_intervalInv w R).
Qed.

Lemma X3_one_autoplay_interval_witness :
  intervals (run plainWorld [CallStartAutoSlide; CallNextSlide;
                             CallStartAutoSlide])
  = [4%positive].
Proof.
  exact (X3_one_autoplay_interval _
           (reachable_run plainWorld _
              (reach_init plain 3 1%positive false true None ltac:(lia)))).
Defined.

(** X4: in every reachable world at most one fallback timeout is live and
    at most one [transitionend] listener is registered; both belong to the
    transition in flight, and none is left when no transition is in
    flight. *)
Theorem X4_one_transition_job (w : World) :
  reachable w ->
  (List.length (timeouts w) <= 1)%nat
  /\ (List.length (listeners w) <= 1)%nat
  /\ (activeOf w = None -> timeouts w = [] /\ listeners w = [])
  /\ (forall a, activeOf w = Some a ->
      map to_handle (timeouts w) = [at_timeout a]
      /\ listeners w = [(at_element a, at_listener a)]).
Proof.
  intro R. pose proof (ti_active w (reachable_transInv w R)) as A.
  destruct (activeOf w) as [a|].
  - destruct A as ([d Ht] & Hl & _). rewrite Ht, Hl. cbn.
    split; [lia|]. split; [lia|]. split; [discriminate|].
    intros a' E. injection E as <-. split; reflexivity.
  - destruct A as [Ht Hl]. rewrite Ht, Hl. cbn.
    split; [lia|]. split; [lia|]. split; [intros _; now split|].
    discriminate.
Qed.

Lemma X4_one_transition_job_witness :
  (List.length (timeouts crossfadeTwice) <= 1)%nat.
Proof.
  exact (proj1 (X4_one_transition_job crossfadeTwice
    (reach_step _ _ (reach_step _ _
       (reach_init crossfadeClassic 3 1%positive false true None
          ltac:(lia)))))).
Defined.

(* ------------------------------------------------------------------ *)
(** ** Reduced motion *)

Lemma instantIdle_ext (w w' : World) :
  transitions w' = transitions w -> instantIdle w -> instantIdle w'.
Proof. intros E (t & T & K & A). exists t. now rewrite E. Qed.

Lemma variantOf_instant : variantOf "instant" = None.
Proof. reflexivity. Qed.

Lemma nextJob_stopAutoSlide (w : World) : nextJob (stopAutoSlide w) = nextJob w.
Proof. apply (sameTransitionState_stopAutoSlide w). Qed.

Lemma nextJob_startAutoSlide (w : World) : nextJob (startAutoSlide w) = nextJob w.
Proof. apply (sameTransitionState_startAutoSlide w). Qed.

Lemma transitions_stopAutoSlide (w : World) :
  transitions (stopAutoSlide w) = transitions w.
Proof. apply (sameTransitionState_stopAutoSlide w). Qed.

Lemma transitions_startAutoSlide (w : World) :
  transitions (startAutoSlide w) = transitions w.
Proof. apply (sameTransitionState_startAutoSlide w). Qed.

(** With the instant kind and nothing in flight, [updateSlideVisibility]
    starts no job. *)
Lemma updateSlideVisibility_instantIdle (w : World) :
  transInv w -> instantIdle w ->
  instantIdle (updateSlideVisibility w)
  /\ nextJob (updateSlideVisibility w) = nextJob w.
Proof.
  intros I (t & T & K & A).
  unfold updateSlideVisibility.
  set (w1 := dispatchEvent _ w).
  assert (I1 : transInv w1).
  { revert I. apply transInv_ext; [|reflexivity].
    unfold sameTransitionState. cbn. tauto. }
  assert (T1 : transitions w1 = Some t) by exact T.
  set (w2 := match transitions w1 with Some _ => _ | None => _ end).
  assert (H2 : transitions w2 = Some t /\ nextJob w2 = nextJob w).
  { subst w2. rewrite T1. destruct (Z.eqb _ 0); [now split|].
    rewrite (performTransition_inv _ _ w1 t I1 T1), K, variantOf_instant.
    destruct (slideAt _ _); cbn; now rewrite (setActiveTransition_same _ A). }
  destruct H2 as [T2 N2].
  destruct (String.eqb _ _); cbn; (split; [now exists t | exact N2]).
Qed.

Lemma nav_instantIdle (w : World) (i : Z) :
  transInv w -> instantIdle w ->
  instantIdle (updateSlideVisibility (setCore (setSlideIndex i (core w)) w))
  /\ nextJob (updateSlideVisibility (setCore (setSlideIndex i (core w)) w))
     = nextJob w.
Proof.
  intros I Q.
  apply (updateSlideVisibility_instantIdle
           (setCore (setSlideIndex i (core w)) w)).
  - now apply transInv_setSlideIndex.
  - revert Q. now apply instantIdle_ext.
Qed.

Lemma sameTransitionState_togglePause (w : World) :
  sameTransitionState w (togglePause w).
Proof.
  unfold togglePause. cbn zeta.
  set (w2 := dispatchEvent _ _).
  destruct (isPaused (core w2));
    [ apply (sameTransitionState_stopAutoSlide w2)
    | apply (sameTransitionState_startAutoSlide w2) ].
Qed.

Lemma nextSlide_instantIdle (w : World) :
  transInv w -> instantIdle w ->
  instantIdle (nextSlide w) /\ nextJob (nextSlide w) = nextJob w.
Proof.
  intros I Q. unfold nextSlide, adjustHeight. cbn zeta.
  destruct (loopingEnabled (core w)); [now apply nav_instantIdle|].
  destruct (_ <? _); [now apply nav_instantIdle|].
  split; [|apply nextJob_stopAutoSlide].
  revert Q. apply instantIdle_ext, transitions_stopAutoSlide.
Qed.

Lemma step_instantIdle (w : World) (a : Action) :
  transInv w -> instantIdle w ->
  instantIdle (step w a) /\ nextJob (step w a) = nextJob w.
Proof.
  intros I Q.
  assert (S : forall w', sameTransitionState w w' ->
                         instantIdle w' /\ nextJob w' = nextJob w).
  { intros w' (_ & T & _ & _ & _ & N). split; [|exact N].
    revert Q. now apply instantIdle_ext. }
  destruct a; cbn [step].
  - now apply nextSlide_instantIdle.
  - unfold prevSlide, adjustHeight. cbn zeta.
    destruct (loopingEnabled (core w)); [now apply nav_instantIdle|].
    destruct (_ <? _); [now apply nav_instantIdle | now split].
  - unfold goToSlide, adjustHeight.
    destruct (_ && _); [now apply nav_instantIdle | now split].
  - apply S, sameTransitionState_togglePause.
  - apply S, sameTransitionState_setVisibility.
  - apply S, sameTransitionState_startAutoSlide.
  - apply S, sameTransitionState_stopAutoSlide.
  - destruct Q as (t & T & K & A). unfold handleReducedMotion. rewrite T.
    split; [|reflexivity]. eexists. split; [reflexivity|]. now split.
  - destruct (existsb _ _); [now apply nextSlide_instantIdle | now split].
  - destruct Q as (t & T & K & A).
    change (fireTimeout h w) with (step w (TimeoutFires h)).
    rewrite (step_callback_inv w t (TimeoutFires h) I T eq_refl), A.
    split; [now exists t | reflexivity].
  - destruct Q as (t & T & K & A).
    change (fireTransitionEnd element prop target w)
      with (step w (TransitionEnd element prop target)).
    rewrite (step_callback_inv w t (TransitionEnd element prop target)
               I T eq_refl), A.
    split; [now exists t | reflexivity].
Qed.

(** X5: once the transition kind is instant - as it is after the
    reduced-motion switch - and no crossfade is in flight, it stays that
    way under every later event of the page: the kind remains instant, no
    transition job is started, and no fallback timeout or [transitionend]
    listener is ever armed again. *)
Theorem X5_instant_kind_is_permanent (w : World) (acts : list Action) :
  reachable w -> kindOf w = Some "instant"%string -> activeOf w = None ->
  kindOf (run w acts) = Some "instant"%string
  /\ activeOf (run w acts) = None
  /\ timeouts (run w acts) = [] /\ listeners (run w acts) = []
  /\ nextJob (run w acts) = nextJob w.
Proof.
  intros R K A.
  assert (Q : instantIdle w).
  { unfold kindOf, activeOf in *. destruct (transitions w) as [t|] eqn:T;
      [|discriminate]. cbn in K. injection K as K.
    exists t. split; [exact T|]. now split. }
  clear K A.
  assert (G : instantIdle (run w acts) /\ nextJob (run w acts) = nextJob w
              /\ reachable (run w acts)).
  { revert w R Q. induction acts as [|a acts IH]; intros w R Q;
      cbn [run fold_left]; [split; [exact Q|]; now split|].
    destruct (step_instantIdle w a (reachable_transInv w R) Q) as [Q' N'].
    destruct (IH (step w a) (reach_step w a R) Q') as (Q'' & N'' & R'').
    unfold run in *. rewrite N'' , N'.
    split; [exact Q''|]. split; [reflexivity | exact R'']. }
  destruct G as ((t & T & K & A) & N & R').
  pose proof (ti_active _ (reachable_transInv _ R')) as Act.
  unfold kindOf, activeOf in *. rewrite T in *. cbn. rewrite A in Act.
  destruct Act as [Ht Hl]. rewrite K.
  split; [reflexivity|]. split; [exact A|]. split; [exact Ht|].
  split; [exact Hl | exact N].
Qed.

Lemma X5_instant_kind_is_permanent_witness :
  kindOf (run plainWorld [CallNextSlide; CallGoToSlide 3]) = Some "instant"%string.
Proof.
  exact (proj1 (X5_instant_kind_is_permanent plainWorld
                  [CallNextSlide; CallGoToSlide 3]
                  (reach_init plain 3 1%positive false true None ltac:(lia))
                  eq_refl eq_refl)).
Defined.

Lemma transInv_newSlideshowTransitions (d : Dataset) (n : Z) (h : positive)
  (rm : bool) :
  1 <= n -> transInv (newSlideshowTransitions d rm (newSlideshowCore d n h)).
Proof.
  intro Hn. set (w1 := newSlideshowCore d n h).
  destruct (newSlideshowCore_fields d n h) as (D & T & TO & L & E).
  fold w1 in D, T, TO, L, E.
  assert (C1 : totalSlides (core w1) = n)
    by (subst w1; now rewrite core_newSlideshowCore).
  unfold newSlideshowTransitions. cbn zeta. cbn [slidesLength]. rewrite C1.
  destruct (Z.eqb_spec n 0) as [|_]; [lia|].
  assert (I : transInv
                (setTransitions
                   (Some (mkTransitions n (JS.orStr (dataTransition w1) "instant")
                            (JS.orNum (JS.parseInt (data_transitionDuration d)) 600)
                            None None)) w1)).
  { constructor; cbn.
    - eexists. split; [reflexivity|]. cbn. now split.
    - now split.
    - rewrite E. intros j []. }
  destruct rm; [now apply transInv_handleReducedMotion | exact I].
Qed.

Lemma instantIdle_newSlideshowTransitions (d : Dataset) (n : Z) (h : positive) :
  1 <= n ->
  instantIdle (newSlideshowTransitions d true (newSlideshowCore d n h)).
Proof.
  intro Hn. unfold newSlideshowTransitions. cbn zeta. cbn [slidesLength].
  rewrite core_newSlideshowCore. cbn [totalSlides].
  destruct (Z.eqb_spec n 0) as [|_]; [lia|].
  unfold handleReducedMotion. cbn [transitions setTransitions].
  eexists. cbn. split; [reflexivity|]. now split.
Qed.

(** X6: when the reduced-motion preference is set at attach time, then
    whatever the data attributes, the visibility and the deep link, the
    engine comes up paused with no autoplay interval, and with instant
    transitions on both sides (the transitions object and the core's own
    test of the container attribute), nothing in flight. *)
Theorem X6_reduced_motion_at_init (d : Dataset) (n : Z) (h : positive)
  (vis : bool) (dl : option Z) :
  1 <= n ->
  let w := initSlideshow d n h true vis dl in
  isPaused (core w) = true
  /\ autoSlideIntervalId (core w) = None
  /\ intervals w = []
  /\ kindOf w = Some "instant"%string
  /\ JS.orStr (dataTransition w) "instant" = "instant"%string
  /\ activeOf w = None
  /\ timeouts w = [] /\ listeners w = [].
Proof.
  intros Hn w.
  pose proof (intervalInv_init d n h true vis dl) as IV. fold w in IV.
  pose proof (transInv_init d n h true vis dl Hn) as TI. fold w in TI.
  unfold initSlideshow in w. cbn zeta in w.
  set (w2 := newSlideshowTransitions d true (newSlideshowCore d n h)) in *.
  pose proof (transInv_newSlideshowTransitions d n h true Hn) as I2.
  pose proof (instantIdle_newSlideshowTransitions d n h Hn) as Q2.
  fold w2 in I2, Q2.
  set (w3 := applyReducedMotion true w2) in *.
  assert (S3 : sameTransitionState w2 w3
               /\ totalSlides (core w3) = totalSlides (core w2)
               /\ isPaused (core w3) = true).
  { subst w3. unfold applyReducedMotion.
    pose proof (sameTransitionState_stopAutoSlide
                  (setCore (setIsPaused true (core w2)) w2)) as S.
    rewrite core_stopAutoSlide. cbn. split; [exact S|]. now split. }
  destruct S3 as (S3 & T3 & P3).
  assert (I3 : transInv w3) by (revert I2; now apply transInv_ext).
  assert (Q3 : instantIdle w3)
    by (revert Q2; apply instantIdle_ext, S3).
  set (w4 := setVisibility vis w3) in *.
  pose proof (transInv_step w3 (CallSetVisibility vis) I3) as I4.
  destruct (step_instantIdle w3 (CallSetVisibility vis) I3 Q3) as [Q4 _].
  cbn [step] in I4, Q4. fold w4 in I4, Q4.
  assert (P4 : isPaused (core w4) = true)
    by (subst w4; now rewrite core_setVisibility).
  set (w5 := match dl with Some _ => _ | None => _ end) in *.
  assert (H5 : transInv w5 /\ instantIdle w5 /\ isPaused (core w5) = true).
  { subst w5. destruct dl as [k|]; [|split; [|split]; assumption].
    destruct ((1 <=? k) && (k <=? totalSlides (core w4))) eqn:E;
      [|split; [|split]; assumption].
    pose proof (transInv_step w4 (CallGoToSlide k) I4) as I5.
    destruct (step_instantIdle w4 (CallGoToSlide k) I4 Q4) as [Q5 _].
    cbn [step] in I5, Q5. split; [exact I5|]. split; [exact Q5|].
    rewrite core_goToSlide, E. exact P4. }
  destruct H5 as (I5 & Q5 & P5).
  assert (C : core w = setAutoSlideIntervalId None (core w5)).
  { subst w. rewrite core_startAutoSlide. unfold mayAutoplay.
    now rewrite P5, andb_false_r. }
  destruct (step_instantIdle w5 CallStartAutoSlide I5 Q5) as [(t & T & K & A) _].
  cbn [step] in T. fold w in T.
  pose proof (ti_active w TI) as Act.
  destruct (ti_trans w TI) as (t' & T' & _ & Ty).
  rewrite T in T'. injection T' as <-.
  unfold intervalInv in IV. unfold kindOf, activeOf in *.
  rewrite T in *. rewrite A in Act. destruct Act as [Ht Hl].
  rewrite C in *. cbn in *. rewrite <- Ty, K.
  repeat split; assumption.
Qed.

Lemma X6_reduced_motion_at_init_witness :
  isPaused (core (initSlideshow crossfadeClassic 3 1%positive true true None))
  = true.
Proof.
  exact (proj1 (X6_reduced_motion_at_init crossfadeClassic 3 1%positive true
                  None ltac:(lia))).
Defined.

(* ------------------------------------------------------------------ *)
(** ** How the navigation calls compose *)

(** X7: with the index in range, [prevSlide] undoes [nextSlide] and
    [nextSlide] undoes [prevSlide] - always with looping on (also across
    the wrap), and with looping off whenever the first of the two calls
    was not stopped at its boundary. *)
Theorem X7_next_prev_round_trip (w : World) :
  1 <= slideIndex (core w) <= totalSlides (core w) ->
  (loopingEnabled (core w) = true
   \/ slideIndex (core w) < totalSlides (core w) ->
   slideIndex (core (prevSlide (nextSlide w))) = slideIndex (core w))
  /\ (loopingEnabled (core w) = true \/ 1 < slideIndex (core w) ->
      slideIndex (core (nextSlide (prevSlide w))) = slideIndex (core w)).
Proof.
  intro R.
  assert (Cfg : forall c i, loopingEnabled (setCurrentSlideIndex i (setSlideIndex i c))
                            = loopingEnabled c) by reflexivity.
  split; intro H.
  - rewrite core_prevSlide, core_nextSlide. cbn zeta.
    destruct (loopingEnabled (core w)) eqn:L.
    + rewrite Cfg, L.
      cbn [slideIndex totalSlides setCurrentSlideIndex setSlideIndex].
      unfold JS.rem.
      destruct (Z.eq_dec (slideIndex (core w)) (totalSlides (core w))) as [E|E].
      * rewrite E, Z.rem_same by lia. cbn. reflexivity.
      * rewrite Z.rem_small by lia.
        destruct (Z.eqb_spec (slideIndex (core w) + 1) 1); lia.
    + destruct H as [H|H]; [discriminate|].
      destruct (Z.ltb_spec (slideIndex (core w)) (totalSlides (core w)));
        [|lia].
      rewrite Cfg, L.
      cbn [slideIndex totalSlides setCurrentSlideIndex setSlideIndex].
      destruct (Z.ltb_spec 1 (slideIndex (core w) + 1)); cbn; lia.
  - rewrite core_nextSlide, core_prevSlide. cbn zeta.
    destruct (loopingEnabled (core w)) eqn:L.
    + rewrite Cfg, L.
      cbn [slideIndex totalSlides setCurrentSlideIndex setSlideIndex].
      unfold JS.rem.
      destruct (Z.eqb_spec (slideIndex (core w)) 1) as [E|E].
      * rewrite Z.rem_same by lia. lia.
      * rewrite Z.rem_small by lia. lia.
    + destruct H as [H|H]; [discriminate|].
      destruct (Z.ltb_spec 1 (slideIndex (core w))); [|lia].
      rewrite Cfg, L.
      cbn [slideIndex totalSlides setCurrentSlideIndex setSlideIndex].
      destruct (Z.ltb_spec (slideIndex (core w) - 1) (totalSlides (core w)));
        cbn; lia.
Qed.

Lemma X7_next_prev_round_trip_witness :
  slideIndex (core (prevSlide (nextSlide noLoopLastWorld))) = 3
  \/ slideIndex (core (nextSlide (prevSlide noLoopLastWorld))) = 3.
Proof.
  right.
  assert (R : 1 <= slideIndex (core noLoopLastWorld)
                <= totalSlides (core noLoopLastWorld))
    by (change (1 <= 3 <= 3); lia).
  apply (proj2 (X7_next_prev_round_trip noLoopLastWorld R)).
  right. change (1 < 3). lia.
Defined.

(** X8: with looping off, k calls of [nextSlide] (autoplay ticks, say)
    move the index to min(index + k, total); it never passes the last
    slide, and as soon as a call finds the index on the last slide the
    autoplay interval is stopped. *)
Theorem X8_no_looping_saturates (w : World) (k : nat) :
  loopingEnabled (core w) = false ->
  1 <= slideIndex (core w) <= totalSlides (core w) ->
  let w' := Nat.iter k nextSlide w in
  slideIndex (core w') = Z.min (slideIndex (core w) + Z.of_nat k)
                               (totalSlides (core w))
  /\ (totalSlides (core w) - slideIndex (core w) < Z.of_nat k ->
      autoSlideIntervalId (core w') = None).
Proof.
  intros L R. cbv zeta.
  assert (G : slideIndex (core (Nat.iter k nextSlide w))
              = Z.min (slideIndex (core w) + Z.of_nat k) (totalSlides (core w))
              /\ loopingEnabled (core (Nat.iter k nextSlide w)) = false
              /\ totalSlides (core (Nat.iter k nextSlide w))
                 = totalSlides (core w)
              /\ (totalSlides (core w) - slideIndex (core w) < Z.of_nat k ->
                  autoSlideIntervalId (core (Nat.iter k nextSlide w)) = None)).
  { induction k as [|k IH].
    - cbn. repeat split; try lia. exact L.
    - destruct IH as (A & B & C & _).
      cbn [Nat.iter nat_rect]. unfold Nat.iter in A, B, C.
      rewrite core_nextSlide. cbn zeta. rewrite B, A, C.
      destruct (Z.ltb_spec
                  (Z.min (slideIndex (core w) + Z.of_nat k) (totalSlides (core w)))
                  (totalSlides (core w)));
        cbn [slideIndex loopingEnabled totalSlides autoSlideIntervalId
             setCurrentSlideIndex setSlideIndex setAutoSlideIntervalId];
        rewrite ?A, ?B, ?C; repeat split; try lia; reflexivity. }
  destruct G as (A & _ & _ & D). split; assumption.
Qed.

Lemma X8_no_looping_saturates_witness :
  slideIndex (core (Nat.iter 5 nextSlide noLoopLastWorld)) = Z.min (3 + 5) 3.
Proof.
  assert (R : 1 <= slideIndex (core noLoopLastWorld)
                <= totalSlides (core noLoopLastWorld))
    by (change (1 <= 3 <= 3); lia).
  exact (proj1 (X8_no_looping_saturates noLoopLastWorld 5 eq_refl R)).
Defined.

(* ------------------------------------------------------------------ *)
(** ** Teardown *)




(* ------------------------------------------------------------------ *)
(** ** The public API *)

Lemma mayAutoplay_goToSlide (n : Z) (w : World) :
  mayAutoplay (core (goToSlide n w)) = mayAutoplay (core w).
Proof. rewrite core_goToSlide. now destruct (_ && _). Qed.

Lemma apiGoToSlide_number (w : World) (n : Z) :
  apiGoToSlide (Some w) (Some n)
  = if (1 <=? n) && (n <=? totalSlides (core w))
    then (true, Some (startAutoSlide (goToSlide n w)))
    else (false, Some w).
Proof.
  unfold apiGoToSlide, numLt, numGt, goToSlideArg.
  destruct (Z.ltb_spec n 1); destruct (Z.ltb_spec (totalSlides (core w)) n);
    destruct (Z.leb_spec 1 n); destruct (Z.leb_spec n (totalSlides (core w)));
    cbn; try reflexivity; lia.
Qed.

(** X10: [Drupal.vvjs.goToSlide] answers false and leaves the instance
    untouched when there is no such slideshow or the number is out of
    range.  With a number in range it answers true, the index is that
    number and autoplay is restarted (armed exactly when it may run).
    With [NaN] or a missing number both range tests are false: it answers
    true although the slide does not change. *)
Theorem X10_api_goToSlide (inst : option World) (index : option Z) :
  let r := apiGoToSlide inst index in
  (fst r = true <->
   exists w, inst = Some w
             /\ (index = None
                 \/ exists n, index = Some n /\ 1 <= n <= totalSlides (core w)))
  /\ (fst r = false -> snd r = inst)
  /\ (forall w n, inst = Some w -> index = Some n -> fst r = true ->
      exists w', snd r = Some w'
                 /\ slideIndex (core w') = n
                 /\ (autoSlideIntervalId (core w') <> None
                     <-> mayAutoplay (core w) = true))
  /\ (forall w, inst = Some w -> index = None ->
      r = (true, Some (startAutoSlide w))
      /\ slideIndex (core (startAutoSlide w)) = slideIndex (core w)).
Proof.
  cbv zeta. destruct inst as [w|].
  2:{ cbn. split; [split; [discriminate | intros (w & E & _); discriminate]|].
      split; [reflexivity|]. split; intros; discriminate. }
  destruct index as [n|].
  - rewrite apiGoToSlide_number.
    destruct ((1 <=? n) && (n <=? totalSlides (core w))) eqn:E.
    + apply andb_true_iff in E. destruct E as [A B].
      apply Z.leb_le in A. apply Z.leb_le in B. cbn [fst snd].
      split; [split; [intros _; exists w; split; [reflexivity|]; right;
                      exists n; split; [reflexivity | lia]
                     | reflexivity]|].
      split; [discriminate|]. split; [|intros; discriminate].
      intros w' n' Ew En _. injection Ew as <-. injection En as <-.
      eexists. split; [reflexivity|].
      rewrite core_startAutoSlide, mayAutoplay_goToSlide, core_goToSlide.
      destruct (Z.leb_spec 1 n); [|lia].
      destruct (Z.leb_spec n (totalSlides (core w))); [|lia]. cbn.
      split; [reflexivity|].
      destruct (mayAutoplay (core w)); split; intro HH; congruence.
    + cbn [fst snd].
      split; [split; [discriminate|]|].
      { intros (w' & Ew & [N | (n' & N & Rg)]); [discriminate|].
        injection Ew as <-. injection N as <-.
        destruct (Z.leb_spec 1 n); destruct (Z.leb_spec n (totalSlides (core w)));
          cbn in E; try discriminate; lia. }
      split; [reflexivity|]. split; intros; discriminate.
  - cbn.
    split; [split; [intros _; exists w; split; [reflexivity | now left]
                   | reflexivity]|].
    split; [discriminate|]. split; [intros; discriminate|].
    intros w' E _. injection E as <-. split; [reflexivity|].
    now rewrite core_startAutoSlide.
Qed.

(** X11: [Drupal.vvjs.pause] answers true exactly when the slideshow
    exists and was playing; afterwards it is paused either way, with the
    same slide, and a second [pause] answers false and changes nothing.
    A following [resume] answers true and unpauses it, still on the same
    slide.  Both answer false for a missing slideshow. *)
Theorem X11_api_pause_resume (w : World) :
  exists w1,
    apiPause (Some w) = (negb (isPaused (core w)), Some w1)
    /\ isPaused (core w1) = true
    /\ slideIndex (core w1) = slideIndex (core w)
    /\ (isPaused (core w) = false -> autoSlideIntervalId (core w1) = None)
    /\ apiPause (Some w1) = (false, Some w1)
    /\ (exists w2,
          apiResume (Some w1) = (true, Some w2)
          /\ isPaused (core w2) = false
          /\ slideIndex (core w2) = slideIndex (core w))
    /\ apiPause None = (false, None)
    /\ apiResume None = (false, None).
Proof.
  unfold apiPause.
  destruct (isPaused (core w)) eqn:P; cbn [negb].
  - exists w. split; [reflexivity|]. split; [exact P|].
    split; [reflexivity|]. split; [discriminate|].
    rewrite P. cbn [negb]. split; [reflexivity|]. split; [|now split].
    unfold apiResume. rewrite P. eexists. split; [reflexivity|].
    rewrite core_togglePause. cbn. now rewrite P.
  - exists (togglePause w). split; [reflexivity|].
    assert (C : core (togglePause w)
                = setAutoSlideIntervalId None (setIsPaused true (core w))).
    { rewrite core_togglePause. cbn zeta. rewrite P. cbn [negb].
      unfold mayAutoplay. cbn. now rewrite andb_false_r. }
    rewrite C. cbn. split; [reflexivity|]. split; [reflexivity|].
    split; [reflexivity|]. split; [reflexivity|]. split; [|now split].
    unfold apiResume. rewrite C. cbn. eexists. split; [reflexivity|].
    rewrite core_togglePause, C. cbn. now split.
Qed.

(** X12: [pauseAll] leaves every slideshow of the page paused and on its
    slide; [resumeAll] after it leaves every one unpaused - also those
    that were already paused before [pauseAll]. *)
Theorem X12_pauseAll_resumeAll (ws : list World) :
  Forall (fun w => isPaused (core w) = true) (pauseAll ws)
  /\ map (fun w => slideIndex (core w)) (pauseAll ws)
     = map (fun w => slideIndex (core w)) ws
  /\ Forall (fun w => isPaused (core w) = false) (resumeAll (pauseAll ws))
  /\ map (fun w => slideIndex (core w)) (resumeAll (pauseAll ws))
     = map (fun w => slideIndex (core w)) ws.
Proof.
  assert (T : forall w, isPaused (core (togglePause w)) = negb (isPaused (core w))
                        /\ slideIndex (core (togglePause w))
                           = slideIndex (core w)).
  { intro w. rewrite core_togglePause. now split. }
  induction ws as [|w ws (A & B & C & D)]; [now repeat split|].
  cbn [pauseAll resumeAll map].
  assert (P1 : isPaused (core (if negb (isPaused (core w)) then togglePause w
                               else w)) = true
               /\ slideIndex (core (if negb (isPaused (core w))
                                    then togglePause w else w))
                  = slideIndex (core w)).
  { destruct (isPaused (core w)) eqn:P; cbn [negb]; [now split|].
    destruct (T w) as [T1 T2]. rewrite T1, T2, P. now split. }
  destruct P1 as [P1 S1]. rewrite P1.
  destruct (T (if negb (isPaused (core w)) then togglePause w else w))
    as [T1 T2].
  split; [constructor; [exact P1 | exact A]|].
  split; [cbn; f_equal; [exact S1 | exact B]|].
  split; [constructor; [rewrite T1, P1; reflexivity | exact C]|].
  cbn. f_equal; [rewrite T2; exact S1 | exact D].
Qed.

(* ------------------------------------------------------------------ *)
(** ** Keyboard *)

Lemma slideIndex_startAutoSlide (w : World) :
  slideIndex (core (startAutoSlide w)) = slideIndex (core w).
Proof. now rewrite core_startAutoSlide. Qed.

(** X13: with keyboard navigation on, the slideshow in focus and the key
    not typed into a form field, Home shows the first slide, End the last
    one, the arrows do what [nextSlide] and [prevSlide] do, and the space
    key flips the paused flag (each arrow or Home/End press restarts
    autoplay).  Any other key, and any key at all when keyboard
    navigation is off, the slideshow is out of focus or the target is a
    form field, changes nothing. *)
Theorem X13_keyboard (w : World) (key : string) (en inField focused : bool) :
  reachable w ->
  slideIndex (core (handleKeydown true false true "Home" w)) = 1
  /\ slideIndex (core (handleKeydown true false true "End" w))
     = totalSlides (core w)
  /\ handleKeydown true false true "ArrowRight" w = startAutoSlide (nextSlide w)
  /\ handleKeydown true false true "ArrowLeft" w = startAutoSlide (prevSlide w)
  /\ isPaused (core (handleKeydown true false true " " w))
     = negb (isPaused (core w))
  /\ (en = false \/ inField = true \/ focused = false ->
      handleKeydown en inField focused key w = w)
  /\ (~ In key ["ArrowRight"; "ArrowLeft"; " "; "Spacebar"; "Home"; "End"]%string ->
      handleKeydown en inField focused key w = w).
Proof.
  intro R. destruct (reachable_coreInv w R) as [[Rg _] T].
  unfold handleKeydown. cbn [negb String.eqb Ascii.eqb Bool.eqb orb andb].
  rewrite !slideIndex_startAutoSlide, !core_goToSlide.
  split.
  { destruct (Z.leb_spec 1 (totalSlides (core w))); [reflexivity | lia]. }
  split.
  { rewrite Z.leb_refl.
    destruct (Z.leb_spec 1 (totalSlides (core w))); [reflexivity | lia]. }
  split; [reflexivity|]. split; [reflexivity|].
  split; [now rewrite core_togglePause|].
  split.
  - intros [-> | [-> | ->]]; [reflexivity | |].
    + now destruct en.
    + destruct en; [|reflexivity]. now destruct inField.
  - intro N.
    destruct en; [|reflexivity]. destruct inField; [reflexivity|].
    destruct focused; [|reflexivity]. cbn [negb].
    repeat match goal with
           | |- context [String.eqb key ?s] =>
               destruct (String.eqb_spec key s) as [->|_];
               [exfalso; apply N; cbn; tauto|]
           end.
    reflexivity.
Qed.

Lemma X13_keyboard_witness :
  slideIndex (core (handleKeydown true false true "End" plainWorld)) = 3.
Proof.
  exact (proj1 (proj2
    (X13_keyboard plainWorld "x" true false true
       (reach_init plain 3 1%positive false true None ltac:(lia))))).
Defined.

(* ------------------------------------------------------------------ *)
(** ** The active slide and dot *)

Lemma nth_activeFlags_from (cur : Z) (n s i : nat) :
  nth i (map (fun index => Z.of_nat index + 1 =? cur) (seq s n)) false
  = (Nat.ltb i n && (Z.of_nat (s + i) + 1 =? cur))%bool.
Proof.
  revert s i. induction n as [|n IH]; intros s i.
  - now destruct i.
  - cbn [seq map]. destruct i as [|i].
    + cbn [nth]. now rewrite Nat.add_0_r.
    + cbn [nth]. rewrite IH.
      replace (S s + i)%nat with (s + S i)%nat by lia. reflexivity.
Qed.

Lemma count_activeFlags_from (cur : Z) (n s : nat) :
  List.length
    (filter (fun b : bool => b)
       (map (fun index => Z.of_nat index + 1 =? cur) (seq s n)))
  = if (Z.of_nat s + 1 <=? cur) && (cur <=? Z.of_nat s + Z.of_nat n)
    then 1%nat else 0%nat.
Proof.
  revert s. induction n as [|n IH]; intro s.
  - cbn. destruct (Z.leb_spec (Z.of_nat s + 1) cur);
      destruct (Z.leb_spec cur (Z.of_nat s + 0)); cbn; try reflexivity; lia.
  - cbn [seq map filter].
    destruct (Z.eqb_spec (Z.of_nat s + 1) cur) as [E|E]; cbn [List.length];
      rewrite IH;
      destruct (Z.leb_spec (Z.of_nat (S s) + 1) cur);
      destruct (Z.leb_spec cur (Z.of_nat (S s) + Z.of_nat n));
      destruct (Z.leb_spec (Z.of_nat s + 1) cur);
      destruct (Z.leb_spec cur (Z.of_nat s + Z.of_nat (S n)));
      cbn; try reflexivity; lia.
Qed.

(** X14: in every reachable world the flags that
    [updateAccessibilityAttributes] computes for the slides (and
    [updateDots] for as many dots) mark exactly one position active: the
    one of the current slide. *)
Theorem X14_exactly_one_active (w : World) :
  reachable w ->
  let flags :=
    activeFlags (Z.to_nat (totalSlides (core w))) (slideIndex (core w)) in
  List.length flags = Z.to_nat (totalSlides (core w))
  /\ List.length (filter (fun b : bool => b) flags) = 1%nat
  /\ forall i, nth i flags false = true <-> Z.of_nat i + 1 = slideIndex (core w).
Proof.
  intros R flags. destruct (reachable_coreInv w R) as [[Rg _] T].
  subst flags. unfold activeFlags.
  split; [now rewrite length_map, length_seq|]. split.
  - rewrite count_activeFlags_from.
    destruct (Z.leb_spec (Z.of_nat 0 + 1) (slideIndex (core w))); [|lia].
    destruct (Z.leb_spec (slideIndex (core w))
                (Z.of_nat 0 + Z.of_nat (Z.to_nat (totalSlides (core w)))));
      [reflexivity | lia].
  - intro i. rewrite nth_activeFlags_from, andb_true_iff, Nat.ltb_lt, Z.eqb_eq.
    cbn [Nat.add]. split; [tauto|]. intro E. split; [lia | exact E].
Qed.

Lemma X14_exactly_one_active_witness :
  List.length
    (filter (fun b : bool => b)
       (activeFlags (Z.to_nat (totalSlides (core crossfadeTwice)))
                    (slideIndex (core crossfadeTwice)))) = 1%nat.
Proof.
  exact (proj1 (proj2 (X14_exactly_one_active crossfadeTwice
    (reach_step _ _ (reach_step _ _
       (reach_init crossfadeClassic 3 1%positive false true None
          ltac:(lia))))))).
Defined.

(* ------------------------------------------------------------------ *)
(** ** Hover and page visibility *)

Lemma autoplay_after_start (w : World) :
  autoSlideIntervalId (core (startAutoSlide w)) <> None
  <-> mayAutoplay (core w) = true.
Proof.
  rewrite core_startAutoSlide. cbn.
  destruct (mayAutoplay (core w)); split; intro H; congruence.
Qed.

Lemma mayAutoplay_stopAutoSlide (w : World) :
  mayAutoplay (core (stopAutoSlide w)) = mayAutoplay (core w).
Proof. now rewrite core_stopAutoSlide. Qed.

(** X15: with pause-on-hover, entering the slides stops autoplay and
    leaving them calls [startAutoSlide]: afterwards the slide and the
    paused flag are what they were, and the interval is armed exactly when
    the slideshow may autoplay - also if it was not running before the
    mouse came in.  Without pause-on-hover both handlers do nothing. *)
Theorem X15_hover (ev : SlideshowEvents) (w : World) :
  let s1 := handleMouseEnter (ev, w) in
  let s2 := handleMouseLeave (fst s1) in
  (pauseOnHover ev = true ->
   autoSlideIntervalId (core (snd (fst s1))) = None
   /\ isMouseOver (fst (fst s1)) = true
   /\ isMouseOver (fst (fst s2)) = false
   /\ slideIndex (core (snd (fst s2))) = slideIndex (core w)
   /\ isPaused (core (snd (fst s2))) = isPaused (core w)
   /\ (autoSlideIntervalId (core (snd (fst s2))) <> None
       <-> mayAutoplay (core w) = true)
   /\ snd s1 = [MouseEnter] /\ snd s2 = [MouseLeave])
  /\ (pauseOnHover ev = false -> s1 = (ev, w, []) /\ s2 = (ev, w, [])).
Proof.
  cbv zeta. unfold handleMouseEnter, handleMouseLeave.
  split; intro P; rewrite P; cbn [fst snd pauseOnHover setIsMouseOver];
    rewrite ?P; cbn [fst snd isMouseOver setIsMouseOver].
  - rewrite autoplay_after_start, mayAutoplay_stopAutoSlide.
    rewrite core_startAutoSlide, !core_stopAutoSlide. cbn.
    repeat split; trivial.
  - now split.
Qed.

Lemma X15_hover_witness :
  autoSlideIntervalId
    (core (snd (fst (handleMouseEnter (newSlideshowEvents plain, plainWorld)))))
  = None.
Proof.
  exact (proj1 (proj1 (X15_hover (newSlideshowEvents plain) plainWorld)
                      eq_refl)).
Defined.

(** X16: when the page becomes hidden the autoplay interval is stopped.
    When it becomes visible again, autoplay is restarted exactly if the
    element passes the visibility check and the slideshow may autoplay
    (not paused, positive interval, core's visible flag set).  The slide
    and the paused flag are the same throughout. *)
Theorem X16_page_hidden_then_visible (r : Rect) (wh ww : Q)
  (v : SlideshowVisibility) (w : World) :
  let w1 := handlePageVisibilityChange true r wh ww (v, w) in
  let w2 := handlePageVisibilityChange false r wh ww (v, w1) in
  autoSlideIntervalId (core w1) = None
  /\ (forall h, autoSlideIntervalId (core w) = Some h -> ~ In h (intervals w1))
  /\ slideIndex (core w2) = slideIndex (core w)
  /\ isPaused (core w2) = isPaused (core w)
  /\ (autoSlideIntervalId (core w2) <> None
      <-> checkElementVisibility r wh ww v = true
          /\ mayAutoplay (core w) = true).
Proof.
  cbv zeta. unfold handlePageVisibilityChange.
  rewrite core_stopAutoSlide.
  cbn [autoSlideIntervalId isPaused setAutoSlideIntervalId].
  split; [reflexivity|]. split.
  { intros h Hh. rewrite intervals_stopAutoSlide, Hh. apply not_in_filter_neq. }
  destruct (checkElementVisibility r wh ww v).
  - destruct (isPaused (core w)) eqn:P; cbn [andb negb].
    + rewrite core_stopAutoSlide. cbn. rewrite P.
      split; [reflexivity|]. split; [reflexivity|].
      unfold mayAutoplay. rewrite P, andb_false_r. cbn.
      split; [congruence | intros [_ H]; discriminate].
    + rewrite autoplay_after_start, mayAutoplay_stopAutoSlide.
      rewrite core_startAutoSlide, core_stopAutoSlide. cbn. rewrite P.
      split; [reflexivity|]. split; [reflexivity|]. tauto.
  - cbn [andb]. rewrite core_stopAutoSlide. cbn.
    split; [reflexivity|]. split; [reflexivity|].
    split; [congruence | intros [H _]; discriminate].
Qed.

(* ------------------------------------------------------------------ *)
(** ** The element visibility check *)


Lemma Qeq_bool_false (x y : Q) : ~ (x == y)%Q -> Qeq_bool x y = false.
Proof.
  intro H. destruct (Qeq_bool x y) eqn:E; [|reflexivity].
  apply Qeq_bool_iff in E. contradiction.
Qed.

Lemma area_nonzero (r : Rect) :
  (0 < rect_height r)%Q -> (0 < rect_width r)%Q ->
  (0 < rect_height r * rect_width r)%Q
  /\ Qeq_bool (rect_height r * rect_width r) 0 = false.
Proof.
  intros H W.
  assert (P : (0 < rect_height r * rect_width r)%Q) by nra.
  split; [exact P|]. apply Qeq_bool_false. intro E. rewrite E in P.
  exact (Qlt_irrefl _ P).
Qed.



(** X18: an element of positive size that is off-screen above and to the
    left, farther out than its own height and width, passes
    [checkElementVisibility] as well, for every threshold up to 1: the
    two negative overlaps multiply to a positive area. *)
Theorem X18_diagonal_offscreen_counts_as_visible (r : Rect) (wh ww : Q)
  (v : SlideshowVisibility) :
  (0 < rect_height r)%Q -> (0 < rect_width r)%Q ->
  (0 <= wh)%Q -> (0 <= ww)%Q ->
  (rect_bottom r <= - rect_height r)%Q ->
  (rect_right r <= - rect_width r)%Q ->
  (visibilityThreshold v <= 1)%Q ->
  checkElementVisibility r wh ww v = true.
Proof.
  intros H W Hh Hw B R Hv.
  destruct (area_nonzero r H W) as [P NZ].
  unfold rect_bottom, rect_right in *.
  assert (VH : (visibleHeight r wh == rect_top r + rect_height r)%Q).
  { unfold visibleHeight, rect_bottom.
    rewrite Q.min_l by lra. rewrite Q.max_r by lra. ring. }
  assert (VW : (visibleWidth r ww == rect_left r + rect_width r)%Q).
  { unfold visibleWidth, rect_right.
    rewrite Q.min_l by lra. rewrite Q.max_r by lra. ring. }
  unfold checkElementVisibility. cbn zeta. rewrite NZ.
  apply Qle_bool_iff. rewrite VH, VW.
  apply Qle_shift_div_l; [exact P|]. nra.
Qed.

Lemma X18_diagonal_offscreen_counts_as_visible_witness :
  checkElementVisibility (mkRect (-1000) (-1000) 500 500) 800 1200
    newSlideshowVisibility = true.
Proof.
  apply (X18_diagonal_offscreen_counts_as_visible
           (mkRect (-1000) (-1000) 500 500) 800 1200 newSlideshowVisibility);
    vm_compute; first [reflexivity | discriminate].
Defined.

(** X19: an element of positive size that is off-screen above the
    viewport but horizontally inside it fails [checkElementVisibility]
    for every positive threshold. *)
Theorem X19_above_viewport_is_hidden (r : Rect) (wh ww : Q)
  (v : SlideshowVisibility) :
  (0 < rect_height r)%Q -> (0 < rect_width r)%Q -> (0 <= wh)%Q ->
  (rect_bottom r <= 0)%Q ->
  (0 <= rect_left r)%Q -> (rect_right r <= ww)%Q ->
  (0 < visibilityThreshold v)%Q ->
  checkElementVisibility r wh ww v = false.
Proof.
  intros H W Hh B L R Hv.
  destruct (area_nonzero r H W) as [P NZ].
  assert (VH : (visibleHeight r wh == rect_top r + rect_height r)%Q).
  { unfold visibleHeight, rect_bottom in *.
    rewrite Q.min_l by lra. rewrite Q.max_r by lra. ring. }
  assert (VW : (visibleWidth r ww == rect_width r)%Q).
  { unfold visibleWidth. rewrite (Q.min_l _ _ R), (Q.max_l _ _ L).
    unfold rect_right. ring. }
  unfold checkElementVisibility. cbn zeta. rewrite NZ.
  destruct (Qle_bool _ _) eqn:E; [|reflexivity].
  apply Qle_bool_iff in E. rewrite VH, VW in E.
  exfalso. unfold rect_bottom in B.
  assert (Q1 : ((rect_top r + rect_height r) * rect_width r
                / (rect_height r * rect_width r) <= 0)%Q).
  { apply Qle_shift_div_r; [exact P|]. nra. }
  lra.
Qed.

Lemma X19_above_viewport_is_hidden_witness :
  checkElementVisibility (mkRect (-600) 50 300 400) 800 1200
    newSlideshowVisibility = false.
Proof.
  apply (X19_above_viewport_is_hidden (mkRect (-600) 50 300 400) 800 1200
           newSlideshowVisibility);
    vm_compute; first [reflexivity | discriminate].
Defined.

(* ------------------------------------------------------------------ *)
(** ** More on the swipe recogniser *)

Lemma Qltb_false_le (x y : Q) : (y <= x)%Q -> Qltb x y = false.
Proof.
  intro H. destruct (Qltb x y) eqn:E; [|reflexivity].
  apply Qltb_lt in E. exfalso. exact (Qlt_not_le _ _ E H).
Qed.

(** X20: [setSwipeThreshold] keeps the drag threshold within [10, 200]
    and installs a value in that range as it is; so whatever threshold is
    asked for, a gesture that ends within 10 px of its horizontal start is
    never a swipe and changes nothing. *)
Theorem X20_threshold_clamped_taps_ignored (t : Q) (ev : SlideshowEvents)
  (w : World) :
  let ev' := setSwipeThreshold t ev in
  (10 <= dragThreshold ev' <= 200)%Q
  /\ ((10 <= t <= 200)%Q -> (dragThreshold ev' == t)%Q)
  /\ swipeDeltaX ev' = swipeDeltaX ev
  /\ ((Qabs (swipeDeltaX ev) <= 10)%Q ->
      isSwipe ev' = false /\ processSwipeGesture ev' w = w).
Proof.
  cbv zeta.
  assert (B : (10 <= Qmax 10 (Qmin 200 t) <= 200)%Q).
  { split; [apply Q.le_max_l|].
    apply Q.max_lub; [discriminate | apply Q.le_min_l]. }
  split; [exact B|]. split; [|split; [reflexivity|]].
  - intros [L U]. cbn. rewrite (Q.min_r _ _ U). now apply Q.max_r.
  - intro S.
    assert (F : isSwipe (setSwipeThreshold t ev) = false).
    { unfold isSwipe. apply andb_false_iff. left. apply Qltb_false_le.
      cbn [dragThreshold setSwipeThreshold].
      change (swipeDeltaX (setSwipeThreshold t ev)) with (swipeDeltaX ev).
      destruct B as [B _]. lra. }
    split; [exact F|]. unfold processSwipeGesture. cbn zeta. now rewrite F.
Qed.

Lemma X20_threshold_clamped_taps_ignored_witness :
  (dragThreshold (setSwipeThreshold 60 (newSlideshowEvents plain)) == 60)%Q.
Proof.
  apply (X20_threshold_clamped_taps_ignored 60 (newSlideshowEvents plain)
           plainWorld).
  vm_compute. split; discriminate.
Defined.

Lemma setIsDragging_idem (b b' : bool) (ev : SlideshowEvents) :
  setIsDragging b (setIsDragging b' ev) = setIsDragging b ev.
Proof. reflexivity. Qed.

Lemma setIsDragging_same (ev : SlideshowEvents) :
  setIsDragging (isDragging ev) ev = ev.
Proof. now destruct ev. Qed.

Lemma handlePointerMove_dragging (x y : Q) (ev : SlideshowEvents) :
  exists b, fst (handlePointerMove false x y ev) = setIsDragging b ev.
Proof.
  unfold handlePointerMove.
  destruct (negb (swipeEnabled ev));
    [exists (isDragging ev); now rewrite setIsDragging_same|].
  destruct (touchStartX ev), (touchStartY ev);
    try (exists (isDragging ev); now rewrite setIsDragging_same).
  destruct (_ && _);
    [now exists true | exists (isDragging ev); now rewrite setIsDragging_same].
Qed.

Lemma moves_only_touch_dragging (w : World) (moves : list PointerEvent)
  (ev : SlideshowEvents) :
  forallb isPointerMove moves = true ->
  exists b, fold_left (pointerStep false) moves (ev, w)
            = (setIsDragging b ev, w).
Proof.
  revert ev. induction moves as [|m moves IH]; intros ev F.
  - exists (isDragging ev). cbn. now rewrite setIsDragging_same.
  - cbn in F. apply andb_true_iff in F. destruct F as [M F].
    destruct m; try discriminate M. cbn [fold_left pointerStep fst snd].
    destruct (handlePointerMove_dragging x y ev) as [b E]. rewrite E.
    destruct (IH (setIsDragging b ev) F) as [b' E']. rewrite E'.
    exists b'. now rewrite setIsDragging_idem.
Qed.

(** X21: for a touch or pen gesture with swipe enabled - pointer down,
    any number of pointer moves, pointer up - the navigation that results
    depends only on where the pointer went down and where it came up: the
    moves in between (and the dragging flag they set) have no influence,
    and the recogniser ends idle, with no coordinates left. *)
Theorem X21_gesture_depends_on_endpoints (ev : SlideshowEvents) (w : World)
  (x0 y0 x1 y1 : Q) (moves : list PointerEvent) :
  swipeEnabled ev = true ->
  forallb isPointerMove moves = true ->
  fold_left (pointerStep false)
            (PointerDown x0 y0 :: moves ++ [PointerUp x1 y1]) (ev, w)
  = (resetTouchState ev,
     processSwipeGesture (setTouchEnd x1 y1 (setTouchStart x0 y0 ev)) w).
Proof.
  intros En F. cbn [fold_left pointerStep fst snd].
  rewrite fold_left_app.
  assert (D : handlePointerDown false x0 y0 ev = setTouchStart x0 y0 ev).
  { unfold handlePointerDown. now rewrite En. }
  rewrite D.
  destruct (moves_only_touch_dragging w moves (setTouchStart x0 y0 ev) F)
    as [b E].
  rewrite E. cbn [fold_left pointerStep handlePointerUp].
  cbn [swipeEnabled setIsDragging setTouchStart]. rewrite En.
  cbn [negb orb]. reflexivity.
Qed.

Lemma X21_gesture_depends_on_endpoints_witness :
  fold_left (pointerStep false)
            [PointerDown 200 100; PointerMove 180 101; PointerMove 150 103;
             PointerUp 140 105]
            (newSlideshowEvents plain, plainWorld)
  = (resetTouchState (newSlideshowEvents plain),
     processSwipeGesture
       (setTouchEnd 140 105 (setTouchStart 200 100 (newSlideshowEvents plain)))
       plainWorld).
Proof.
  exact (X21_gesture_depends_on_endpoints (newSlideshowEvents plain) plainWorld
           200 100 140 105 [PointerMove 180 101; PointerMove 150 103]
           eq_refl eq_refl).
Defined.

(** X22: a pointer-up (or touch-end) that arrives while no start position
    is recorded - none was seen, or a cancel or an earlier pointer-up
    cleared it - is still processed, with the missing start read as 0: it
    is a swipe exactly when |x| is above the threshold and |y| below 1.5
    times the threshold, x and y being the viewport coordinates of the
    pointer-up itself.  [handlePointerMove] ignores the same situation. *)
Theorem X22_pointer_up_without_start (ev : SlideshowEvents) (w : World)
  (x y : Q) :
  swipeEnabled ev = true ->
  touchStartX ev = None -> touchStartY ev = None ->
  snd (handlePointerUp false x y (ev, w))
  = processSwipeGesture (setTouchEnd x y ev) w
  /\ (isSwipe (setTouchEnd x y ev) = true
      <-> (dragThreshold ev < Qabs x)%Q
          /\ (Qabs y < dragThreshold ev * (3 # 2))%Q)
  /\ handlePointerMove false x y ev = (ev, false)
  /\ touchStartX (resetTouchState ev) = None.
Proof.
  intros En SX SY.
  split; [unfold handlePointerUp; rewrite En; reflexivity|].
  split; [|split; [|reflexivity]].
  - rewrite isSwipe_iff. unfold swipeDeltaX, swipeDeltaY.
    cbn [touchEndX touchEndY touchStartX touchStartY setTouchEnd dragThreshold].
    rewrite SX, SY. cbn [num].
    assert (EX : (x - 0 == x)%Q) by ring.
    assert (EY : (y - 0 == y)%Q) by ring.
    rewrite EX, EY. reflexivity.
  - unfold handlePointerMove. rewrite En, SX. reflexivity.
Qed.

Lemma X22_pointer_up_without_start_witness :
  isSwipe (setTouchEnd 300 5 (newSlideshowEvents plain)) = true
  <-> (dragThreshold (newSlideshowEvents plain) < Qabs 300)%Q
      /\ (Qabs 5 < dragThreshold (newSlideshowEvents plain) * (3 # 2))%Q.
Proof.
  exact (proj1 (proj2 (X22_pointer_up_without_start (newSlideshowEvents plain)
                         plainWorld 300 5 eq_refl eq_refl eq_refl))).
Defined.

(* ------------------------------------------------------------------ *)
(** ** Deep links *)

Lemma digits_cons (c : ascii) (r : string) (acc : option Z) (k : Z) :
  JS.digitOf c = Some k ->
  JS.digits (String c r) acc
  = JS.digits r (Some (10 * match acc with Some a => a | None => 0 end + k)).
Proof. intro E. cbn [JS.digits]. now rewrite E. Qed.

Lemma digits_uint_acc (d : Decimal.uint) (acc : positive) :
  JS.digits (NilEmpty.string_of_uint d) (Some (Z.pos acc))
  = Some (Z.pos (Pos.of_uint_acc d acc)).
Proof.
  revert acc. induction d as [|d IH|d IH|d IH|d IH|d IH|d IH|d IH|d IH|d IH|d IH];
    intro acc; cbn [NilEmpty.string_of_uint Pos.of_uint_acc]; [reflexivity|..].
  - rewrite (digits_cons "0" _ _ 0 eq_refl).
    replace (10 * Z.pos acc + 0) with (Z.pos (Pos.mul 10 acc))
      by lia. apply IH.
  - rewrite (digits_cons "1" _ _ 1 eq_refl).
    replace (10 * Z.pos acc + 1) with (Z.pos (Pos.add 1 (Pos.mul 10 acc)))
      by lia. apply IH.
  - rewrite (digits_cons "2" _ _ 2 eq_refl).
    replace (10 * Z.pos acc + 2) with (Z.pos (Pos.add 2 (Pos.mul 10 acc)))
      by lia. apply IH.
  - rewrite (digits_cons "3" _ _ 3 eq_refl).
    replace (10 * Z.pos acc + 3) with (Z.pos (Pos.add 3 (Pos.mul 10 acc)))
      by lia. apply IH.
  - rewrite (digits_cons "4" _ _ 4 eq_refl).
    replace (10 * Z.pos acc + 4) with (Z.pos (Pos.add 4 (Pos.mul 10 acc)))
      by lia. apply IH.
  - rewrite (digits_cons "5" _ _ 5 eq_refl).
    replace (10 * Z.pos acc + 5) with (Z.pos (Pos.add 5 (Pos.mul 10 acc)))
      by lia. apply IH.
  - rewrite (digits_cons "6" _ _ 6 eq_refl).
    replace (10 * Z.pos acc + 6) with (Z.pos (Pos.add 6 (Pos.mul 10 acc)))
      by lia. apply IH.
  - rewrite (digits_cons "7" _ _ 7 eq_refl).
    replace (10 * Z.pos acc + 7) with (Z.pos (Pos.add 7 (Pos.mul 10 acc)))
      by lia. apply IH.
  - rewrite (digits_cons "8" _ _ 8 eq_refl).
    replace (10 * Z.pos acc + 8) with (Z.pos (Pos.add 8 (Pos.mul 10 acc)))
      by lia. apply IH.
  - rewrite (digits_cons "9" _ _ 9 eq_refl).
    replace (10 * Z.pos acc + 9) with (Z.pos (Pos.add 9 (Pos.mul 10 acc)))
      by lia. apply IH.
Qed.

Lemma digits_uint_zero (d : Decimal.uint) :
  JS.digits (NilEmpty.string_of_uint d) (Some 0)
  = Some (Z.of_N (Pos.of_uint d)).
Proof.
  induction d as [|d IH|d _|d _|d _|d _|d _|d _|d _|d _|d _];
    cbn [NilEmpty.string_of_uint Pos.of_uint]; [reflexivity|..].
  - rewrite (digits_cons "0" _ _ 0 eq_refl). exact IH.
  - rewrite (digits_cons "1" _ _ 1 eq_refl). apply (digits_uint_acc d 1).
  - rewrite (digits_cons "2" _ _ 2 eq_refl). apply (digits_uint_acc d 2).
  - rewrite (digits_cons "3" _ _ 3 eq_refl). apply (digits_uint_acc d 3).
  - rewrite (digits_cons "4" _ _ 4 eq_refl). apply (digits_uint_acc d 4).
  - rewrite (digits_cons "5" _ _ 5 eq_refl). apply (digits_uint_acc d 5).
  - rewrite (digits_cons "6" _ _ 6 eq_refl). apply (digits_uint_acc d 6).
  - rewrite (digits_cons "7" _ _ 7 eq_refl). apply (digits_uint_acc d 7).
  - rewrite (digits_cons "8" _ _ 8 eq_refl). apply (digits_uint_acc d 8).
  - rewrite (digits_cons "9" _ _ 9 eq_refl). apply (digits_uint_acc d 9).
Qed.

Lemma parseInt_uint (d : Decimal.uint) :
  d <> Decimal.Nil ->
  JS.parseInt (Some (NilEmpty.string_of_uint d))
  = Some (Z.of_N (Pos.of_uint d)).
Proof.
  intro N. rewrite <- digits_uint_zero.
  destruct d; [contradiction|..]; reflexivity.
Qed.

Lemma parseInt_positive (p : positive) :
  JS.parseInt (Some (NilEmpty.string_of_uint (Pos.to_uint p))) = Some (Z.pos p).
Proof.
  rewrite parseInt_uint by apply DecimalPos.Unsigned.to_uint_nonnil.
  now rewrite DecimalPos.Unsigned.of_to.
Qed.

Lemma hasDash_uint (d : Decimal.uint) :
  hasDash (NilEmpty.string_of_uint d) = false.
Proof. induction d; cbn; trivial. Qed.

Lemma lastSegment_after_dash (p t : string) :
  hasDash t = false -> lastSegment (p ++ String "-" t) = t.
Proof.
  intro H. induction p as [|c p IH]; cbn [append lastSegment].
  - now rewrite H.
  - assert (D : hasDash (p ++ String "-" t) = true).
    { clear IH. induction p as [|c' p IH]; cbn; [reflexivity|].
      rewrite IH. apply orb_true_r. }
    now rewrite D.
Qed.

Lemma prefix_append (a b : string) : String.prefix a (a ++ b) = true.
Proof.
  induction a as [|c a IH]; cbn; [now destruct b|].
  destruct (ascii_dec c c); [exact IH | contradiction].
Qed.

Lemma append_assoc' (a b c : string) :
  ((a ++ b) ++ c = a ++ (b ++ c))%string.
Proof. induction a as [|x a IH]; cbn; [reflexivity | now rewrite IH]. Qed.

Lemma resolveHash_core (deeplinkId hash front : string) (p : positive)
  (total : Z) :
  hashMatches deeplinkId hash = true ->
  hash = (front ++ String "-" (NilEmpty.string_of_uint (Pos.to_uint p)))%string ->
  resolveHash deeplinkId hash total
  = if Z.pos p <=? total then Some (Z.pos p) else None.
Proof.
  intros M E. unfold resolveHash. rewrite M. subst hash.
  rewrite lastSegment_after_dash by apply hasDash_uint.
  rewrite parseInt_positive.
  destruct (Z.leb_spec 1 (Z.pos p)); [reflexivity | lia].
Qed.

Lemma hashMatches_own (deeplinkId rest : string) :
  hashMatches deeplinkId ("#" ++ deeplinkId ++ "-" ++ rest)%string = true.
Proof.
  unfold hashMatches. cbn [append].
  destruct (ascii_dec "#" "#") as [_|N]; [|contradiction].
  change (String "-" rest) with ("-" ++ rest)%string.
  rewrite <- append_assoc'. cbn [String.prefix].
  destruct (ascii_dec "#" "#") as [_|N]; [|contradiction].
  apply prefix_append.
Qed.

Lemma slideIndex_init_deepLink (d : Dataset) (n : Z) (h : positive)
  (rm vis : bool) (k : Z) :
  1 <= k <= n ->
  slideIndex (core (initSlideshow d n h rm vis (Some k))) = k.
Proof.
  intro R. unfold initSlideshow. cbn zeta.
  rewrite core_startAutoSlide.
  set (w4 := setVisibility vis _).
  assert (T : totalSlides (core w4) = n).
  { subst w4. rewrite core_setVisibility. cbn.
    unfold applyReducedMotion. destruct rm.
    - rewrite core_stopAutoSlide. cbn.
      now rewrite core_newSlideshowTransitions, core_newSlideshowCore.
    - now rewrite core_newSlideshowTransitions, core_newSlideshowCore. }
  rewrite T.
  destruct (Z.leb_spec 1 k); [|lia]. destruct (Z.leb_spec k n); [|lia].
  cbn [andb]. rewrite core_goToSlide, T.
  destruct (Z.leb_spec 1 k); [|lia]. destruct (Z.leb_spec k n); [|lia].
  reflexivity.
Qed.

(** X23: the fragment that the slide-changed listener writes for slide n
    resolves back to n: for 1 <= n <= total, a [hashchange] to
    [#<id>-<n>] navigates the slideshow [id] to slide n, and a page
    loaded with that fragment starts on slide n.  A fragment naming a
    number out of range resolves to nothing and is ignored. *)
Theorem X23_deep_link_round_trip (deeplinkId : string) (n total : Z) :
  1 <= n ->
  resolveHash deeplinkId (formatHash deeplinkId n) total
  = (if n <=? total then Some n else None)
  /\ (n <= total ->
      (forall w, totalSlides (core w) = total ->
                 slideIndex
                   (core (hashChangeHandler deeplinkId
                            (formatHash deeplinkId n) w)) = n)
      /\ forall d h rm vis,
           slideIndex
             (core (initSlideshow d total h rm vis
                      (resolveHash deeplinkId (formatHash deeplinkId n) total)))
           = n)
  /\ (total < n ->
      forall w, totalSlides (core w) = total ->
                hashChangeHandler deeplinkId (formatHash deeplinkId n) w = w).
Proof.
  intro Hn. destruct n as [|p|p]; try lia.
  assert (E : resolveHash deeplinkId (formatHash deeplinkId (Z.pos p)) total
              = if Z.pos p <=? total then Some (Z.pos p) else None).
  { apply (resolveHash_core _ _ (String "#" deeplinkId));
      [apply hashMatches_own | reflexivity]. }
  split; [exact E|]. split.
  - intro R. destruct (Z.leb_spec (Z.pos p) total) as [_|]; [|lia]. split.
    + intros w T. unfold hashChangeHandler. rewrite T, E.
      rewrite core_startAutoSlide, core_goToSlide, T.
      destruct (Z.leb_spec 1 (Z.pos p)); [|lia].
      destruct (Z.leb_spec (Z.pos p) total); [|lia]. reflexivity.
    + intros d h rm vis. rewrite E. apply slideIndex_init_deepLink. lia.
  - intros R w T. unfold hashChangeHandler. rewrite T, E.
    destruct (Z.leb_spec (Z.pos p) total); [lia | reflexivity].
Qed.

Lemma X23_deep_link_round_trip_witness :
  resolveHash "gallery" (formatHash "gallery" 12) 30 = Some 12.
Proof.
  exact (proj1 (X23_deep_link_round_trip "gallery" 12 30 ltac:(lia))).
Defined.

(** X24: the [hashchange] listener looks only at the prefix [#<id>-] and
    at what follows the last dash.  So the slideshow [id] also follows
    the fragment written for another slideshow whose identifier is [id],
    a dash and anything more; it ignores a fragment that does not start
    with [#<id>-], and one with nothing after the last dash. *)
Theorem X24_deep_link_prefix_match (deeplinkId suffix : string) (n total : Z)
  (w : World) :
  1 <= n <= total ->
  resolveHash deeplinkId
    (formatHash (deeplinkId ++ "-" ++ suffix) n) total = Some n
  /\ (forall hash, hashMatches deeplinkId hash = false ->
                   hashChangeHandler deeplinkId hash w = w)
  /\ hashChangeHandler deeplinkId ("#" ++ deeplinkId ++ "-") w = w.
Proof.
  intro R. destruct n as [|p|p]; try lia. split; [|split].
  - rewrite (resolveHash_core deeplinkId _
               (String "#" (deeplinkId ++ "-" ++ suffix)) p total).
    + destruct (Z.leb_spec (Z.pos p) total); [reflexivity | lia].
    + unfold formatHash. rewrite append_assoc'. apply hashMatches_own.
    + unfold formatHash, numberToString. cbn [append]. reflexivity.
  - intros hash M. unfold hashChangeHandler, resolveHash. now rewrite M.
  - unfold hashChangeHandler, resolveHash.
    assert (M : hashMatches deeplinkId ("#" ++ deeplinkId ++ "-") = true)
      by exact (hashMatches_own deeplinkId EmptyString).
    rewrite M.
    change ("#" ++ deeplinkId ++ "-")%string
      with (String "#" deeplinkId ++ String "-" EmptyString)%string.
    rewrite lastSegment_after_dash by reflexivity. reflexivity.
Qed.

Lemma X24_deep_link_prefix_match_witness :
  resolveHash "gal" (formatHash ("gal" ++ "-" ++ "lery") 3) 5 = Some 3.
Proof.
  exact (proj1 (X24_deep_link_prefix_match "gal" "lery" 3 5 plainWorld
                  ltac:(lia))).
Defined.

(* ------------------------------------------------------------------ *)
(** ** The progress bar *)

Lemma mathRound_integer (z : Z) : mathRound (inject_Z z) = z.
Proof.
  unfold mathRound.
  pose proof (Qfloor_le (inject_Z z + (1 # 2))) as L.
  pose proof (Qlt_floor (inject_Z z + (1 # 2))) as U.
  set (f := Qfloor (inject_Z z + (1 # 2))) in *.
  rewrite inject_Z_plus in U.
  assert (A : (f <= z)%Z).
  { apply Z.le_ngt. intro H.
    assert (H' : (z + 1 <= f)%Z) by lia.
    rewrite Zle_Qle in H'. rewrite inject_Z_plus in H'.
    change (inject_Z 1) with 1%Q in H'. lra. }
  assert (B : (z <= f)%Z).
  { apply Z.le_ngt. intro H.
    assert (H' : (f + 1 <= z)%Z) by lia.
    rewrite Zle_Qle in H'. rewrite inject_Z_plus in H'.
    change (inject_Z 1) with 1%Q in *. lra. }
  lia.
Qed.

Lemma mathRound_bounds (x : Q) :
  (0 <= x <= 100)%Q -> 0 <= mathRound x <= 100.
Proof.
  intros [L U]. unfold mathRound. split.
  - change 0 with (Qfloor (0 + (1 # 2))). apply Qfloor_resp_le. lra.
  - change 100 with (Qfloor (100 + (1 # 2))). apply Qfloor_resp_le. lra.
Qed.

(** X25: while the bar is active, with a positive slide time and the
    clock not before the start time, [updateProgress] writes a percentage
    between 0 and 100, both as the exact style value and as the rounded
    [aria-valuenow]; it is min(100, elapsed / slideTime * 100), and the
    50 ms interval is given up exactly when the slide time has elapsed
    (or there was no interval).  With a slide time of zero or less
    [startProgress] does nothing. *)
Theorem X25_progress_bounds (now : Q) (slideTime : Z) (p : SlideshowProgress) :
  0 < slideTime -> progressActive p = true -> (slideStartTime p <= now)%Q ->
  let p' := updateProgress now slideTime p in
  (0 <= cssProgress p' <= 100)%Q
  /\ 0 <= ariaValueNow p' <= 100
  /\ (cssProgress p'
      == Qmin 100 ((now - slideStartTime p) / inject_Z slideTime * 100))%Q
  /\ (progressIntervalId p' = None
      <-> progressIntervalId p = None
          \/ (inject_Z slideTime <= now - slideStartTime p)%Q)
  /\ forall t h q, t <= 0 -> startProgress now t h q = q.
Proof.
  intros T A S p'.
  assert (TQ : (0 < inject_Z slideTime)%Q).
  { change 0%Q with (inject_Z 0). rewrite <- Zlt_Qlt. exact T. }
  set (elapsed := (now - slideStartTime p)%Q) in *.
  assert (E0 : (0 <= elapsed)%Q) by (subst elapsed; lra).
  set (progress := Qmin 100 (elapsed / inject_Z slideTime * 100)%Q).
  assert (R0 : (0 <= elapsed / inject_Z slideTime * 100)%Q).
  { apply Qmult_le_0_compat; [|discriminate].
    apply Qle_shift_div_l; [exact TQ|]. lra. }
  assert (PB : (0 <= progress <= 100)%Q).
  { subst progress. split; [apply Q.min_glb; [discriminate | exact R0]
                           | apply Q.le_min_l]. }
  assert (Full : (100 <= progress)%Q <-> (inject_Z slideTime <= elapsed)%Q).
  { subst progress. split; intro H.
    - assert (H1 : (100 <= elapsed / inject_Z slideTime * 100)%Q).
      { eapply Qle_trans; [exact H | apply Q.le_min_r]. }
      assert (H2 : (1 <= elapsed / inject_Z slideTime)%Q) by lra.
      apply (Qmult_le_compat_r _ _ (inject_Z slideTime)) in H2; [|lra].
      rewrite Qmult_1_l in H2.
      rewrite Qmult_comm, Qmult_div_r in H2; [exact H2|]. lra.
    - apply Q.min_glb; [lra|].
      assert (H2 : (1 <= elapsed / inject_Z slideTime)%Q).
      { apply Qle_shift_div_l; [exact TQ|]. lra. }
      lra. }
  assert (Shape :
    p' = (if Qle_bool 100 progress
          then immediateStop
                 (mkProgress (showProgress p) (hasProgressBar p)
                    (progressIntervalId p) (slideStartTime p)
                    (progressActive p) (mathRound progress) progress)
          else mkProgress (showProgress p) (hasProgressBar p)
                 (progressIntervalId p) (slideStartTime p)
                 (progressActive p) (mathRound progress) progress)).
  { subst p'. unfold updateProgress. rewrite A. reflexivity. }
  assert (F : cssProgress p' = progress /\ ariaValueNow p' = mathRound progress
              /\ (progressIntervalId p' = None
                  <-> progressIntervalId p = None
                      \/ Qle_bool 100 progress = true)).
  { rewrite Shape. unfold immediateStop.
    destruct (Qle_bool 100 progress); cbn;
      destruct (progressIntervalId p); cbn;
      (split; [reflexivity|]; split; [reflexivity|]);
      split; intro H; try tauto; try discriminate; auto.
    destruct H as [H|H]; discriminate. }
  destruct F as (F1 & F2 & F3).
  rewrite F1, F2.
  split; [exact PB|]. split; [now apply mathRound_bounds|].
  split; [reflexivity|]. split.
  - rewrite F3, Qle_bool_iff, Full. reflexivity.
  - intros t h q Ht. unfold startProgress.
    destruct (Z.leb_spec t 0); [|lia]. now rewrite orb_true_r.
Qed.

Lemma X25_progress_bounds_witness :
  (cssProgress
     (updateProgress 2500 5000 (mkProgress true true (Some 7%positive) 0 true 0 0))
   == Qmin 100 ((2500 - 0) / inject_Z 5000 * 100))%Q.
Proof.
  apply (X25_progress_bounds 2500 5000
           (mkProgress true true (Some 7%positive) 0 true 0 0));
    [lia | reflexivity | discriminate].
Defined.

(** X26: resuming picks up where the bar stood.  With the slideshow not
    paused, a bar shown at a whole percentage a below 100, and a non-zero
    slide time, [resumeProgress] at time [now] moves the start time back
    so that an update at that same instant shows a again, and an update
    d ms later shows min(100, a + d / slideTime * 100).  When progress is
    configured but the bar element is missing, the call throws. *)
Theorem X26_progress_resume_round_trip (now d : Q) (slideTime : Z)
  (h : positive) (p : SlideshowProgress) :
  slideTime <> 0 -> showProgress p = true ->
  ariaValueNow p < 100 ->
  (hasProgressBar p = true ->
   exists p1,
     resumeProgress now false slideTime h p = Some p1
     /\ progressActive p1 = true
     /\ progressIntervalId p1 = Some h
     /\ (cssProgress (updateProgress (now + d) slideTime p1)
         == Qmin 100 (inject_Z (ariaValueNow p)
                      + d / inject_Z slideTime * 100))%Q
     /\ (0 <= ariaValueNow p ->
         ariaValueNow (updateProgress now slideTime p1) = ariaValueNow p))
  /\ (hasProgressBar p = false ->
      resumeProgress now false slideTime h p = None).
Proof.
  intros T S A. split; intro B.
  2:{ unfold resumeProgress. now rewrite S, B. }
  assert (TQ : ~ (inject_Z slideTime == 0)%Q).
  { intro E. apply T.
    exact (proj1 (inject_Z_injective slideTime 0) E). }
  assert (AQ : (inject_Z (ariaValueNow p) < 100)%Q).
  { change 100%Q with (inject_Z 100). rewrite <- Zlt_Qlt. exact A. }
  unfold resumeProgress. rewrite S, B. cbn [negb andb].
  rewrite (proj2 (Qltb_lt _ _) AQ).
  eexists. split; [reflexivity|]. split; [reflexivity|].
  split; [reflexivity|].
  assert (V : forall e,
    (((now + e)
      - (now - (inject_Z slideTime
                - inject_Z slideTime * (1 - inject_Z (ariaValueNow p) / 100))))
     / inject_Z slideTime * 100
     == inject_Z (ariaValueNow p) + e / inject_Z slideTime * 100)%Q).
  { intro e. field. exact TQ. }
  split.
  - unfold updateProgress. cbn [progressActive negb slideStartTime].
    match goal with
    | |- context [if Qle_bool 100 ?x then _ else _] =>
        destruct (Qle_bool 100 x)
    end; cbn [cssProgress immediateStop progressIntervalId];
      cbn [cssProgress]; rewrite (V d); reflexivity.
  - intro A0.
    assert (AL : (0 <= inject_Z (ariaValueNow p))%Q).
    { change 0%Q with (inject_Z 0). rewrite <- Zle_Qle. exact A0. }
    assert (P0 : (Qmin 100
                    ((now
                      - (now - (inject_Z slideTime
                                - inject_Z slideTime
                                  * (1 - inject_Z (ariaValueNow p) / 100))))
                     / inject_Z slideTime * 100)
                  == inject_Z (ariaValueNow p))%Q).
    { assert (V0 := V 0%Q). assert (N0 : (now + 0 == now)%Q) by ring.
      rewrite N0 in V0. rewrite V0.
      assert (Z0 : (0 / inject_Z slideTime * 100 == 0)%Q)
        by (field; exact TQ).
      rewrite Z0, Qplus_0_r. apply Q.min_r. lra. }
    unfold updateProgress. cbn [progressActive negb slideStartTime].
    match goal with
    | |- context [if Qle_bool 100 ?x then _ else _] =>
        destruct (Qle_bool 100 x) eqn:E
    end.
    + apply Qle_bool_iff in E. rewrite P0 in E. lra.
    + cbn [ariaValueNow]. unfold mathRound.
      rewrite P0. apply mathRound_integer.
Qed.

Lemma X26_progress_resume_round_trip_witness :
  resumeProgress 9000 false 5000 3%positive
    (mkProgress true false None 0 false 40 40) = None.
Proof.
  apply (proj2 (X26_progress_resume_round_trip 9000 0 5000 3%positive
                  (mkProgress true false None 0 false 40 40)
                  ltac:(lia) eq_refl ltac:(cbn; lia)) eq_refl).
Defined.

(* ------------------------------------------------------------------ *)
(** ** Scroll fallback *)

(** X27: the scroll fallback reports a visibility verdict to the engine
    only when it differs from the last one it reported: a second
    [handleScroll] with the geometry unchanged leaves the visibility
    module and the engine as they are and dispatches nothing, and a
    scroll whose verdict equals the remembered one never reaches
    [setVisibility]. *)
Theorem X27_scroll_reports_changes_only (r : Rect) (wh ww : Q)
  (v : SlideshowVisibility) (w : World) :
  let s1 := handleScroll r wh ww (v, w) in
  handleScroll r wh ww (fst s1) = (fst s1, [])
  /\ previousVisibility (fst (fst s1)) = checkElementVisibility r wh ww v
  /\ (checkElementVisibility r wh ww v = previousVisibility v ->
      s1 = (v, w, []))
  /\ (checkElementVisibility r wh ww v <> previousVisibility v ->
      snd (fst s1) = setVisibility (checkElementVisibility r wh ww v) w
      /\ snd s1 = [VisibilityChanged (checkElementVisibility r wh ww v)]).
Proof.
  cbv zeta.
  assert (T : forall v', visibilityThreshold v' = visibilityThreshold v ->
            checkElementVisibility r wh ww v'
            = checkElementVisibility r wh ww v).
  { intros v' E. unfold checkElementVisibility. now rewrite E. }
  destruct (Bool.eqb (checkElementVisibility r wh ww v) (previousVisibility v))
    eqn:E.
  - assert (S1 : handleScroll r wh ww (v, w) = (v, w, [])).
    { unfold handleScroll. cbv zeta. now rewrite E. }
    rewrite S1. cbn [fst snd]. apply Bool.eqb_prop in E.
    split; [exact S1|]. split; [now symmetry|].
    split; [reflexivity | intro N; congruence].
  - set (now := checkElementVisibility r wh ww v) in *.
    assert (S1 : handleScroll r wh ww (v, w)
                 = (mkVisibility now now (visibilityThreshold v),
                    setVisibility now w, [VisibilityChanged now])).
    { unfold handleScroll. cbv zeta. fold now. now rewrite E. }
    rewrite S1. cbn [fst snd previousVisibility].
    split.
    + unfold handleScroll. cbv zeta. rewrite T by reflexivity.
      cbn [previousVisibility]. now rewrite Bool.eqb_reflx.
    + split; [reflexivity|]. split.
      * intro H. rewrite H, Bool.eqb_reflx in E. discriminate.
      * intros _. now split.
Qed.

(* ------------------------------------------------------------------ *)
(** ** Which slide the crossfade styles show *)

Lemma length_updateAt {A : Type} (i : nat) (f : A -> A) (l : list A) :
  List.length (updateAt i f l) = List.length l.
Proof.
  revert i. induction l as [|x l IH]; intro i; [now destruct i|].
  destruct i; cbn; [reflexivity | now rewrite IH].
Qed.

Lemma nth_updateAt {A : Type} (i k : nat) (f : A -> A) (l : list A) (d : A) :
  (i < List.length l)%nat ->
  nth k (updateAt i f l) d = if Nat.eqb k i then f (nth k l d) else nth k l d.
Proof.
  revert i k. induction l as [|x l IH]; intros i k H; [cbn in H; lia|].
  destruct i as [|i]; destruct k as [|k]; cbn; try reflexivity.
  apply IH. cbn in H. lia.
Qed.

Lemma nth_map_seq {A : Type} (g : nat -> A) (d : A) (n s k : nat) :
  nth k (map g (seq s n)) d = if Nat.ltb k n then g (s + k)%nat else d.
Proof.
  revert s k. induction n as [|n IH]; intros s k.
  - now destruct k.
  - cbn [seq map]. destruct k as [|k].
    + cbn. now rewrite Nat.add_0_r.
    + cbn [nth]. rewrite IH.
      replace (S s + k)%nat with (s + S k)%nat by lia. reflexivity.
Qed.

Lemma nth_onlyShown (n k : nat) (cur : Z) :
  (k < n)%nat ->
  nth k (onlyShown n cur) hidden
  = if Z.of_nat k + 1 =? cur then shown else hidden.
Proof.
  intro H. unfold onlyShown. rewrite nth_map_seq.
  destruct (Nat.ltb_spec k n); [reflexivity | lia].
Qed.

Lemma length_onlyShown (n : nat) (cur : Z) : List.length (onlyShown n cur) = n.
Proof. unfold onlyShown. now rewrite length_map, length_seq. Qed.

Lemma nth_applyCrossfadeStyles (o inc k : nat) (l : list SlideStyle) :
  (o < List.length l)%nat -> (inc < List.length l)%nat ->
  nth k (applyCrossfadeStyles (Some o) inc l) hidden
  = let s := nth k l hidden in
    let s1 := if Nat.eqb k o then mkStyle (st_opaque s) 1 false true else s in
    let s2 := if Nat.eqb k inc then mkStyle (st_opaque s1) 2 true false
              else s1 in
    let s3 := if Nat.eqb k o
              then mkStyle false (st_zIndex s2) (st_active s2) (st_previous s2)
              else s2 in
    if Nat.eqb k inc
    then mkStyle true (st_zIndex s3) (st_active s3) (st_previous s3)
    else s3.
Proof.
  intros Ho Hi. unfold applyCrossfadeStyles. cbn zeta.
  rewrite !nth_updateAt; rewrite ?length_updateAt; try assumption.
  reflexivity.
Qed.

Lemma slidePosition_in_range (n : nat) (i : Z) :
  1 <= i <= Z.of_nat n ->
  slidePosition n i = Some (Z.to_nat (i - 1))
  /\ (Z.to_nat (i - 1) < n)%nat
  /\ Z.of_nat (Z.to_nat (i - 1)) + 1 = i.
Proof.
  intro H. unfold slidePosition.
  destruct (Z.leb_spec 1 i); destruct (Z.leb_spec i (Z.of_nat n)); try lia.
  cbn. repeat split; lia.
Qed.

Lemma crossfade_names (ty v : string) :
  variantOf ty = Some v ->
  String.eqb ty "instant" = false /\ String.prefix "crossfade" ty = true.
Proof.
  unfold variantOf.
  destruct (String.eqb ty "instant"); [discriminate|].
  destruct (String.eqb_spec ty "crossfade-classic") as [->|_]; [now split|].
  destruct (String.eqb_spec ty "crossfade-staged") as [->|_]; [now split|].
  destruct (String.eqb_spec ty "crossfade-dynamic") as [->|_]; [now split|].
  discriminate.
Qed.

Lemma performTransitionStyles_onlyShown (ty v : string) (n : nat) (cur t : Z) :
  variantOf ty = Some v ->
  1 <= cur <= Z.of_nat n -> 1 <= t <= Z.of_nat n ->
  performTransitionStyles ty cur t (onlyShown n cur) = onlyShown n t.
Proof.
  intros V Rc Rt. unfold performTransitionStyles. cbn zeta.
  rewrite length_onlyShown, V.
  destruct (slidePosition_in_range n cur Rc) as (Pc & Lc & Ec).
  destruct (slidePosition_in_range n t Rt) as (Pt & Lt & Et).
  rewrite Pc, Pt.
  destruct (Z.eqb_spec cur 0); [lia|].
  apply (nth_ext _ _ hidden hidden).
  - unfold applyCrossfadeStyles. now rewrite !length_updateAt, !length_onlyShown.
  - intros k Hk.
    unfold applyCrossfadeStyles in Hk.
    rewrite !length_updateAt, length_onlyShown in Hk.
    rewrite nth_applyCrossfadeStyles by (now rewrite length_onlyShown).
    cbn zeta. rewrite !nth_onlyShown by assumption.
    destruct (Nat.eqb_spec k (Z.to_nat (cur - 1)));
      destruct (Nat.eqb_spec k (Z.to_nat (t - 1)));
      destruct (Z.eqb_spec (Z.of_nat k + 1) cur);
      destruct (Z.eqb_spec (Z.of_nat k + 1) t);
      try lia; reflexivity.
Qed.

Lemma last_cons_default {A : Type} (x : A) (l : list A) (d d' : A) :
  last (x :: l) d = last (x :: l) d'.
Proof.
  revert x. induction l as [|y l IH]; intro x; [reflexivity|].
  change (last (y :: l) d = last (y :: l) d'). apply IH.
Qed.

Lemma styleRun_onlyShown (ty v : string) (n : nat) (targets : list Z) :
  variantOf ty = Some v ->
  Forall (fun k => 1 <= k <= Z.of_nat n) targets ->
  forall cur, 1 <= cur <= Z.of_nat n ->
  styleRun ty cur targets (onlyShown n cur) = onlyShown n (last targets cur).
Proof.
  intros V F. induction F as [|k rest Hk F IH]; intros cur Hc; [reflexivity|].
  cbn [styleRun].
  rewrite (performTransitionStyles_onlyShown ty v n cur k V Hc Hk).
  rewrite (IH k Hk). destruct rest as [|z rest]; [reflexivity|].
  change (last (k :: z :: rest) cur) with (last (z :: rest) cur).
  now rewrite (last_cons_default z rest k cur).
Qed.

(** X28: with a crossfade kind, [setupSlides] shows the first slide only,
    and each transition from the slide that is shown moves "shown"
    (opacity 1, z-index 2, class [vvjs-active]) to its target and hides
    the slide it leaves, so after any run of navigations that starts from
    slide 1 exactly the last target is shown.  If the run starts from
    another slide s - the core's index after a configured starting index -
    the first slide is still the one [setupSlides] showed, and a
    transition s -> t that avoids slide 1 leaves both slide 1 and slide t
    opaque. *)
Theorem X28_crossfade_styles (ty v : string) (styles : list SlideStyle)
  (targets : list Z) (s t : Z) :
  variantOf ty = Some v ->
  let n := List.length styles in
  setupSlides ty styles = onlyShown n 1
  /\ (styles <> [] ->
      Forall (fun k => 1 <= k <= Z.of_nat n) targets ->
      styleRun ty 1 targets (setupSlides ty styles)
      = onlyShown n (last targets 1))
  /\ (1 < s <= Z.of_nat n -> 1 < t <= Z.of_nat n ->
      let after := performTransitionStyles ty s t (setupSlides ty styles) in
      st_opaque (nth 0 after hidden) = true
      /\ st_opaque (nth (Z.to_nat (t - 1)) after hidden) = true).
Proof.
  intros V n.
  destruct (crossfade_names ty v V) as [NI PC].
  assert (S1 : setupSlides ty styles = onlyShown n 1).
  { unfold setupSlides, onlyShown. rewrite NI, PC. fold n.
    apply map_ext. intros [|k]; [reflexivity|].
    destruct (Z.eqb_spec (Z.of_nat (S k) + 1) 1); [lia | reflexivity]. }
  split; [exact S1|]. split.
  - intros NE F. rewrite S1.
    assert (Hn : 1 <= 1 <= Z.of_nat n).
    { subst n. destruct styles; [contradiction | cbn; lia]. }
    exact (styleRun_onlyShown ty v n targets V F 1 Hn).
  - intros Rs Rt after. subst after. rewrite S1.
    unfold performTransitionStyles. cbn zeta. rewrite length_onlyShown, V.
    destruct (slidePosition_in_range n s ltac:(lia)) as (Ps & Ls & Es).
    destruct (slidePosition_in_range n t ltac:(lia)) as (Pt & Lt & Et).
    rewrite Ps, Pt. destruct (Z.eqb_spec s 0); [lia|].
    rewrite !nth_applyCrossfadeStyles by (now rewrite length_onlyShown).
    cbn zeta. rewrite !nth_onlyShown by lia.
    rewrite Et, Z.eqb_refl. cbn [Z.of_nat Z.add].
    destruct (Nat.eqb_spec 0 (Z.to_nat (s - 1))); [lia|].
    destruct (Nat.eqb_spec 0 (Z.to_nat (t - 1))); [lia|].
    rewrite Nat.eqb_refl.
    destruct (Nat.eqb_spec (Z.to_nat (t - 1)) (Z.to_nat (s - 1))); cbn;
      split; reflexivity.
Qed.

Lemma X28_crossfade_styles_witness :
  styleRun "crossfade-staged" 1 [2; 3; 1; 3]
    (setupSlides "crossfade-staged" [hidden; hidden; hidden])
  = onlyShown 3 (last [2; 3; 1; 3] 1).
Proof.
  apply (proj1 (proj2 (X28_crossfade_styles "crossfade-staged" "staged"
                         [hidden; hidden; hidden] [2; 3; 1; 3] 2 3 eq_refl))).
  - discriminate.
  - repeat constructor; cbn; lia.
Defined.
